(** * The Cork: wine cellar collection manager and its remote sync

    A shallow embedding of the collection-handling code of the wine cellar
    application ([class WineCellar]).  The sources hold several revisions
    of the class:

    - [src/app.js] lines 7-1228: local cache plus cloud sync, snapshots are
      union-merged into the local collection ([mergeWines]);
    - [src/app.js] lines 1236-2971: login-gated, the remote store is the
      source of truth, archive added;
    - [src/app.js] lines 2981-3997: local cache only;
    - [src/unnamed/part_000] lines 7-1589: as the login-gated revision, with
      the recognition calls moved to cloud functions.

    Rendering, modals and toasts only write to the DOM and are left out;
    everything that reads or writes the collection, the gate flag, the
    local cache or the remote store is kept. *)

From stdpp Require Import base option list sorting gmap strings pretty.
From Stdlib Require Import Ascii ZArith QArith Lia.

Open Scope Z_scope.

(** ** Records *)

(** A catalog record, as built by [handleFormSubmit].  [addedAt] holds
    [new Date().toISOString()]; the code only reads it back through
    [new Date(w.addedAt)], so the model keeps the epoch milliseconds that
    the string denotes.  [price] is the [parseFloat] result, kept as the
    rational it denotes. *)
Record Wine := mkWine {
  id : string;
  name : string;
  producer : option string;
  type : string;
  year : option string;
  region : option string;
  grape : option string;
  boldness : Z;
  tannins : Z;
  acidity : Z;
  price : option Q;
  quantity : Z;
  store : option string;
  notes : option string;
  image : option string;
  addedAt : Z
}.

(** An archive entry: [{...wine, rating, rebuy, archiveNotes, archivedAt}]. *)
Record ArchivedWine := mkArchived {
  base : Wine;
  rating : Z;
  rebuy : option string;
  archiveNotes : option string;
  archivedAt : Z
}.

(** The fields of [this] that the collection code reads or writes ([db]
    is whether [this.db] is set), and the page's cache: [stored] is
    [localStorage.getItem('wineCellar')] and [room] the longest value
    [setItem] accepts for that key before the quota is exceeded. *)
Record App := mkApp {
  wines : list Wine;
  archive : list ArchivedWine;
  currentWineId : option string;
  currentArchiveId : option string;
  archiveRating : Z;
  archiveRebuy : option string;
  db : bool;
  userId : option string;
  firebaseEnabled : bool;
  syncInProgress : bool;
  stored : option string;
  room : nat
}.

Definition set_wines (f : list Wine → list Wine) (s : App) : App :=
  mkApp (f (wines s)) (archive s) (currentWineId s) (currentArchiveId s)
        (archiveRating s) (archiveRebuy s) (db s) (userId s)
        (firebaseEnabled s) (syncInProgress s) (stored s) (room s).

Definition set_archive (f : list ArchivedWine → list ArchivedWine) (s : App) : App :=
  mkApp (wines s) (f (archive s)) (currentWineId s) (currentArchiveId s)
        (archiveRating s) (archiveRebuy s) (db s) (userId s)
        (firebaseEnabled s) (syncInProgress s) (stored s) (room s).

Definition set_syncInProgress (b : bool) (s : App) : App :=
  mkApp (wines s) (archive s) (currentWineId s) (currentArchiveId s)
        (archiveRating s) (archiveRebuy s) (db s) (userId s)
        (firebaseEnabled s) b (stored s) (room s).

Definition set_currentWineId (i : option string) (s : App) : App :=
  mkApp (wines s) (archive s) i (currentArchiveId s)
        (archiveRating s) (archiveRebuy s) (db s) (userId s)
        (firebaseEnabled s) (syncInProgress s) (stored s) (room s).

Definition set_stored (v : option string) (s : App) : App :=
  mkApp (wines s) (archive s) (currentWineId s) (currentArchiveId s)
        (archiveRating s) (archiveRebuy s) (db s) (userId s)
        (firebaseEnabled s) (syncInProgress s) v (room s).

(** JavaScript truthiness of a string-or-null value. *)
Definition truthy (o : option string) : bool :=
  match o with
  | Some s => negb (String.eqb s EmptyString)
  | None => false
  end.

(** [!this.firebaseEnabled || !this.db || !this.userId], negated. *)
Definition remote_ready (s : App) : bool :=
  firebaseEnabled s && db s && truthy (userId s).

(** ** Array helpers *)

(** [arr.find(w => w.id === key)]; a [null] key equals no id. *)
Definition find_by_id {A} (key_of : A → string) (key : option string)
    (l : list A) : option A :=
  match key with
  | Some k => List.find (λ x, String.eqb (key_of x) k) l
  | None => None
  end.

(** [arr.filter(w => w.id !== key)]. *)
Definition remove_by_id {A} (key_of : A → string) (key : option string)
    (l : list A) : list A :=
  match key with
  | Some k => List.filter (λ x, negb (String.eqb (key_of x) k)) l
  | None => l
  end.

(** [Array.prototype.sort] is stable; with a consistent comparator its
    result is the one a stable insertion sort gives.  [cmp a b <= 0] keeps
    [a] in front of [b]. *)
Fixpoint insert_sorted {A} (cmp : A → A → Z) (x : A) (l : list A) : list A :=
  match l with
  | [] => [x]
  | y :: l' => if cmp x y <=? 0 then x :: l else y :: insert_sorted cmp x l'
  end.

Definition array_sort {A} (cmp : A → A → Z) (l : list A) : list A :=
  foldr (insert_sorted cmp) [] l.

(** [(a, b) => new Date(b.addedAt) - new Date(a.addedAt)]: newest first
    (for records whose dates are valid, see [Wine]). *)
Definition by_addedAt (a b : Wine) : Z := addedAt b - addedAt a.
Definition by_archivedAt (a b : ArchivedWine) : Z := archivedAt b - archivedAt a.

(** ** The remote store and the event loop *)

Inductive Error :=
  | TypeError (msg : string)
  | SyntaxError
  | QuotaExceededError
  | RemoteError (msg : string).

(** Calls on [this.db.ref(path)], for the paths under [users/<uid>/]. *)
Inductive Request :=
  | OnceWine (wineId : string)                 (* wines/<id> .once('value') *)
  | RemoveWine (wineId : string)               (* wines/<id> .remove() *)
  | SetWine (wineId : string) (w : Wine)       (* wines/<id> .set(w) *)
  | SetWines (obj : gmap string Wine)          (* wines .set(obj) *)
  | SetArchive (archiveId : string) (a : ArchivedWine)
  | RemoveArchive (archiveId : string).

Inductive Reply :=
  | Snapshot (val : option Wine)               (* snapshot.exists() iff Some *)
  | Ack.

Inductive Settled :=
  | Fulfilled (v : Reply)
  | Rejected (e : Error).

Definition snapshot_exists (v : Reply) : bool :=
  match v with
  | Snapshot (Some _) => true
  | _ => false
  end.

Inductive TimerAction :=
  | ResetSyncFlag.                             (* () => this.syncInProgress = false *)

(** The body of a method, as a tree of its effects.  [Await] is a call on
    the remote store followed by [await]; [Spawn] is a call of an async
    method whose promise is dropped. *)
Inductive Task (A : Type) : Type :=
  | Ret (a : A)
  | Throw (e : Error)
  | Get (k : App → Task A)
  | Modify (f : App → App) (k : Task A)
  | DateNow (k : Z → Task A)
  | SetTimeout (cb : TimerAction) (ms : Z) (k : Task A)
  | Await (r : Request) (k : Settled → Task A)
  | Spawn (child : Task unit) (k : Task A).

Arguments Ret {A} a.
Arguments Throw {A} e.
Arguments Get {A} k.
Arguments Modify {A} f k.
Arguments DateNow {A} k.
Arguments SetTimeout {A} cb ms k.
Arguments Await {A} r k.
Arguments Spawn {A} child k.

Fixpoint bind {A B} (t : Task A) (f : A → Task B) : Task B :=
  match t with
  | Ret a => f a
  | Throw e => Throw e
  | Get k => Get (λ s, bind (k s) f)
  | Modify g k => Modify g (bind k f)
  | DateNow k => DateNow (λ n, bind (k n) f)
  | SetTimeout cb ms k => SetTimeout cb ms (bind k f)
  | Await r k => Await r (λ v, bind (k v) f)
  | Spawn c k => Spawn c (bind k f)
  end.

#[global] Instance task_ret : MRet Task := @Ret.
#[global] Instance task_bind : MBind Task := λ A B f t, bind t f.

(** [try { t } catch (error) { h error }]. *)
Fixpoint try_catch {A} (t : Task A) (h : Error → Task A) : Task A :=
  match t with
  | Ret a => Ret a
  | Throw e => h e
  | Get k => Get (λ s, try_catch (k s) h)
  | Modify g k => Modify g (try_catch k h)
  | DateNow k => DateNow (λ n, try_catch (k n) h)
  | SetTimeout cb ms k => SetTimeout cb ms (try_catch k h)
  | Await r k => Await r (λ v, try_catch (k v) h)
  | Spawn c k => Spawn c (try_catch k h)
  end.

(** [try { t } finally { fin }], for a [fin] that completes normally. *)
Definition try_finally {A} (t : Task A) (fin : Task unit) : Task A :=
  bind (try_catch (bind t (λ a, Ret (inl a))) (λ e, Ret (inr e)))
       (λ r, bind fin (λ _, match r with inl a => Ret a | inr e => Throw e end)).

Definition get : Task App := Get Ret.
Definition modify (f : App → App) : Task unit := Modify f (Ret tt).
Definition date_now : Task Z := DateNow Ret.
Definition setTimeout (cb : TimerAction) (ms : Z) : Task unit :=
  SetTimeout cb ms (Ret tt).

(** [await <request>]: a rejected promise is rethrown at the [await]. *)
Definition await (r : Request) : Task Reply :=
  Await r (λ v, match v with Fulfilled x => Ret x | Rejected e => Throw e end).

Definition spawn (child : Task unit) : Task unit := Spawn child (Ret tt).

Definition void {A} (t : Task A) : Task unit := bind t (λ _, Ret tt).

(** What the interpreter records about the traffic with the remote store:
    a request with the gate and the clock at the time it was issued, and
    its settlement with the clock at that time. *)
Inductive LogEntry :=
  | Issued (r : Request) (gate : bool) (at_ms : Z)
  | Served (r : Request) (v : Settled) (at_ms : Z).

(** The page, the signed-in user's part of the remote store, the clock,
    the armed timers and the requests of dropped promises still in
    flight.  [calls] is newest first. *)
Record World := mkWorld {
  app : App;
  remote_wines : gmap string Wine;
  remote_archive : gmap string ArchivedWine;
  clock : Z;
  timers : list (Z * TimerAction);
  pending : list (Request * (Settled → Task unit));
  calls : list LogEntry
}.

Definition with_app (f : App → App) (w : World) : World :=
  mkWorld (f (app w)) (remote_wines w) (remote_archive w) (clock w)
          (timers w) (pending w) (calls w).

Definition with_timers (f : list (Z * TimerAction) → list (Z * TimerAction))
    (w : World) : World :=
  mkWorld (app w) (remote_wines w) (remote_archive w) (clock w)
          (f (timers w)) (pending w) (calls w).

Definition with_pending
    (f : list (Request * (Settled → Task unit)) → list (Request * (Settled → Task unit)))
    (w : World) : World :=
  mkWorld (app w) (remote_wines w) (remote_archive w) (clock w)
          (timers w) (f (pending w)) (calls w).

Definition log (e : LogEntry) (w : World) : World :=
  mkWorld (app w) (remote_wines w) (remote_archive w) (clock w)
          (timers w) (pending w) (e :: calls w).

Definition log_issue (r : Request) (w : World) : World :=
  log (Issued r (syncInProgress (app w)) (clock w)) w.

(** The store applying one request. *)
Definition apply_request (r : Request) (w : World) : Reply * World :=
  match r with
  | OnceWine i => (Snapshot (remote_wines w !! i), w)
  | RemoveWine i =>
      (Ack, mkWorld (app w) (delete i (remote_wines w)) (remote_archive w)
                    (clock w) (timers w) (pending w) (calls w))
  | SetWine i x =>
      (Ack, mkWorld (app w) (<[i:=x]> (remote_wines w)) (remote_archive w)
                    (clock w) (timers w) (pending w) (calls w))
  | SetWines obj =>
      (Ack, mkWorld (app w) obj (remote_archive w)
                    (clock w) (timers w) (pending w) (calls w))
  | SetArchive i a =>
      (Ack, mkWorld (app w) (remote_wines w) (<[i:=a]> (remote_archive w))
                    (clock w) (timers w) (pending w) (calls w))
  | RemoveArchive i =>
      (Ack, mkWorld (app w) (remote_wines w) (delete i (remote_archive w))
                    (clock w) (timers w) (pending w) (calls w))
  end.

(** A request settles: it is rejected and leaves the store alone, or it is
    applied and fulfilled. *)
Definition serve (r : Request) (fail : option Error) (w : World) : Settled * World :=
  match fail with
  | Some e => (Rejected e, log (Served r (Rejected e) (clock w)) w)
  | None =>
      let '(v, w') := apply_request r w in
      (Fulfilled v, log (Served r (Fulfilled v) (clock w)) w')
  end.

Inductive Completion (A : Type) :=
  | Normal (a : A)
  | Abrupt (e : Error).
Arguments Normal {A} a.
Arguments Abrupt {A} e.

(** One turn of the event loop: run a body until it returns, throws, or
    reaches an [await], where the request is issued and the rest of the
    body is parked until the request settles. *)
Fixpoint run_sync {A} (t : Task A) (w : World) : option (Completion A) * World :=
  match t with
  | Ret a => (Some (Normal a), w)
  | Throw e => (Some (Abrupt e), w)
  | Get k => run_sync (k (app w)) w
  | Modify f k => run_sync k (with_app f w)
  | DateNow k => run_sync (k (clock w)) w
  | SetTimeout cb ms k =>
      run_sync k (with_timers (λ ts, ts ++ [(clock w + ms, cb)]) w)
  | Await r k =>
      (None, with_pending (λ p, p ++ [(r, λ v, void (k v))]) (log_issue r w))
  | Spawn c k => run_sync k (run_sync c w).2
  end.

Definition fire (cb : TimerAction) (s : App) : App :=
  match cb with
  | ResetSyncFlag => set_syncInProgress false s
  end.

(** Advance the clock and run the callbacks of the timers that came due. *)
Definition elapse (ms : N) (w : World) : World :=
  let now := clock w + Z.of_N ms in
  let due := List.filter (λ t, t.1 <=? now) (timers w) in
  let armed := List.filter (λ t, negb (t.1 <=? now)) (timers w) in
  mkWorld (foldl (λ s t, fire t.2 s) (app w) due)
          (remote_wines w) (remote_archive w) now armed (pending w) (calls w).

(** ** The sync code shared by the login-gated revisions
    ([src/app.js] 1405-1589 and [src/unnamed/part_000] 202-386) *)

(** The ['value'] callback on [users/<uid>/wines].  [data] is
    [snapshot.val()]: [None] for [null], otherwise [Object.values(data)]. *)
Definition winesValue (data : option (list Wine)) : Task unit :=
  s ← get;
  if syncInProgress s then Ret tt
  else
    let firebaseWines := default [] data in
    modify (set_wines (λ _, firebaseWines));;
    modify (set_wines (array_sort by_addedAt)).

(** The ['value'] callback on [users/<uid>/archive]. *)
Definition archiveValue (data : option (list ArchivedWine)) : Task unit :=
  s ← get;
  if syncInProgress s then Ret tt
  else
    let firebaseArchive := default [] data in
    modify (set_archive (λ _, firebaseArchive));;
    modify (set_archive (array_sort by_archivedAt)).

(** [`${x}`] for a string-or-null [x]. *)
Definition template (o : option string) : string := default "null" o.

Definition pushWineToFirebase (wine : Wine) : Task unit :=
  s ← get;
  if negb (remote_ready s) then Ret tt
  else try_catch (void (await (SetWine (id wine) wine))) (λ _, Ret tt).

Definition deleteWineFromFirebase (wineId : option string) : Task bool :=
  s ← get;
  if negb (remote_ready s) then Ret false
  else
    try_catch
      (snapshot ← await (OnceWine (template wineId));
       if snapshot_exists snapshot then
         await (RemoveWine (template wineId));;
         verifySnapshot ← await (OnceWine (template wineId));
         Ret true
       else Ret true)
      (λ _, Ret false).

(** [winesObject[wine.id] = wine] for each wine in turn. *)
Definition winesObject (l : list Wine) : gmap string Wine :=
  foldl (λ obj wine, <[id wine := wine]> obj) ∅ l.

Definition saveWinesToFirebase : Task unit :=
  s ← get;
  if negb (remote_ready s) then Ret tt
  else
    modify (set_syncInProgress true);;
    try_finally
      (try_catch
         (s' ← get;
          void (await (SetWines (winesObject (wines s')))))
         (λ _, Ret tt))
      (modify (set_syncInProgress false)).

Definition saveWines : Task unit :=
  s ← get;
  if firebaseEnabled s then spawn saveWinesToFirebase else Ret tt.

Definition pushToArchive (archivedWine : ArchivedWine) : Task unit :=
  modify (set_archive (cons archivedWine));;
  s ← get;
  if remote_ready s then
    try_catch (void (await (SetArchive (id (base archivedWine)) archivedWine)))
              (λ _, Ret tt)
  else Ret tt.

Definition deleteFromArchive (archiveId : option string) : Task unit :=
  modify (set_archive (remove_by_id (λ a, id (base a)) archiveId));;
  s ← get;
  if remote_ready s then
    try_catch (void (await (RemoveArchive (template archiveId)))) (λ _, Ret tt)
  else Ret tt.

(** ** The event loop *)

(** What can happen while the page is idle or a body is suspended. *)
Inductive Event :=
  | WinesValue (data : option (list Wine))       (* the wines listener fires *)
  | ArchiveValue (data : option (list ArchivedWine))
  | Elapse (ms : N)                              (* time passes, timers run *)
  | Settle (i : nat) (fail : option Error)       (* a parked request settles *)
  | Foreign (r : Request).                       (* another client's request *)

Definition dispatch (w : World) (e : Event) : World :=
  match e with
  | WinesValue data => (run_sync (winesValue data) w).2
  | ArchiveValue data => (run_sync (archiveValue data) w).2
  | Elapse ms => elapse ms w
  | Settle i fail =>
      match pending w !! i with
      | Some (r, k) =>
          let '(v, w') := serve r fail (with_pending (delete i) w) in
          (run_sync (k v) w').2
      | None => w
      end
  | Foreign r => (apply_request r w).2
  end.

Definition run_events (es : list Event) (w : World) : World :=
  foldl dispatch w es.

(** What the environment does while one [await] of the followed body is
    outstanding: the events that reach the page, then how the request
    settles. *)
Record Turn := mkTurn {
  happenings : list Event;
  failure : option Error
}.

Definition quiet : Turn := mkTurn [] None.

(** Where a followed call ends: how it completed, the world it leaves,
    and the turns it did not use. *)
Record Outcome (A : Type) := mkOutcome {
  result : Completion A;
  world : World;
  unread : list Turn
}.
Arguments mkOutcome {A} result world unread.
Arguments result {A} o.
Arguments world {A} o.
Arguments unread {A} o.

(** One [await] of a followed call: the request is issued, the events
    of the next turn of the script reach the page, and the request
    settles.  A script that has run out stands for quiet turns. *)
Definition settle_turn (r : Request) (script : list Turn) (w : World)
    : Settled * World :=
  let turn := hd quiet script in
  serve r (failure turn) (run_events (happenings turn) (log_issue r w)).

(** Follow one call through all its [await]s. *)
Fixpoint exec {A} (t : Task A) (script : list Turn) (w : World) : Outcome A :=
  match t with
  | Ret a => mkOutcome (Normal a) w script
  | Throw e => mkOutcome (Abrupt e) w script
  | Get k => exec (k (app w)) script w
  | Modify f k => exec k script (with_app f w)
  | DateNow k => exec (k (clock w)) script w
  | SetTimeout cb ms k =>
      exec k script (with_timers (λ ts, ts ++ [(clock w + ms, cb)]) w)
  | Await r k =>
      exec (k (settle_turn r script w).1) (tl script) (settle_turn r script w).2
  | Spawn c k => exec k script (run_sync c w).2
  end.

(** ** The collection manager
    ([src/app.js] 2495-2508, 2622-2682, 2897-2938 and
     [src/unnamed/part_000] 1108-1121, 1241-1301, 1516-1556) *)

(** The two login-gated revisions.  They differ, in the code modelled
    here, in one statement of [deleteCurrentWine] and of
    [restoreWineFromArchive]. *)
Inductive Revision :=
  | LoginGated        (* src/app.js, class at lines 1236-2971 *)
  | CloudFunctions.   (* src/unnamed/part_000, class at lines 7-1589 *)

(** [this.saveToLocalStorage();] at [src/app.js] 2659 and 2923.  The class
    of that revision declares no [saveToLocalStorage] (the only
    declaration, line 230, belongs to the class of lines 7-1228), so the
    call is a call of [undefined].  [src/unnamed/part_000] has no such
    statement. *)
Definition saveToLocalStorage_call (rev : Revision) : Task unit :=
  match rev with
  | LoginGated => Throw (TypeError "this.saveToLocalStorage is not a function")
  | CloudFunctions => Ret tt
  end.

(** [wine.quantity = newQty] on the object [find] returned: the first
    entry with that id is updated in place. *)
Definition with_quantity (q : Z) (w : Wine) : Wine :=
  mkWine (id w) (name w) (producer w) (type w) (year w) (region w) (grape w)
         (boldness w) (tannins w) (acidity w) (price w) q (store w)
         (notes w) (image w) (addedAt w).

Fixpoint assign_quantity (k : string) (q : Z) (l : list Wine) : list Wine :=
  match l with
  | [] => []
  | w :: l' =>
      if String.eqb (id w) k then with_quantity q w :: l'
      else w :: assign_quantity k q l'
  end.

Definition updateDetailQuantity (change : Z) : Task unit :=
  s ← get;
  match find_by_id id (currentWineId s) (wines s) with
  | None => Ret tt
  | Some wine =>
      let newQty := quantity wine + change in
      if newQty <? 1 then Ret tt
      else
        modify (set_wines (assign_quantity (id wine) newQty));;
        saveWines
  end.

(** [openDetailModal(wineId)]: selects the record, when it exists. *)
Definition openDetailModal (wineId : string) : Task unit :=
  s ← get;
  match find_by_id id (Some wineId) (wines s) with
  | None => Ret tt
  | Some _ => modify (set_currentWineId (Some wineId))
  end.

Definition deleteCurrentWine (rev : Revision) : Task unit :=
  s ← get;
  let wineIdToDelete := currentWineId s in
  modify (set_syncInProgress true);;
  modify (set_wines (remove_by_id id wineIdToDelete));;
  saveToLocalStorage_call rev;;
  s' ← get;
  (if firebaseEnabled s' then void (deleteWineFromFirebase wineIdToDelete)
   else Ret tt);;
  setTimeout ResetSyncFlag 2000.

(** [s.trim()], on the ASCII white space. *)
Fixpoint trim_start (s : string) : string :=
  match s with
  | EmptyString => EmptyString
  | String c s' => if Ascii.is_space c then trim_start s' else s
  end.

Definition trim (s : string) : string :=
  String.rev (trim_start (String.rev (trim_start s))).

(** [s || null]. *)
Definition or_null (s : string) : option string :=
  if String.eqb s EmptyString then None else Some s.

(** [notesInput] is [document.getElementById('archiveNotes').value]. *)
Definition confirmArchive (rev : Revision) (notesInput : string) : Task unit :=
  s ← get;
  match find_by_id id (currentWineId s) (wines s) with
  | None => Ret tt
  | Some wine =>
      now ← date_now;
      let archivedWine :=
        mkArchived wine (archiveRating s) (archiveRebuy s)
                   (or_null (trim notesInput)) now in
      pushToArchive archivedWine;;
      deleteCurrentWine rev
  end.

Definition restoreWineFromArchive (rev : Revision) : Task unit :=
  s ← get;
  match find_by_id (λ a, id (base a)) (currentArchiveId s) (archive s) with
  | None => Ret tt
  | Some archivedWine =>
      now ← date_now;
      let restoredWine :=
        mkWine (pretty now)
               (name (base archivedWine))
               (producer (base archivedWine))
               (type (base archivedWine))
               (year (base archivedWine))
               (region (base archivedWine))
               (grape (base archivedWine))
               (boldness (base archivedWine))
               (tannins (base archivedWine))
               (acidity (base archivedWine))
               (price (base archivedWine))
               1
               (store (base archivedWine))
               (notes (base archivedWine))
               (image (base archivedWine))
               now in
      modify (set_wines (cons restoredWine));;
      saveToLocalStorage_call rev;;
      s' ← get;
      (if firebaseEnabled s' then pushWineToFirebase restoredWine else Ret tt);;
      s'' ← get;
      deleteFromArchive (currentArchiveId s'')
  end.

(** The clicks the detail view offers ([bindEvents]): the two quantity
    buttons, and a card of the list, which opens the detail view on
    another record. *)
Inductive DetailAction :=
  | Increase                   (* detailIncrease: updateDetailQuantity(1) *)
  | Decrease                   (* detailDecrease: updateDetailQuantity(-1) *)
  | OpenCard (wineId : string).

Definition on_click (a : DetailAction) : Task unit :=
  match a with
  | Increase => updateDetailQuantity 1
  | Decrease => updateDetailQuantity (-1)
  | OpenCard i => openDetailModal i
  end.

Definition click (w : World) (a : DetailAction) : World :=
  (run_sync (on_click a) w).2.

(** ** The union-merge revision ([src/app.js] 83-255) *)

Section UnionMerge.

(** [JSON.stringify] on an array of records is the host's; the code is
    followed for any serializer. *)
Variable JSON_stringify : list Wine → string.

(** [localStorage.setItem('wineCellar', value)]. *)
Definition setItem (value : string) : Task unit :=
  s ← get;
  if (String.length value <=? room s)%nat
  then modify (set_stored (Some value))
  else Throw QuotaExceededError.

(** [{ ...w, image: null }]. *)
Definition without_image (w : Wine) : Wine :=
  mkWine (id w) (name w) (producer w) (type w) (year w) (region w) (grape w)
         (boldness w) (tannins w) (acidity w) (price w) (quantity w) (store w)
         (notes w) None (addedAt w).

Definition saveToLocalStorage : Task unit :=
  try_catch
    (s ← get; setItem (JSON_stringify (wines s)))
    (λ e,
       match e with
       | QuotaExceededError =>
           s ← get;
           let winesWithoutImages := List.map without_image (wines s) in
           try_catch (setItem (JSON_stringify winesWithoutImages))
                     (λ e2, Ret tt)
       | _ => Ret tt
       end).

(** A JavaScript [Map] keyed by id: entries in insertion order, [set] on
    a key that is present replaces the value where it stands. *)
Fixpoint map_set (k : string) (v : Wine) (m : list (string * Wine))
    : list (string * Wine) :=
  match m with
  | [] => [(k, v)]
  | (k', v') :: m' =>
      if String.eqb k' k then (k, v) :: m' else (k', v') :: map_set k v m'
  end.

Definition map_has (k : string) (m : list (string * Wine)) : bool :=
  existsb (λ kv, String.eqb kv.1 k) m.

Definition new_Map (entries : list (string * Wine)) : list (string * Wine) :=
  foldl (λ m kv, map_set kv.1 kv.2 m) [] entries.

(** The [this.wines.forEach] of [mergeWines]. *)
Fixpoint add_local_only (firebaseWinesMap : list (string * Wine))
    (local : list Wine) (merged : list (string * Wine))
    : Task (list (string * Wine)) :=
  match local with
  | [] => Ret merged
  | w :: rest =>
      if negb (map_has (id w) firebaseWinesMap) then
        spawn (pushWineToFirebase w);;
        add_local_only firebaseWinesMap rest (map_set (id w) w merged)
      else add_local_only firebaseWinesMap rest merged
  end.

Definition mergeWines (firebaseWines : list Wine) : Task unit :=
  s ← get;
  let firebaseWinesMap := new_Map (List.map (λ w, (id w, w)) firebaseWines) in
  let merged0 := foldl (λ m w, map_set (id w) w m) [] firebaseWines in
  merged ← add_local_only firebaseWinesMap (wines s) merged0;
  modify (set_wines (λ _, merged.*2));;
  modify (set_wines (array_sort by_addedAt));;
  saveToLocalStorage.

(** The ['value'] callback of this revision. *)
Definition winesValue_merge (data : option (list Wine)) : Task unit :=
  s ← get;
  if syncInProgress s then Ret tt
  else
    match data with
    | Some firebaseWines => mergeWines firebaseWines
    | None => Ret tt
    end.

End UnionMerge.

(** ** The local cache ([src/app.js] 223-228 and 3010-3015) *)

(** [JSON.parse], after the JSON grammar (ECMA-404): a scanner and a
    pushdown recognizer that builds the value.  String and number
    payloads are kept as their source text. *)
Module JSON.

#[local] Unset Elimination Schemes.
Inductive value :=
  | Null
  | Bool (b : bool)
  | Number (lexeme : string)
  | Str (raw : string)
  | Array (items : list value)
  | Object (members : list (string * value)).
#[local] Set Elimination Schemes.

Inductive token :=
  | LBrace | RBrace | LBracket | RBracket | Colon | Comma
  | TStr (raw : string)
  | TNum (lexeme : string)
  | TTrue | TFalse | TNull.

Definition code (c : Ascii.ascii) : nat := Ascii.nat_of_ascii c.
Definition between_codes (lo hi : nat) (c : Ascii.ascii) : bool :=
  ((lo <=? code c) && (code c <=? hi))%nat.

Definition is_ws (c : Ascii.ascii) : bool :=
  (Ascii.eqb c " " || Ascii.eqb c "009" || Ascii.eqb c "010" || Ascii.eqb c "013")%char.
Definition is_digit : Ascii.ascii → bool := between_codes 48 57.
Definition is_lower : Ascii.ascii → bool := between_codes 97 122.
Definition is_hex (c : Ascii.ascii) : bool :=
  is_digit c || between_codes 97 102 c || between_codes 65 70 c.
Definition is_control (c : Ascii.ascii) : bool := (code c <? 32)%nat.
Definition quote : Ascii.ascii := "034"%char.
Definition in_number (c : Ascii.ascii) : bool :=
  (is_digit c || Ascii.eqb c "-" || Ascii.eqb c "+" || Ascii.eqb c "."
   || Ascii.eqb c "e" || Ascii.eqb c "E")%char.
Definition is_escape (c : Ascii.ascii) : bool :=
  (Ascii.eqb c quote || Ascii.eqb c "\" || Ascii.eqb c "/" || Ascii.eqb c "b"
   || Ascii.eqb c "f" || Ascii.eqb c "n" || Ascii.eqb c "r" || Ascii.eqb c "t")%char.

(** The number grammar: an optional minus; then 0, or a nonzero digit
    and digits; then optionally a dot and one or more digits; then
    optionally e or E, an optional sign, and one or more digits. *)
Inductive num_state :=
  | NStart | NMinus | NZero | NInt | NDot | NFrac | NExp | NExpSign | NExpDigits.

Definition num_step (st : num_state) (c : Ascii.ascii) : option num_state :=
  match st with
  | NStart =>
      if Ascii.eqb c "-" then Some NMinus
      else if Ascii.eqb c "0" then Some NZero
      else if is_digit c then Some NInt else None
  | NMinus =>
      if Ascii.eqb c "0" then Some NZero
      else if is_digit c then Some NInt else None
  | NZero =>
      if Ascii.eqb c "." then Some NDot
      else if Ascii.eqb c "e" || Ascii.eqb c "E" then Some NExp else None
  | NInt =>
      if is_digit c then Some NInt
      else if Ascii.eqb c "." then Some NDot
      else if Ascii.eqb c "e" || Ascii.eqb c "E" then Some NExp else None
  | NDot => if is_digit c then Some NFrac else None
  | NFrac =>
      if is_digit c then Some NFrac
      else if Ascii.eqb c "e" || Ascii.eqb c "E" then Some NExp else None
  | NExp =>
      if Ascii.eqb c "+" || Ascii.eqb c "-" then Some NExpSign
      else if is_digit c then Some NExpDigits else None
  | NExpSign => if is_digit c then Some NExpDigits else None
  | NExpDigits => if is_digit c then Some NExpDigits else None
  end%char.

Fixpoint num_run (st : num_state) (s : string) : bool :=
  match s with
  | EmptyString =>
      match st with
      | NZero | NInt | NFrac | NExpDigits => true
      | _ => false
      end
  | String c s' =>
      match num_step st c with
      | Some st' => num_run st' s'
      | None => false
      end
  end.

Definition valid_number : string → bool := num_run NStart.

(** The scanner; the text of the token being read is kept reversed. *)
Inductive lex_state :=
  | Between
  | InString (raw : string)
  | Escape (raw : string)
  | Unicode (more : nat) (raw : string)
  | InNumber (lexeme : string)
  | InWord (lexeme : string).

Definition close_number (lexeme : string) : option token :=
  let l := String.rev lexeme in
  if valid_number l then Some (TNum l) else None.

Definition close_word (lexeme : string) : option token :=
  let l := String.rev lexeme in
  if String.eqb l "true" then Some TTrue
  else if String.eqb l "false" then Some TFalse
  else if String.eqb l "null" then Some TNull
  else None.

Definition between (acc : list token) (c : Ascii.ascii)
    : option (lex_state * list token) :=
  (if is_ws c then Some (Between, acc)
   else if Ascii.eqb c "{" then Some (Between, LBrace :: acc)
   else if Ascii.eqb c "}" then Some (Between, RBrace :: acc)
   else if Ascii.eqb c "[" then Some (Between, LBracket :: acc)
   else if Ascii.eqb c "]" then Some (Between, RBracket :: acc)
   else if Ascii.eqb c ":" then Some (Between, Colon :: acc)
   else if Ascii.eqb c "," then Some (Between, Comma :: acc)
   else if Ascii.eqb c quote then Some (InString EmptyString, acc)
   else if is_digit c || Ascii.eqb c "-"
        then Some (InNumber (String c EmptyString), acc)
   else if is_lower c then Some (InWord (String c EmptyString), acc)
   else None)%char.

Definition lex_char (st : lex_state) (acc : list token) (c : Ascii.ascii)
    : option (lex_state * list token) :=
  match st with
  | Between => between acc c
  | InString raw =>
      if Ascii.eqb c quote then Some (Between, TStr (String.rev raw) :: acc)
      else if Ascii.eqb c "\"%char then Some (Escape (String c raw), acc)
      else if is_control c then None
      else Some (InString (String c raw), acc)
  | Escape raw =>
      if is_escape c then Some (InString (String c raw), acc)
      else if Ascii.eqb c "u"%char then Some (Unicode 4 (String c raw), acc)
      else None
  | Unicode more raw =>
      if is_hex c then
        match more with
        | S (S n) => Some (Unicode (S n) (String c raw), acc)
        | _ => Some (InString (String c raw), acc)
        end
      else None
  | InNumber lexeme =>
      if in_number c then Some (InNumber (String c lexeme), acc)
      else match close_number lexeme with
           | Some t => between (t :: acc) c
           | None => None
           end
  | InWord lexeme =>
      if is_lower c then Some (InWord (String c lexeme), acc)
      else match close_word lexeme with
           | Some t => between (t :: acc) c
           | None => None
           end
  end.

Definition lex_end (st : lex_state) (acc : list token) : option (list token) :=
  match st with
  | Between => Some (rev acc)
  | InNumber lexeme => t ← close_number lexeme; Some (rev (t :: acc))
  | InWord lexeme => t ← close_word lexeme; Some (rev (t :: acc))
  | _ => None
  end.

Fixpoint lex_from (st : lex_state) (acc : list token) (s : string)
    : option (list token) :=
  match s with
  | EmptyString => lex_end st acc
  | String c s' =>
      match lex_char st acc c with
      | Some (st', acc') => lex_from st' acc' s'
      | None => None
      end
  end.

Definition lex : string → option (list token) := lex_from Between [].

(** The recognizer: a stack of the containers that are open, each with
    what it holds so far (reversed), and where we are in the grammar. *)
Inductive frame :=
  | InArray (items : list value)
  | InObject (members : list (string * value)) (key : string).

Inductive expect :=
  | AValue                     (* a value must follow *)
  | FirstItem                  (* after '[': a value or ']' *)
  | FirstKey                   (* after '{': a key or '}' *)
  | AKey                       (* after ',' in an object: a key *)
  | AColon (key : string)      (* after a key: ':' *)
  | After (v : value).         (* a value is complete *)

Definition scalar (t : token) : option value :=
  match t with
  | TStr raw => Some (Str raw)
  | TNum lexeme => Some (Number lexeme)
  | TTrue => Some (Bool true)
  | TFalse => Some (Bool false)
  | TNull => Some Null
  | _ => None
  end.

Definition start_value (stack : list frame) (t : token)
    : option (expect * list frame) :=
  match t with
  | LBracket => Some (FirstItem, InArray [] :: stack)
  | LBrace => Some (FirstKey, InObject [] EmptyString :: stack)
  | _ => v ← scalar t; Some (After v, stack)
  end.

Definition parse_token (e : expect) (stack : list frame) (t : token)
    : option (expect * list frame) :=
  match e, t, stack with
  | AValue, _, _ => start_value stack t
  | FirstItem, RBracket, InArray _ :: stack' => Some (After (Array []), stack')
  | FirstItem, _, _ => start_value stack t
  | FirstKey, RBrace, InObject _ _ :: stack' => Some (After (Object []), stack')
  | FirstKey, TStr k, _ => Some (AColon k, stack)
  | AKey, TStr k, _ => Some (AColon k, stack)
  | AColon k, Colon, InObject members _ :: stack' =>
      Some (AValue, InObject members k :: stack')
  | After v, Comma, InArray items :: stack' =>
      Some (AValue, InArray (v :: items) :: stack')
  | After v, Comma, InObject members k :: stack' =>
      Some (AKey, InObject ((k, v) :: members) EmptyString :: stack')
  | After v, RBracket, InArray items :: stack' =>
      Some (After (Array (rev (v :: items))), stack')
  | After v, RBrace, InObject members k :: stack' =>
      Some (After (Object (rev ((k, v) :: members))), stack')
  | _, _, _ => None
  end.

Fixpoint parse_from (e : expect) (stack : list frame) (ts : list token)
    : option value :=
  match ts with
  | [] =>
      match e, stack with
      | After v, [] => Some v
      | _, _ => None
      end
  | t :: ts' =>
      match parse_token e stack t with
      | Some (e', stack') => parse_from e' stack' ts'
      | None => None
      end
  end.

(** [JSON.parse(text)]: the value, or [None] where it throws a
    [SyntaxError]. *)
Definition parse (text : string) : option value :=
  ts ← lex text; parse_from AValue [] ts.

End JSON.

(** [loadWines()].  [stored] is [localStorage.getItem('wineCellar')]
    ([None] for [null]) and [wines] the value of [this.wines] at the call;
    the result is the value of [this.wines] afterwards, or the exception
    that leaves the method. *)
Definition loadWines (stored : option string) (wines : JSON.value)
    : Completion JSON.value :=
  match stored with
  | Some text =>
      if truthy stored then
        match JSON.parse text with
        | Some parsed => Normal parsed
        | None => Abrupt SyntaxError
        end
      else Normal wines
  | None => Normal wines
  end.

(** [this.wines = []] in the constructor, then [init()] calls
    [loadWines()] first. *)
Definition init_wines (stored : option string) : Completion JSON.value :=
  loadWines stored (JSON.Array []).

(** ** Vocabulary of the properties *)

(** Every record holds at least one bottle. *)
Definition stocked (l : list Wine) : Prop := Forall (λ w, 1 ≤ quantity w) l.

(** No other call is in flight: no request of a dropped promise is
    outstanding and no timer is armed. *)
Definition idle (w : World) : Prop := pending w = [] ∧ timers w = [].

(** A body that only reads and talks to the remote store: it assigns no
    field, arms no timer and drops no promise. *)
Inductive inert {A} : Task A → Prop :=
  | inert_Ret a : inert (Ret a)
  | inert_Throw e : inert (Throw e)
  | inert_Get k : (∀ s, inert (k s)) → inert (Get k)
  | inert_DateNow k : (∀ n, inert (k n)) → inert (DateNow k)
  | inert_Await r k : (∀ v, inert (k v)) → inert (Await r k).

(** The time a list of events lets pass. *)
Definition elapsed (es : list Event) : N :=
  foldr (λ e n, match e with Elapse ms => (ms + n)%N | _ => n end) 0%N es.

Definition is_delivery (e : Event) : bool :=
  match e with
  | WinesValue _ | ArchiveValue _ => true
  | _ => false
  end.

Definition is_archive_delivery (e : Event) : bool :=
  match e with
  | ArchiveValue _ => true
  | _ => false
  end.

(** No snapshot reaches the listeners while the followed call is
    suspended. *)
Definition undisturbed (script : list Turn) : Prop :=
  Forall (λ t, Forall (λ e, is_delivery e = false) (happenings t)) script.

(** No archive snapshot does. *)
Definition archive_undisturbed (script : list Turn) : Prop :=
  Forall (λ t, Forall (λ e, is_archive_delivery e = false) (happenings t)) script.

Definition is_write (r : Request) : bool :=
  match r with
  | OnceWine _ => false
  | _ => true
  end.

Definition served_write (e : LogEntry) : bool :=
  match e with
  | Served r _ _ => is_write r
  | Issued _ _ _ => false
  end.

Definition issued_open (e : LogEntry) : bool :=
  match e with
  | Issued r gate _ => is_write r && negb gate
  | Served _ _ _ => false
  end.

(** The gate discipline of the design, read off the outcome of a followed
    call: no write was issued with the gate open, and if a write was
    served the gate is still set when the call returns (so that only a
    later timer can clear it). *)
Definition gate_discipline {A} (o : Outcome A) : Prop :=
  existsb issued_open (calls (world o)) = false ∧
  (existsb served_write (calls (world o)) = true →
   syncInProgress (app (world o)) = true).

(** A followed call that makes one request [r] and has no part in the
    gate: the request is issued with the gate as the call found it, the
    gate is the same when the call returns, and no timer is armed. *)
Definition passes_gate_by {A} (t : Task A) (r : Request) (script : list Turn)
    (w : World) : Prop :=
  let o := exec t script w in
  ∃ v,
    calls (world o)
    = Served r v (clock (world o))
      :: Issued r (syncInProgress (app w)) (clock w)
      :: calls w ∧
    syncInProgress (app (world o)) = syncInProgress (app w) ∧
    timers (world o) = [].

(** Newest first. *)
Definition newest_first (l : list Wine) : Prop :=
  Sorted (λ a b, addedAt b ≤ addedAt a) l.

(** The page a delete leaves. *)
Definition deleted_page (s : App) : App :=
  set_wines (remove_by_id id (currentWineId s)) (set_syncInProgress true s).

(** The page, but for its list of wines. *)
Definition forget_wines (s : App) : App := set_wines (λ _, []) s.

(** The record a restore builds from an archive entry at time [now]. *)
Definition restored_from (a : ArchivedWine) (now : Z) : Wine :=
  mkWine (pretty now) (name (base a)) (producer (base a)) (type (base a))
         (year (base a)) (region (base a)) (grape (base a))
         (boldness (base a)) (tannins (base a)) (acidity (base a))
         (price (base a)) 1 (store (base a)) (notes (base a))
         (image (base a)) now.

(** ** Sample data *)

Definition reserva : Wine :=
  mkWine "100" "Reserva" None "red" None None None 3 3 3 None 1 None None None 100.

Definition blanc : Wine :=
  mkWine "200" "Blanc" (Some "Domaine") "white" (Some "2020") None None 2 1 4
         None 2 None None (Some "data:image/jpeg;base64,AAAA") 200.

Definition cellar : App :=
  mkApp [blanc; reserva] [] (Some "100") None 4 (Some "yes")
        true (Some "uid") true false None 5000.

Definition online : World :=
  mkWorld cellar (winesObject [blanc; reserva]) ∅ 1000 [] [] [].

Definition reserva_archived : ArchivedWine :=
  mkArchived reserva 4 (Some "yes") (Some "nice") 1000.

Definition archived_cellar : App :=
  mkApp [blanc] [reserva_archived] None (Some "100") 0 None
        true (Some "uid") true false None 5000.

Definition after_archive : World :=
  mkWorld archived_cellar (winesObject [blanc])
          {["100" := reserva_archived]} 5000 [] [] [].

(** The scenario of the union merge: local [a; b], remote [b'; c]. *)
Definition merge_a : Wine :=
  mkWine "1" "A" None "red" None None None 3 3 3 None 1 None None None 300.
Definition merge_b : Wine :=
  mkWine "2" "B" None "red" None None None 3 3 3 None 1 None None None 200.
Definition merge_b' : Wine :=
  mkWine "2" "B" None "red" None None None 3 3 3 None 5 None None None 200.
Definition merge_c : Wine :=
  mkWine "3" "C" None "white" None None None 3 3 3 None 1 None None None 400.

Definition merge_local : World :=
  mkWorld (mkApp [merge_a; merge_b] [] None None 0 None
                 true (Some "uid") true false None 5000)
          (winesObject [merge_b'; merge_c]) ∅ 1000 [] [] [].

(** An archive entry that holds six bottles. *)
Definition six_pack : ArchivedWine :=
  mkArchived (with_quantity 6 blanc) 5 (Some "maybe") None 4000.

Definition after_six_pack : World :=
  mkWorld (mkApp [reserva] [six_pack] None (Some "200") 0 None
                 true (Some "uid") true false None 5000)
          (winesObject [reserva]) {["200" := six_pack]} 5000 [] [] [].

(** A serializer to run the samples with: the ids, with a mark for each
    image. *)
Definition sample_stringify (l : list Wine) : string :=
  foldr (λ w s, id w +:+ match image w with Some _ => "+" | None => "-" end +:+ s)
        EmptyString l.

(** ** The rest of the login-gated page
    ([src/app.js] 1298-1318, 1772-1781, 2278-2313, 2328-2369, 2428-2435,
     2555-2620, 2794-2798, 2940-2950 and [src/unnamed/part_000] 95-115,
     464-473, 891-926, 941-982, 1041-1048, 1168-1239, 1413-1417,
     1558-1568) *)

Definition set_currentArchiveId (i : option string) (s : App) : App :=
  mkApp (wines s) (archive s) (currentWineId s) i
        (archiveRating s) (archiveRebuy s) (db s) (userId s)
        (firebaseEnabled s) (syncInProgress s) (stored s) (room s).

Definition set_archiveRating (r : Z) (s : App) : App :=
  mkApp (wines s) (archive s) (currentWineId s) (currentArchiveId s)
        r (archiveRebuy s) (db s) (userId s)
        (firebaseEnabled s) (syncInProgress s) (stored s) (room s).

Definition set_archiveRebuy (o : option string) (s : App) : App :=
  mkApp (wines s) (archive s) (currentWineId s) (currentArchiveId s)
        (archiveRating s) o (db s) (userId s)
        (firebaseEnabled s) (syncInProgress s) (stored s) (room s).

Definition set_userId (u : option string) (s : App) : App :=
  mkApp (wines s) (archive s) (currentWineId s) (currentArchiveId s)
        (archiveRating s) (archiveRebuy s) (db s) u
        (firebaseEnabled s) (syncInProgress s) (stored s) (room s).

Definition set_firebaseEnabled (b : bool) (s : App) : App :=
  mkApp (wines s) (archive s) (currentWineId s) (currentArchiveId s)
        (archiveRating s) (archiveRebuy s) (db s) (userId s)
        b (syncInProgress s) (stored s) (room s).

(** The callback of [firebase.auth().onAuthStateChanged] in
    [initFirebase]; [user] is [user.uid], or [None] for [null].  The
    listeners that [setupFirebaseListener] attaches are the [WinesValue]
    and [ArchiveValue] events of the loop. *)
Definition onAuthStateChanged (user : option string) : Task unit :=
  match user with
  | Some uid =>
      modify (set_userId (Some uid));;
      modify (set_firebaseEnabled true)
  | None =>
      modify (set_firebaseEnabled false);;
      modify (set_userId None);;
      modify (set_wines (λ _, []));;
      modify (set_archive (λ _, []))
  end.

Definition openDeleteModal : Task unit :=
  s ← get;
  match find_by_id id (currentWineId s) (wines s) with
  | None => Ret tt
  | Some _ =>
      modify (set_archiveRating 0);;
      modify (set_archiveRebuy None)
  end.

Definition setArchiveRating (rating : Z) : Task unit :=
  modify (set_archiveRating rating).

Definition setRebuyOption (option : string) : Task unit :=
  modify (set_archiveRebuy (Some option)).

(** [src/unnamed/part_000] wraps the call in [try]/[catch]; [src/app.js]
    does not. *)
Definition skipArchiveAndDelete (rev : Revision) : Task unit :=
  match rev with
  | LoginGated => deleteCurrentWine LoginGated
  | CloudFunctions => try_catch (deleteCurrentWine CloudFunctions) (λ _, Ret tt)
  end.

Definition openArchiveDetail (archiveId : string) : Task unit :=
  s ← get;
  match find_by_id (λ a, id (base a)) (Some archiveId) (archive s) with
  | None => Ret tt
  | Some _ => modify (set_currentArchiveId (Some archiveId))
  end.

(** [confirmed] is what the [confirm(...)] dialog returns. *)
Definition deleteFromArchiveConfirm (confirmed : bool) : Task unit :=
  if negb confirmed then Ret tt
  else
    s ← get;
    deleteFromArchive (currentArchiveId s).

(** [parseInt(s)] with no radix: leading white space, a sign, [0x] for
    base 16, then the longest run of digits; [None] is [NaN].  The value
    is the integer the digits denote (exact below 2^53). *)
Definition digit_value (radix : Z) (c : Ascii.ascii) : option Z :=
  let n := Z.of_nat (nat_of_ascii c) in
  let v := if (48 <=? n) && (n <=? 57) then Some (n - 48)
           else if (97 <=? n) && (n <=? 122) then Some (n - 87)
           else if (65 <=? n) && (n <=? 90) then Some (n - 55)
           else None in
  match v with
  | Some d => if d <? radix then Some d else None
  | None => None
  end.

Fixpoint digits_value (radix : Z) (acc : option Z) (s : string) : option Z :=
  match s with
  | EmptyString => acc
  | String c s' =>
      match digit_value radix c with
      | Some d => digits_value radix (Some (default 0 acc * radix + d)) s'
      | None => acc
      end
  end.

Definition parseInt (s : string) : option Z :=
  let s1 := trim_start s in
  let signed :=
    match s1 with
    | String "-" r => (-1, r)
    | String "+" r => (1, r)
    | _ => (1, s1)
    end in
  let based :=
    match signed.2 with
    | String "0" (String "x" r) => (16, r)
    | String "0" (String "X" r) => (16, r)
    | _ => (10, signed.2)
    end in
  (λ n, signed.1 * n) <$> digits_value based.1 None based.2.

(** [n || 1] and [x || null] on numbers: [NaN] and [0] are falsy. *)
Definition or_one (n : option Z) : Z :=
  match n with
  | Some q => if q =? 0 then 1 else q
  | None => 1
  end.

Definition number_or_null (x : option Q) : option Q :=
  match x with
  | Some q => if Qeq_bool q 0 then None else Some q
  | None => None
  end.

(** The fields of the form that [handleFormSubmit] reads.  The three
    sliders are range inputs, whose value is always a number: the fields
    hold what [parseInt] reads from them; [winePrice] holds the
    [parseFloat] result ([None] for [NaN]). *)
Record WineForm := mkForm {
  wineName : string;
  wineProducer : string;
  wineType : string;
  wineYear : string;
  wineRegion : string;
  wineGrape : string;
  boldnessInput : Z;
  tanninsInput : Z;
  acidityInput : Z;
  winePrice : option Q;
  wineQuantity : string;
  wineStore : string;
  wineNotes : string
}.

(** The object literal of [handleFormSubmit], for the id and the date
    that the mode of the form gives it. *)
Definition wineData (form : WineForm) (currentImage : option string)
    (i : string) (added : Z) : Wine :=
  mkWine i
         (wineName form)
         (or_null (wineProducer form))
         (wineType form)
         (or_null (wineYear form))
         (or_null (wineRegion form))
         (or_null (wineGrape form))
         (boldnessInput form)
         (tanninsInput form)
         (acidityInput form)
         (number_or_null (winePrice form))
         (or_one (parseInt (wineQuantity form)))
         (or_null (wineStore form))
         (or_null (wineNotes form))
         currentImage
         added.

(** [this.wines[index] = x] for [index] the first entry with id [k]. *)
Fixpoint replace_by_id (k : string) (x : Wine) (l : list Wine) : list Wine :=
  match l with
  | [] => []
  | w :: l' =>
      if String.eqb (id w) k then x :: l'
      else w :: replace_by_id k x l'
  end.

(** [editMode] and [currentImage] are the fields of [this] of these
    names.  In edit mode the record is only stored when [findIndex] finds
    the selected id, and then [find] gives its [addedAt]. *)
Definition handleFormSubmit (editMode : bool) (currentImage : option string)
    (form : WineForm) : Task unit :=
  s ← get;
  now ← date_now;
  (if editMode then
     match find_by_id id (currentWineId s) (wines s) with
     | Some old =>
         modify (set_wines
                   (replace_by_id (id old)
                      (wineData form currentImage (id old) (addedAt old))))
     | None => Ret tt
     end
   else
     modify (set_wines (cons (wineData form currentImage (pretty now) now))));;
  saveWines.

(** [updateStats()]: the number the page shows as its total. *)
Definition totalBottles (l : list Wine) : Z :=
  foldl (λ sum wine, sum + quantity wine) 0 l.

(** [hay.includes(needle)]. *)
Fixpoint includes (needle hay : string) : bool :=
  String.prefix needle hay
  || match hay with
     | EmptyString => false
     | String _ hay' => includes needle hay'
     end.

Section Search.

(** [String.prototype.toLowerCase] is the host's. *)
Variable toLowerCase : string → string.

Definition matches_query (searchQuery : string) (wine : Wine) : bool :=
  includes searchQuery (toLowerCase (name wine))
  || includes searchQuery (toLowerCase (default EmptyString (producer wine)))
  || includes searchQuery (toLowerCase (default EmptyString (region wine)))
  || includes searchQuery (toLowerCase (default EmptyString (grape wine))).

(** [handleSearch()]: the value it leaves in [this.filteredWines]. *)
Definition handleSearch (searchQuery : string) (wines : list Wine) : list Wine :=
  if truthy (Some searchQuery) then List.filter (matches_query searchQuery) wines
  else [].


End Search.

(** [escapeRegex(string)]: a backslash in front of each character of the
    class of regex operators. *)
Fixpoint char_in (c : Ascii.ascii) (class : string) : bool :=
  match class with
  | EmptyString => false
  | String d class' => Ascii.eqb c d || char_in c class'
  end.

Definition regex_special (c : Ascii.ascii) : bool :=
  char_in c ".*+?^${}()|[]\".

Fixpoint escapeRegex (s : string) : string :=
  match s with
  | EmptyString => EmptyString
  | String c s' =>
      if regex_special c then String "\" (String c (escapeRegex s'))
      else String c (escapeRegex s')
  end.
(** The [.qty-btn] buttons of the form ([bindEvents]): [value] is the
    text of the quantity field, the result the text the click leaves. *)
Definition qty_btn (action : string) (value : string) : string :=
  let val := or_one (parseInt value) in
  let val := if String.eqb action "increase" then val + 1 else val in
  let val := if String.eqb action "decrease" && (1 <? val) then val - 1 else val in
  pretty val.

(** The buttons that change a collection, with what the user entered
    ([bindEvents]). *)
Inductive PageAction :=
  | Detail (a : DetailAction)
  | Submit (editMode : bool) (currentImage : option string) (form : WineForm)
  | SkipArchive
  | ConfirmArchive (notesInput : string)
  | RestoreWine
  | DeleteArchived (confirmed : bool).

Definition on_action (rev : Revision) (a : PageAction) : Task unit :=
  match a with
  | Detail a => on_click a
  | Submit editMode currentImage form => handleFormSubmit editMode currentImage form
  | SkipArchive => skipArchiveAndDelete rev
  | ConfirmArchive notesInput => confirmArchive rev notesInput
  | RestoreWine => restoreWineFromArchive rev
  | DeleteArchived confirmed => deleteFromArchiveConfirm confirmed
  end.

(** ** The rest of the union-merge revision ([src/app.js] 158-166,
    247-255, 1185-1205) and the local revision ([src/app.js] 3017-3033,
    3963-3973) *)

Module Merge.
Section Merge.

Variable JSON_stringify : list Wine → string.

(** This revision removes the record without reading it first, and
    returns nothing. *)
Definition deleteWineFromFirebase (wineId : option string) : Task unit :=
  s ← get;
  if negb (remote_ready s) then Ret tt
  else try_catch (void (await (RemoveWine (template wineId)))) (λ _, Ret tt).

Definition saveWines : Task unit :=
  saveToLocalStorage JSON_stringify;;
  s ← get;
  if firebaseEnabled s then spawn saveWinesToFirebase else Ret tt.

(** Not [async] here: the remote delete is started and its promise
    dropped; the gate is not touched. *)
Definition deleteCurrentWine : Task unit :=
  s ← get;
  let wineIdToDelete := currentWineId s in
  modify (set_wines (remove_by_id id wineIdToDelete));;
  saveToLocalStorage JSON_stringify;;
  s' ← get;
  if firebaseEnabled s' then spawn (deleteWineFromFirebase wineIdToDelete)
  else Ret tt.

End Merge.
End Merge.

Module LocalOnly.
Section LocalOnly.

Variable JSON_stringify : list Wine → string.

(** [saveWines] of the local revision is the [saveToLocalStorage] of the
    union-merge revision, with a toast in each [catch]. *)
Definition saveWines : Task unit := saveToLocalStorage JSON_stringify.

Definition deleteCurrentWine : Task unit :=
  s ← get;
  modify (set_wines (remove_by_id id (currentWineId s)));;
  saveWines.

End LocalOnly.
End LocalOnly.

(** ** The keys of the recognition services
    ([src/app.js] 257-275, 294-326, 494-520, and the same methods at
     1591-1609, 1628-1660, 1872-1898 and 3035-3053, 3072-3104, 3272-3298) *)

(** The three key fields of [this], and [localStorage]. *)
Record Settings := mkSettings {
  apiKey : option string;
  googleApiKey : option string;
  googleSearchEngineId : option string;
  localStorage : gmap string string
}.

(** [config.js]; a page without it has [typeof CONFIG === 'undefined']. *)
Record Config := mkConfig {
  OPENAI_API_KEY : option string;
  GOOGLE_API_KEY : option string;
  GOOGLE_SEARCH_ENGINE_ID : option string
}.

(** [typeof CONFIG !== 'undefined' && CONFIG.K && !CONFIG.K.includes('YOUR')],
    with the key it then provides. *)
Definition configured (CONFIG : option Config) (field : Config → option string)
    : option string :=
  match CONFIG with
  | Some c =>
      match field c with
      | Some k => if truthy (Some k) && negb (includes "YOUR" k) then Some k else None
      | None => None
      end
  | None => None
  end.

Definition loadApiKey (CONFIG : option Config) (s : Settings) : Settings :=
  let fromStorage := localStorage s !! "openaiApiKey" in
  match (if truthy fromStorage then None else configured CONFIG OPENAI_API_KEY) with
  | Some k =>
      mkSettings (Some k) (googleApiKey s) (googleSearchEngineId s)
                 (<["openaiApiKey" := k]> (localStorage s))
  | None =>
      mkSettings fromStorage (googleApiKey s) (googleSearchEngineId s)
                 (localStorage s)
  end.

Definition saveApiKey (key : option string) (s : Settings) : Settings :=
  mkSettings key (googleApiKey s) (googleSearchEngineId s)
             (match key with
              | Some k =>
                  if truthy key then <["openaiApiKey" := k]> (localStorage s)
                  else delete "openaiApiKey" (localStorage s)
              | None => delete "openaiApiKey" (localStorage s)
              end).

Definition loadGoogleKeys (CONFIG : option Config) (s : Settings) : Settings :=
  let key := localStorage s !! "googleApiKey" in
  let cx := localStorage s !! "googleSearchEngineId" in
  let s1 :=
    match (if truthy key then None else configured CONFIG GOOGLE_API_KEY) with
    | Some k =>
        mkSettings (apiKey s) (Some k) cx (<["googleApiKey" := k]> (localStorage s))
    | None => mkSettings (apiKey s) key cx (localStorage s)
    end in
  match (if truthy (googleSearchEngineId s1) then None
         else configured CONFIG GOOGLE_SEARCH_ENGINE_ID) with
  | Some k =>
      mkSettings (apiKey s1) (googleApiKey s1) (Some k)
                 (<["googleSearchEngineId" := k]> (localStorage s1))
  | None => s1
  end.

Definition saveGoogleKeys (key searchEngineId : option string) (s : Settings)
    : Settings :=
  let store (name : string) (v : option string) (ls : gmap string string) :=
    match v with
    | Some k => if truthy v then <[name := k]> ls else delete name ls
    | None => delete name ls
    end in
  mkSettings (apiKey s) key searchEngineId
             (store "googleSearchEngineId" searchEngineId
                (store "googleApiKey" key (localStorage s))).

(** The mask that [updateApiKeyStatus] shows in place of a stored key. *)
Definition masked (s : string) : bool := String.prefix "••••" s.

(** [input] is the text of the key field. *)
Definition handleSaveApiKey (input : string) (s : Settings) : Settings :=
  let key := trim input in
  if truthy (Some key) && negb (masked key) then
    if String.prefix "sk-" key then saveApiKey (Some key) s else s
  else s.

Definition handleSaveGoogleKeys (apiKeyInput cxInput : string) (s : Settings)
    : Settings :=
  let key := trim apiKeyInput in
  let cx := trim cxInput in
  if truthy (Some key) && negb (masked key) && truthy (Some cx) && negb (masked cx)
  then saveGoogleKeys (Some key) (Some cx) s
  else s.

(** ** Reading the reply of the recognition service
    ([callChatGPTVision], [src/app.js] 856-862, 2234-2240, 3634-3640) *)

(** What follows [p] in [s], when [s] starts with [p]. *)
Fixpoint after_prefix (p s : string) : option string :=
  match p with
  | EmptyString => Some s
  | String a p' =>
      match s with
      | String b s' => if Ascii.eqb a b then after_prefix p' s' else None
      | EmptyString => None
      end
  end.

(** The text before and after the first run of three backticks. *)
Fixpoint split_fence (s : string) : option (string * string) :=
  match after_prefix "```" s with
  | Some rest => Some (EmptyString, rest)
  | None =>
      match s with
      | EmptyString => None
      | String c s' =>
          match split_fence s' with
          | Some (before, rest) => Some (String c before, rest)
          | None => None
          end
      end
  end.

(** [content.match(re)[1]] for the pattern that reads: three backticks,
    optionally the word json, any white space, the shortest text up to
    the next three backticks.  The match starts at the first fence; the
    word and the white space hold no backtick, so a closing fence is
    found from there or nowhere.  White space is the ASCII one. *)
Definition jsonMatch (content : string) : option string :=
  match split_fence content with
  | Some (_, rest) =>
      let untagged := default rest (after_prefix "json" rest) in
      match split_fence (trim_start untagged) with
      | Some (captured, _) => Some captured
      | None => None
      end
  | None => None
  end.

(** What [callChatGPTVision] returns for the reply text [content], or the
    [SyntaxError] of [JSON.parse]. *)
Definition parse_reply (content : string) : Completion JSON.value :=
  let jsonStr := default content (jsonMatch content) in
  match JSON.parse (trim jsonStr) with
  | Some data => Normal data
  | None => Abrupt SyntaxError
  end.

(** ** Vocabulary of the further properties *)

(** Newest first, with no two records added at the same instant. *)
Definition strictly_newest_first (l : list Wine) : Prop :=
  Sorted (λ a b, addedAt b < addedAt a) l.

Definition is_foreign (e : Event) : bool :=
  match e with
  | Foreign _ => true
  | _ => false
  end.

(** No other client's request reaches the store while the followed call
    is suspended. *)
Definition unrivalled (script : list Turn) : Prop :=
  Forall (λ t, Forall (λ e, is_foreign e = false) (happenings t)) script.

(** No request of the followed call is rejected. *)
Definition unfailing (script : list Turn) : Prop :=
  Forall (λ t, failure t = None) script.

Definition is_decimal (c : Ascii.ascii) : bool :=
  (48 <=? Z.of_nat (nat_of_ascii c)) && (Z.of_nat (nat_of_ascii c) <=? 57).

Fixpoint all_decimal (s : string) : bool :=
  match s with
  | EmptyString => true
  | String c s' => is_decimal c && all_decimal s'
  end.

(** The text a pattern matches when it is made of ordinary characters and
    of operators that each follow an escaping backslash; [None] when an
    operator stands unescaped. *)
Fixpoint literal_text (pattern : string) : option string :=
  match pattern with
  | EmptyString => Some EmptyString
  | String c rest =>
      if Ascii.eqb c "\" then
        match rest with
        | String d rest' =>
            if regex_special d then String d <$> literal_text rest' else None
        | EmptyString => None
        end
      else if regex_special c then None
      else String c <$> literal_text rest
  end.

(** The records of [local] whose id no record of [remote] has. *)
Definition local_only (remote local : list Wine) : list Wine :=
  List.filter (λ x, negb (existsb (λ y, String.eqb (id y) (id x)) remote)) local.

(** [map.get(k)] on the model of [Map]. *)
Definition map_get (k : string) (m : list (string * Wine)) : option Wine :=
  snd <$> List.find (λ kv, String.eqb kv.1 k) m.

(** A model of [Map] built by [set(w.id, w)] calls only. *)
Definition keyed (m : list (string * Wine)) : Prop :=
  Forall (λ kv, kv.1 = id kv.2) m ∧ NoDup (m.*1).

(** The world after [pushWineToFirebase] was started for each record in
    turn, each promise dropped. *)
Definition push_all (xs : list Wine) (w : World) : World :=
  foldl (λ w x, (run_sync (pushWineToFirebase x) w).2) w xs.

(** The two buttons of the key field ([bindEvents]). *)
Inductive KeyAction :=
  | SaveKey (input : string)       (* saveApiKey: handleSaveApiKey() *)
  | ClearKey.                      (* clearApiKey: saveApiKey(null) *)

Definition on_key_action (s : Settings) (a : KeyAction) : Settings :=
  match a with
  | SaveKey input => handleSaveApiKey input s
  | ClearKey => saveApiKey None s
  end.

(** The key in memory is the stored one, and the stored key, if any, has
    the form of a key of the service and is not the mask. *)
Definition well_formed_key (s : Settings) : Prop :=
  apiKey s = localStorage s !! "openaiApiKey" ∧
  ∀ k, localStorage s !! "openaiApiKey" = Some k →
       String.prefix "sk-" k = true ∧ masked k = false.

Fixpoint no_backtick (s : string) : bool :=
  match s with
  | EmptyString => true
  | String c s' => negb (Ascii.eqb c "`") && no_backtick s'
  end.

Fixpoint all_space (s : string) : bool :=
  match s with
  | EmptyString => true
  | String c s' => Ascii.is_space c && all_space s'
  end.

(** ** More sample data *)

(** A page that is not signed in. *)
Definition offline : World :=
  mkWorld (mkApp [blanc; reserva] [] (Some "100") None 0 None
                 false None false false None 5000)
          (winesObject [blanc; reserva]) ∅ 1000 [] [] [].

(** A form whose quantity field was stepped up once and down twice. *)
Definition sample_form : WineForm :=
  mkForm "Rioja" "Bodega" "red" "2019" EmptyString EmptyString 3 4 2 None
         (qty_btn "decrease" (qty_btn "decrease" (qty_btn "increase" "1")))
         EmptyString EmptyString.

(** A serializer that writes the images out, and a page whose cache has
    room for ten characters. *)
Definition image_stringify (l : list Wine) : string :=
  foldr (λ w s, id w +:+ default EmptyString (image w) +:+ s) EmptyString l.

Definition cramped : World :=
  mkWorld (mkApp [blanc; reserva] [] (Some "100") None 0 None
                 false None false false (Some "old") 10)
          ∅ ∅ 1000 [] [] [].

(** * Properties *)

(** ** How followed calls compose *)

Lemma exec_bind {A B} (t : Task A) (f : A → Task B) script w :
  exec (bind t f) script w =
  match result (exec t script w) with
  | Normal a => exec (f a) (unread (exec t script w)) (world (exec t script w))
  | Abrupt e =>
      mkOutcome (Abrupt e) (world (exec t script w)) (unread (exec t script w))
  end.
Proof. revert B f script w. induction t; intros; cbn; auto. Qed.

Lemma exec_try_catch {A} (t : Task A) (h : Error → Task A) script w :
  exec (try_catch t h) script w =
  match result (exec t script w) with
  | Normal a => exec t script w
  | Abrupt e => exec (h e) (unread (exec t script w)) (world (exec t script w))
  end.
Proof. revert h script w. induction t; intros; cbn; auto. Qed.

Lemma inert_bind {A B} (t : Task A) (f : A → Task B) :
  inert t → (∀ a, inert (f a)) → inert (bind t f).
Proof. induction 1; intros Hf; cbn; try constructor; auto. Qed.

Lemma inert_try_catch {A} (t : Task A) h :
  inert t → (∀ e, inert (h e)) → inert (try_catch t h).
Proof. induction 1; intros Hf; cbn; try constructor; auto. Qed.

Lemma inert_await r : inert (await r).
Proof. constructor. intros [v|e]; constructor. Qed.

Lemma inert_get : inert get.
Proof. constructor. intros s. constructor. Qed.

Lemma inert_deleteWineFromFirebase i : inert (deleteWineFromFirebase i).
Proof.
  unfold deleteWineFromFirebase.
  apply inert_bind; [apply inert_get|intros s].
  destruct (negb (remote_ready s)); [constructor|].
  apply inert_try_catch; [|constructor].
  apply inert_bind; [apply inert_await|intros v].
  destruct (snapshot_exists v); [|constructor].
  apply inert_bind; [apply inert_await|intros _].
  apply inert_bind; [apply inert_await|intros _]. constructor.
Qed.

(** ** The page between events *)

(** With no other call in flight, an event can neither park a request,
    arm a timer, touch the gate nor write to the log. *)
Lemma dispatch_idle w e :
  idle w →
  idle (dispatch w e) ∧
  syncInProgress (app (dispatch w e)) = syncInProgress (app w) ∧
  calls (dispatch w e) = calls w.
Proof.
  intros [Hp Ht]. unfold idle. destruct e as [data|data|ms|i fail|r]; cbn.
  - destruct (syncInProgress (app w)) eqn:E; cbn; auto.
  - destruct (syncInProgress (app w)) eqn:E; cbn; auto.
  - unfold elapse. rewrite Ht. cbn. auto.
  - rewrite Hp. cbn. auto.
  - destruct r; cbn; auto.
Qed.

Lemma run_events_cons e es w :
  run_events (e :: es) w = run_events es (dispatch w e).
Proof. reflexivity. Qed.

Lemma run_events_idle es w :
  idle w →
  idle (run_events es w) ∧
  syncInProgress (app (run_events es w)) = syncInProgress (app w) ∧
  calls (run_events es w) = calls w.
Proof.
  revert w. induction es as [|e es IH]; intros w Hw; [cbn; auto|].
  rewrite run_events_cons.
  destruct (dispatch_idle w e Hw) as (Hi & Hs & Hc).
  destruct (IH _ Hi) as (Hi' & Hs' & Hc').
  split; [exact Hi'|]. split; congruence.
Qed.

(** While the gate is set and nothing else is in flight, events leave the
    page as it is. *)
Lemma dispatch_gated w e :
  idle w → syncInProgress (app w) = true → app (dispatch w e) = app w.
Proof.
  intros [Hp Ht] Hg. destruct e as [data|data|ms|i fail|r]; cbn.
  - rewrite Hg. reflexivity.
  - rewrite Hg. reflexivity.
  - unfold elapse. rewrite Ht. reflexivity.
  - rewrite Hp. reflexivity.
  - destruct r; reflexivity.
Qed.

Lemma run_events_gated es w :
  idle w → syncInProgress (app w) = true → app (run_events es w) = app w.
Proof.
  revert w. induction es as [|e es IH]; intros w Hw Hg; [cbn; auto|].
  rewrite run_events_cons.
  destruct (dispatch_idle w e Hw) as (Hi & Hs & Hc).
  rewrite IH; [apply dispatch_gated; auto|auto|congruence].
Qed.

Lemma serve_frame r fail w :
  app (serve r fail w).2 = app w ∧
  pending (serve r fail w).2 = pending w ∧
  timers (serve r fail w).2 = timers w ∧
  clock (serve r fail w).2 = clock w ∧
  calls (serve r fail w).2 = Served r (serve r fail w).1 (clock w) :: calls w.
Proof. destruct fail as [e|]; [cbn; auto|]. destruct r; cbn; auto. Qed.

(** One [await] taken with nothing else in flight. *)
Lemma settle_turn_idle r script w :
  idle w →
  idle (settle_turn r script w).2 ∧
  syncInProgress (app (settle_turn r script w).2) = syncInProgress (app w) ∧
  calls (settle_turn r script w).2
  = Served r (settle_turn r script w).1 (clock (settle_turn r script w).2)
    :: Issued r (syncInProgress (app w)) (clock w) :: calls w.
Proof.
  intros Hw. unfold settle_turn.
  set (w0 := log_issue r w).
  assert (Hw0 : idle w0) by exact Hw.
  destruct (run_events_idle (happenings (hd quiet script)) w0 Hw0) as ([Hp Ht] & Hg & Hc).
  destruct (serve_frame r (failure (hd quiet script))
              (run_events (happenings (hd quiet script)) w0))
    as (Sa & Sp & St & Sk & Sc).
  split; [split; congruence|]. split; [rewrite Sa; exact Hg|].
  rewrite Sc, Sk, Hc. reflexivity.
Qed.

(** One [await] taken with the gate set and nothing else in flight. *)
Lemma settle_turn_gated r script w :
  idle w → syncInProgress (app w) = true →
  app (settle_turn r script w).2 = app w ∧
  idle (settle_turn r script w).2 ∧
  existsb issued_open (calls (settle_turn r script w).2)
  = existsb issued_open (calls w).
Proof.
  intros Hw Hg. unfold settle_turn.
  set (w0 := log_issue r w).
  assert (Hw0 : idle w0) by exact Hw.
  assert (Hg0 : syncInProgress (app w0) = true) by exact Hg.
  destruct (run_events_idle (happenings (hd quiet script)) w0 Hw0) as ([Hp Ht] & _ & Hc).
  pose proof (run_events_gated (happenings (hd quiet script)) w0 Hw0 Hg0) as Ha.
  destruct (serve_frame r (failure (hd quiet script))
              (run_events (happenings (hd quiet script)) w0))
    as (Sa & Sp & St & _ & Sc).
  split; [rewrite Sa, Ha; reflexivity|].
  split; [split; congruence|].
  rewrite Sc, Hc. unfold w0, log_issue, log. cbn. rewrite Hg.
  rewrite andb_false_r. reflexivity.
Qed.

(** A body that only reads and talks to the store, followed with the gate
    set: whatever reaches the page meanwhile, the page stays as it is. *)
Lemma exec_inert {A} (t : Task A) script w :
  inert t → idle w → syncInProgress (app w) = true →
  app (world (exec t script w)) = app w ∧
  idle (world (exec t script w)) ∧
  existsb issued_open (calls (world (exec t script w)))
  = existsb issued_open (calls w) ∧
  ∃ l, calls (world (exec t script w)) = l ++ calls w.
Proof.
  intros Ht. revert script w.
  induction Ht as [a|e|k _ IH|k _ IH|r k _ IH]; intros script w Hw Hg;
    cbn -[settle_turn]; auto.
  1, 2: repeat split; auto; try apply Hw; by exists [].
  destruct (settle_turn_gated r script w Hw Hg) as (Ha & Hi & Hc).
  destruct (settle_turn_idle r script w Hw) as (_ & _ & Hl).
  destruct (IH (settle_turn r script w).1 (tl script) (settle_turn r script w).2)
    as (Ha' & Hi' & Hc' & l & Hl'); [exact Hi|congruence|].
  split; [congruence|]. split; [exact Hi'|]. split; [congruence|].
  exists (l ++ [Served r (settle_turn r script w).1 (clock (settle_turn r script w).2);
                Issued r (syncInProgress (app w)) (clock w)]).
  rewrite Hl', Hl, <- app_assoc. reflexivity.
Qed.

Lemma deleteWineFromFirebase_returns i script w :
  ∃ b, result (exec (deleteWineFromFirebase i) script w) = Normal b.
Proof.
  unfold deleteWineFromFirebase. cbn [mbind task_bind bind get exec].
  destruct (negb (remote_ready (app w))); [by eexists|].
  rewrite exec_try_catch.
  match goal with |- context [result (exec ?t script w)] =>
    destruct (result (exec t script w)) as [b|e] eqn:E end.
  - eexists. exact E.
  - by eexists.
Qed.


Lemma deleteCurrentWine_outcome rev script w :
  idle w →
  let o := exec (deleteCurrentWine rev) script w in
  app (world o) = deleted_page (app w) ∧
  pending (world o) = [] ∧
  timers (world o) =
    match rev with
    | LoginGated => []
    | CloudFunctions => [(clock (world o) + 2000, ResetSyncFlag)]
    end ∧
  result o =
    match rev with
    | LoginGated => Abrupt (TypeError "this.saveToLocalStorage is not a function")
    | CloudFunctions => Normal tt
    end ∧
  existsb issued_open (calls (world o)) = existsb issued_open (calls w) ∧
  ∃ l, calls (world o) = l ++ calls w.
Proof.
  intros [Hp Ht]. unfold deleteCurrentWine.
  destruct rev; cbn -[deleteWineFromFirebase].
  - repeat split; auto. by exists [].
  - set (w1 := with_app _ (with_app _ w)).
    assert (Hi1 : idle w1) by (split; assumption).
    assert (Hg1 : syncInProgress (app w1) = true) by reflexivity.
    destruct (firebaseEnabled (app w)).
    + unfold void, mbind, task_bind. rewrite !exec_bind.
      destruct (deleteWineFromFirebase_returns (currentWineId (app w)) script w1) as [b Hb].
      destruct (exec_inert _ script w1 (inert_deleteWineFromFirebase (currentWineId (app w))) Hi1 Hg1)
        as (Ha & [Hp' Ht'] & Hc & l & Hl).
      rewrite Hb. cbn -[deleteWineFromFirebase]. rewrite Ht', Ha, Hp', Hc.
      repeat split; auto. exists l. exact Hl.
    + cbn. rewrite Ht. cbn. repeat split; auto. by exists [].
Qed.

(** ** Array helpers *)

Lemma remove_by_id_absent {A} (key_of : A → string) k l :
  ¬ In k (List.map key_of (remove_by_id key_of (Some k) l)).
Proof.
  unfold remove_by_id. rewrite in_map_iff. intros (x & Hk & Hx).
  apply filter_In in Hx as [_ Hx]. apply negb_true_iff in Hx.
  apply String.eqb_neq in Hx. contradiction.
Qed.

Lemma find_by_id_some {A} (key_of : A → string) key l x :
  find_by_id key_of key l = Some x → key = Some (key_of x) ∧ In x l.
Proof.
  destruct key as [k|]; [|discriminate]. cbn. intros H.
  apply find_some in H as [Hin Hk]. apply String.eqb_eq in Hk.
  split; [congruence|exact Hin].
Qed.

Lemma assign_quantity_ids k q l :
  List.map id (assign_quantity k q l) = List.map id l.
Proof.
  induction l as [|w l IH]; cbn; [reflexivity|].
  destruct (String.eqb (id w) k); cbn; [reflexivity|]. by rewrite IH.
Qed.

Lemma assign_quantity_stocked k q l :
  1 ≤ q → stocked l → stocked (assign_quantity k q l).
Proof.
  intros Hq. induction 1 as [|w l Hw Hl IH]; cbn; [constructor|].
  destruct (String.eqb (id w) k); constructor; auto.
Qed.

(** ** The gate after a delete *)

(** Once the delete has armed its timer, the page stays as it is until
    the timer comes due. *)
Lemma gate_holds_until_timer es w due :
  syncInProgress (app w) = true →
  pending w = [] →
  timers w = [(due, ResetSyncFlag)] →
  clock w + Z.of_N (elapsed es) < due →
  app (run_events es w) = app w.
Proof.
  revert w. induction es as [|e es IH]; intros w Hg Hp Ht Hd; [reflexivity|].
  rewrite run_events_cons.
  assert (Hstep : app (dispatch w e) = app w ∧ pending (dispatch w e) = [] ∧
                  timers (dispatch w e) = [(due, ResetSyncFlag)] ∧
                  clock (dispatch w e) + Z.of_N (elapsed es) < due).
  { destruct e as [data|data|ms|i fail|r];
      [change (elapsed (_ :: es)) with (elapsed es) in Hd
      |change (elapsed (_ :: es)) with (elapsed es) in Hd
      |change (elapsed (_ :: es)) with (ms + elapsed es)%N in Hd
      |change (elapsed (_ :: es)) with (elapsed es) in Hd
      |change (elapsed (_ :: es)) with (elapsed es) in Hd]; cbn.
    - rewrite Hg. cbn. auto.
    - rewrite Hg. cbn. auto.
    - unfold elapse. rewrite Ht. cbn.
      assert (Hlt : (due <=? clock w + Z.of_N ms) = false) by (apply Z.leb_gt; lia).
      rewrite Hlt. cbn. repeat split; auto. lia.
    - rewrite Hp. cbn. auto.
    - destruct r; cbn; auto. }
  destruct Hstep as (Ha & Hp' & Ht' & Hd').
  rewrite IH; [exact Ha|congruence|exact Hp'|exact Ht'|exact Hd'].
Qed.

(** ** Quantity *)

(** [saveWines()] leaves the collection alone. *)
Lemma saveWines_wines w : wines (app (run_sync saveWines w).2) = wines (app w).
Proof.
  unfold saveWines, saveWinesToFirebase. cbn.
  destruct (firebaseEnabled (app w)) eqn:E; cbn; [|reflexivity].
  destruct (remote_ready (app w)); reflexivity.
Qed.

Lemma updateDetailQuantity_wines change w :
  wines (app (run_sync (updateDetailQuantity change) w).2) =
  match find_by_id id (currentWineId (app w)) (wines (app w)) with
  | Some wine =>
      if quantity wine + change <? 1 then wines (app w)
      else assign_quantity (id wine) (quantity wine + change) (wines (app w))
  | None => wines (app w)
  end.
Proof.
  unfold updateDetailQuantity. cbn -[saveWines].
  destruct (find_by_id id (currentWineId (app w)) (wines (app w))) as [wine|];
    [|reflexivity].
  destruct (quantity wine + change <? 1); [reflexivity|].
  cbn -[saveWines]. unfold mbind, task_bind. cbn -[saveWines].
  apply saveWines_wines.
Qed.

Lemma click_keeps_stock w a :
  stocked (wines (app w)) →
  stocked (wines (app (click w a))) ∧
  List.map id (wines (app (click w a))) = List.map id (wines (app w)).
Proof.
  intros Hs. unfold click.
  destruct a as [| |i]; cbn [on_click].
  - rewrite updateDetailQuantity_wines.
    destruct (find_by_id _ _ _) as [wine|]; [|auto].
    destruct (quantity wine + 1 <? 1) eqn:E; [auto|]. apply Z.ltb_ge in E.
    split; [by apply assign_quantity_stocked|apply assign_quantity_ids].
  - rewrite updateDetailQuantity_wines.
    destruct (find_by_id _ _ _) as [wine|]; [|auto].
    destruct (quantity wine + -1 <? 1) eqn:E; [auto|]. apply Z.ltb_ge in E.
    split; [by apply assign_quantity_stocked|apply assign_quantity_ids].
  - unfold openDetailModal. cbn.
    destruct (List.find _ _); cbn; auto.
Qed.

(** C1: starting from a collection in which every record has quantity
    >= 1, after any sequence of clicks on the +1 and -1 buttons of the
    detail view (with any changes of the selected record in between)
    every record still has quantity >= 1 and the collection holds the
    same records in the same order; and a -1 on a record whose quantity it
    would take below 1 changes nothing at all. *)
Theorem quantity_stays_positive (w : World) (actions : list DetailAction) :
  stocked (wines (app w)) →
  stocked (wines (app (foldl click w actions))) ∧
  List.map id (wines (app (foldl click w actions))) = List.map id (wines (app w)) ∧
  (∀ v wine,
     find_by_id id (currentWineId (app v)) (wines (app v)) = Some wine →
     quantity wine - 1 < 1 →
     click v Decrease = v).
Proof.
  intros Hs. split; [|split].
  - revert w Hs. induction actions as [|a actions IH]; intros w Hs; [exact Hs|].
    cbn. apply IH. by apply click_keeps_stock.
  - revert w Hs. induction actions as [|a actions IH]; intros w Hs; [reflexivity|].
    cbn. destruct (click_keeps_stock w a Hs) as [Hs' Hi].
    rewrite IH; auto.
  - intros v wine Hf Hq. unfold click, on_click, updateDetailQuantity. cbn.
    rewrite Hf. assert (E : (quantity wine + -1 <? 1) = true) by (apply Z.ltb_lt; lia).
    rewrite E. reflexivity.
Qed.

Lemma quantity_stays_positive_witness :
  stocked (wines (app (foldl click online [Decrease; Increase; OpenCard "200"; Decrease; Decrease]))).
Proof.
  apply (quantity_stays_positive online [Decrease; Increase; OpenCard "200"; Decrease; Decrease]).
  repeat constructor; cbn; lia.
Defined.

(** ** Echo suppression *)

(** C2: a delete of the selected record X sets the gate; while the gate
    is set the wines listener returns without touching anything; and
    whatever reaches the page while the delete is suspended (snapshots
    that still hold X included) and during the 2000 ms after it returned,
    the collection is the one the delete left, without X. *)
Theorem echo_cannot_resurrect (rev : Revision) (w : World) (X : string)
    (script : list Turn) (later : list Event) :
  currentWineId (app w) = Some X →
  idle w →
  (elapsed later < 2000)%N →
  let deleted := world (exec (deleteCurrentWine rev) script w) in
  syncInProgress (app deleted) = true ∧
  (∀ v data, syncInProgress (app v) = true → dispatch v (WinesValue data) = v) ∧
  wines (app (run_events later deleted)) = remove_by_id id (Some X) (wines (app w)) ∧
  ¬ In X (List.map id (wines (app (run_events later deleted)))).
Proof.
  intros HX Hw Hlater deleted.
  destruct (deleteCurrentWine_outcome rev script w Hw) as (Ha & Hp & Ht & _ & _ & _).
  fold deleted in Ha, Hp, Ht.
  assert (Hg : syncInProgress (app deleted) = true) by (rewrite Ha; reflexivity).
  assert (Hl : app (run_events later deleted) = app deleted).
  { destruct rev.
    - apply run_events_gated; [split; assumption|exact Hg].
    - eapply gate_holds_until_timer; eauto. lia. }
  split; [exact Hg|]. split.
  - intros v data Hv. cbn. rewrite Hv. reflexivity.
  - rewrite Hl, Ha. cbn. rewrite HX. split; [reflexivity|].
    apply remove_by_id_absent.
Qed.

Lemma echo_cannot_resurrect_witness :
  ¬ In "100"
    (List.map id
       (wines (app (run_events
                      [WinesValue (Some [blanc; reserva]); Elapse 1999;
                       WinesValue (Some [blanc; reserva])]
                      (world (exec (deleteCurrentWine CloudFunctions)
                                [mkTurn [WinesValue (Some [blanc; reserva])] None;
                                 mkTurn [WinesValue (Some [blanc; reserva])] None;
                                 mkTurn [WinesValue (Some [blanc; reserva])] None]
                                online)))))).
Proof.
  apply (echo_cannot_resurrect CloudFunctions online "100").
  - reflexivity.
  - split; reflexivity.
  - reflexivity.
Defined.

(** ** Gate timing *)

Lemma saveWinesToFirebase_outcome script w :
  idle w → remote_ready (app w) = true →
  let o := exec saveWinesToFirebase script w in
  ∃ v,
    calls (world o)
    = Served (SetWines (winesObject (wines (app w)))) v (clock (world o))
      :: Issued (SetWines (winesObject (wines (app w)))) true (clock w)
      :: calls w ∧
    syncInProgress (app (world o)) = false ∧
    timers (world o) = [] ∧
    result o = Normal tt.
Proof.
  intros Hw Hr. unfold saveWinesToFirebase. cbn -[settle_turn winesObject].
  rewrite Hr. cbn -[settle_turn winesObject].
  set (w1 := with_app (set_syncInProgress true) w).
  assert (Hw1 : idle w1) by exact Hw.
  destruct (settle_turn_idle (SetWines (winesObject (wines (app w)))) script w1 Hw1)
    as ([Hp Ht] & Hg & Hc).
  exists (settle_turn (SetWines (winesObject (wines (app w)))) script w1).1.
  destruct (settle_turn (SetWines (winesObject (wines (app w)))) script w1).1 as [x|e];
    cbn -[settle_turn winesObject]; rewrite Hc, Ht; auto.
Qed.

(** The point writes: a guarded [set] or [remove] whose failure is only
    logged. *)
Lemma guarded_write_outcome r script w :
  idle w →
  let o := exec (try_catch (void (await r)) (λ _, Ret tt)) script w in
  world o = (settle_turn r script w).2 ∧
  unread o = tl script ∧
  result o = Normal tt.
Proof.
  intros Hw. cbn -[settle_turn].
  destruct (settle_turn r script w).1; cbn -[settle_turn]; auto.
Qed.

Lemma pushWineToFirebase_outcome x script w :
  idle w → remote_ready (app w) = true →
  passes_gate_by (pushWineToFirebase x) (SetWine (id x) x) script w.
Proof.
  intros Hw Hr. unfold passes_gate_by, pushWineToFirebase.
  cbn -[settle_turn try_catch void await].
  rewrite Hr. cbn -[settle_turn try_catch void await].
  destruct (guarded_write_outcome (SetWine (id x) x) script w Hw) as (Ho & _ & _).
  rewrite Ho.
  destruct (settle_turn_idle (SetWine (id x) x) script w Hw) as ([Hp Ht] & Hg & Hc).
  eexists. split; [exact Hc|]. split; [exact Hg|exact Ht].
Qed.

Lemma pushToArchive_gate a script w :
  idle w → remote_ready (app w) = true →
  passes_gate_by (pushToArchive a) (SetArchive (id (base a)) a) script w.
Proof.
  intros Hw Hr. unfold passes_gate_by, pushToArchive.
  cbn -[settle_turn try_catch void await].
  set (w1 := with_app (set_archive (cons a)) w).
  assert (Hw1 : idle w1) by exact Hw.
  change (remote_ready (set_archive (cons a) (app w))) with (remote_ready (app w)).
  rewrite Hr.
  destruct (guarded_write_outcome (SetArchive (id (base a)) a) script w1 Hw1)
    as (Ho & _ & _).
  rewrite Ho.
  destruct (settle_turn_idle (SetArchive (id (base a)) a) script w1 Hw1)
    as ([Hp Ht] & Hg & Hc).
  eexists. split; [exact Hc|]. split; [exact Hg|exact Ht].
Qed.

Lemma deleteFromArchive_gate i script w :
  idle w → remote_ready (app w) = true →
  passes_gate_by (deleteFromArchive i) (RemoveArchive (template i)) script w.
Proof.
  intros Hw Hr. unfold passes_gate_by, deleteFromArchive.
  cbn -[settle_turn try_catch void await].
  set (w1 := with_app _ w).
  assert (Hw1 : idle w1) by exact Hw.
  change (remote_ready (set_archive _ (app w))) with (remote_ready (app w)).
  rewrite Hr.
  destruct (guarded_write_outcome (RemoveArchive (template i)) script w1 Hw1)
    as (Ho & _ & _).
  rewrite Ho.
  destruct (settle_turn_idle (RemoveArchive (template i)) script w1 Hw1)
    as ([Hp Ht] & Hg & Hc).
  eexists. split; [exact Hc|]. split; [exact Hg|exact Ht].
Qed.

(** C3, amended: the delete path issues its remote calls with the gate
    set, returns with the gate still set and with one timer armed 2000 ms
    ahead, and only that timer clears the gate; the bulk save issues its
    write with the gate set but clears the gate in the turn in which the
    write settles, with no timer; the point writes [pushWineToFirebase],
    [pushToArchive] and [deleteFromArchive] issue their request with the
    gate as they find it and leave it so. *)
Theorem gate_timing (w : World) (script : list Turn) :
  idle w →
  existsb issued_open (calls w) = false →
  (let o := exec (deleteCurrentWine CloudFunctions) script w in
   gate_discipline o ∧
   timers (world o) = [(clock (world o) + 2000, ResetSyncFlag)] ∧
   (∀ later, (elapsed later < 2000)%N →
      syncInProgress (app (run_events later (world o))) = true) ∧
   syncInProgress (app (dispatch (world o) (Elapse 2000))) = false) ∧
  (remote_ready (app w) = true →
   let o := exec saveWinesToFirebase script w in
   ∃ v,
     calls (world o)
     = Served (SetWines (winesObject (wines (app w)))) v (clock (world o))
       :: Issued (SetWines (winesObject (wines (app w)))) true (clock w)
       :: calls w ∧
     syncInProgress (app (world o)) = false ∧
     timers (world o) = []) ∧
  (remote_ready (app w) = true →
   (∀ x, passes_gate_by (pushWineToFirebase x) (SetWine (id x) x) script w) ∧
   (∀ a, passes_gate_by (pushToArchive a) (SetArchive (id (base a)) a) script w) ∧
   (∀ i, passes_gate_by (deleteFromArchive i) (RemoveArchive (template i)) script w)).
Proof.
  intros Hw Hc0. split; [|split].
  - destruct (deleteCurrentWine_outcome CloudFunctions script w Hw)
      as (Ha & Hp & Ht & _ & Hc & _).
    cbn zeta.
    set (o := exec (deleteCurrentWine CloudFunctions) script w) in *.
    assert (Hg : syncInProgress (app (world o)) = true) by (rewrite Ha; reflexivity).
    split; [split; [congruence|auto]|]. split; [exact Ht|]. split.
    + intros later Hl.
      rewrite (gate_holds_until_timer later (world o) (clock (world o) + 2000));
        auto. lia.
    + unfold dispatch, elapse. rewrite Ht.
      change (Z.of_N 2000) with 2000. cbn [List.filter fst snd].
      rewrite Z.leb_refl. reflexivity.
  - intros Hr. destruct (saveWinesToFirebase_outcome script w Hw Hr)
      as (v & Hc & Hg & Ht & _). exists v. auto.
  - intros Hr. split; [|split]; intros x.
    + by apply pushWineToFirebase_outcome.
    + by apply pushToArchive_gate.
    + by apply deleteFromArchive_gate.
Qed.

Lemma gate_timing_witness :
  syncInProgress
    (app (run_events [Elapse 1500; WinesValue (Some [blanc; reserva])]
            (world (exec (deleteCurrentWine CloudFunctions) [] online)))) = true.
Proof.
  apply (gate_timing online []).
  - split; reflexivity.
  - reflexivity.
  - reflexivity.
Defined.

(** The bulk save breaks the discipline the claim states: its write is
    served and the gate is clear when the call returns. *)
Lemma save_clears_gate_at_once :
  ¬ gate_discipline (exec saveWinesToFirebase [] online).
Proof.
  intros [_ H]. specialize (H eq_refl). vm_compute in H. discriminate H.
Qed.

(** ** The remote point delete *)

Lemma settle_turn_fulfilled r script w :
  failure (hd quiet script) = None →
  ∃ v, (settle_turn r script w).1 = Fulfilled v.
Proof.
  intros Hf. unfold settle_turn, serve. rewrite Hf.
  destruct (apply_request r _) as [v w']. by exists v.
Qed.

Lemma script_head (P : Turn → Prop) script :
  P quiet → Forall P script → P (hd quiet script) ∧ Forall P (tl script).
Proof. intros Hq Hs. destruct Hs; cbn; auto. Qed.

(** Whenever the store is reachable and no request is rejected, the
    result is [true]: what the verification read returns plays no part. *)
Lemma deleteWineFromFirebase_true i script w :
  remote_ready (app w) = true →
  Forall (λ t, failure t = None) script →
  result (exec (deleteWineFromFirebase i) script w) = Normal true.
Proof.
  intros Hr Hs. unfold deleteWineFromFirebase. cbn -[settle_turn].
  rewrite Hr. cbn -[settle_turn].
  destruct (script_head (λ t, failure t = None) script eq_refl Hs) as [H1 Hs1].
  destruct (settle_turn_fulfilled (OnceWine (template i)) script w H1) as [v1 E1].
  rewrite E1. cbn -[settle_turn].
  destruct (snapshot_exists v1); cbn -[settle_turn]; [|reflexivity].
  destruct (script_head (λ t, failure t = None) (tl script) eq_refl Hs1) as [H2 Hs2].
  match goal with |- context [settle_turn (RemoveWine ?j) ?sc ?w'] =>
    destruct (settle_turn_fulfilled (RemoveWine j) sc w' H2) as [v2 E2] end.
  rewrite E2. cbn -[settle_turn].
  destruct (script_head (λ t, failure t = None) (tl (tl script)) eq_refl Hs2) as [H3 _].
  match goal with |- context [settle_turn (OnceWine ?j) (tl (tl script)) ?w'] =>
    destruct (settle_turn_fulfilled (OnceWine j) (tl (tl script)) w' H3) as [v3 E3] end.
  rewrite E3. reflexivity.
Qed.

(** C6, on the failing input: the record is in the store, the delete is
    served, another client writes the record back before the verification
    read is served.  The read finds the record, the store still holds it
    when the call returns, and the call returns [true]. *)
Theorem delete_reports_unverified_success :
  let o := exec (deleteWineFromFirebase (Some "100"))
                [quiet; quiet; mkTurn [Foreign (SetWine "100" reserva)] None]
                online in
  result o = Normal true ∧
  hd_error (calls (world o))
  = Some (Served (OnceWine "100") (Fulfilled (Snapshot (Some reserva))) 1000) ∧
  remote_wines (world o) !! "100" = Some reserva.
Proof. vm_compute. auto. Qed.

(** ** The local cache *)

(** C5, amended: [loadWines] leaves the collection as it is when nothing
    (or the empty string) is cached, installs the parsed value when the
    cached text is JSON, and otherwise ends with the [SyntaxError] of
    [JSON.parse], which it does not catch. *)
Theorem loadWines_outcome (stored : option string) (wines : JSON.value) :
  match stored with
  | None => loadWines stored wines = Normal wines
  | Some text =>
      if String.eqb text EmptyString then loadWines stored wines = Normal wines
      else
        match JSON.parse text with
        | Some parsed => loadWines stored wines = Normal parsed
        | None => loadWines stored wines = Abrupt SyntaxError
        end
  end.
Proof.
  destruct stored as [text|]; [|reflexivity].
  unfold loadWines. cbn -[JSON.parse].
  destruct (String.eqb text EmptyString); cbn -[JSON.parse]; [reflexivity|].
  destruct (JSON.parse text); reflexivity.
Qed.

(** At startup, with a cache whose text is cut short, [loadWines] throws. *)
Lemma corrupt_cache_throws :
  init_wines (Some "[{") = Abrupt SyntaxError.
Proof. reflexivity. Qed.

(** ** Archive and restore *)



(** With nothing else in flight, an event that is no archive snapshot
    can change the page only in its list of wines, and one that is no
    snapshot at all leaves the page alone. *)
Lemma dispatch_archive_kept w e :
  idle w → is_archive_delivery e = false →
  forget_wines (app (dispatch w e)) = forget_wines (app w).
Proof.
  intros [Hp Ht] He. destruct e as [data|data|ms|i fail|r]; cbn.
  - destruct (syncInProgress (app w)); reflexivity.
  - discriminate He.
  - unfold elapse. rewrite Ht. reflexivity.
  - rewrite Hp. reflexivity.
  - destruct r; reflexivity.
Qed.

Lemma dispatch_undelivered w e :
  idle w → is_delivery e = false → app (dispatch w e) = app w.
Proof.
  intros [Hp Ht] He. destruct e as [data|data|ms|i fail|r]; cbn;
    try discriminate He.
  - unfold elapse. rewrite Ht. reflexivity.
  - rewrite Hp. reflexivity.
  - destruct r; reflexivity.
Qed.

Lemma run_events_archive_kept es w :
  idle w → Forall (λ e, is_archive_delivery e = false) es →
  forget_wines (app (run_events es w)) = forget_wines (app w).
Proof.
  revert w. induction es as [|e es IH]; intros w Hw Hes; [reflexivity|].
  rewrite run_events_cons. inversion Hes as [|? ? He Hes']; subst.
  destruct (dispatch_idle w e Hw) as (Hi & _ & _).
  rewrite IH; [by apply dispatch_archive_kept|exact Hi|exact Hes'].
Qed.

Lemma run_events_undelivered es w :
  idle w → Forall (λ e, is_delivery e = false) es →
  app (run_events es w) = app w.
Proof.
  revert w. induction es as [|e es IH]; intros w Hw Hes; [reflexivity|].
  rewrite run_events_cons. inversion Hes as [|? ? He Hes']; subst.
  destruct (dispatch_idle w e Hw) as (Hi & _ & _).
  rewrite IH; [by apply dispatch_undelivered|exact Hi|exact Hes'].
Qed.

Lemma settle_turn_archive_kept r script w :
  idle w → archive_undisturbed script →
  forget_wines (app (settle_turn r script w).2) = forget_wines (app w).
Proof.
  intros Hw Hs. unfold settle_turn.
  destruct (script_head
              (λ t, Forall (λ e, is_archive_delivery e = false) (happenings t))
              script (List.Forall_nil _) Hs) as [Hh _].
  destruct (serve_frame r (failure (hd quiet script))
              (run_events (happenings (hd quiet script)) (log_issue r w)))
    as (Sa & _).
  rewrite Sa. by apply (run_events_archive_kept _ (log_issue r w)).
Qed.

Lemma settle_turn_undisturbed r script w :
  idle w → undisturbed script →
  app (settle_turn r script w).2 = app w.
Proof.
  intros Hw Hs. unfold settle_turn.
  destruct (script_head
              (λ t, Forall (λ e, is_delivery e = false) (happenings t))
              script (List.Forall_nil _) Hs) as [Hh _].
  destruct (serve_frame r (failure (hd quiet script))
              (run_events (happenings (hd quiet script)) (log_issue r w)))
    as (Sa & _).
  rewrite Sa. by apply (run_events_undelivered _ (log_issue r w)).
Qed.

Lemma pushToArchive_outcome a script w :
  idle w → archive_undisturbed script →
  let o := exec (pushToArchive a) script w in
  result o = Normal tt ∧
  idle (world o) ∧
  forget_wines (app (world o)) = forget_wines (set_archive (cons a) (app w)) ∧
  (∃ l, calls (world o) = l ++ calls w) ∧
  (remote_ready (app w) = true →
   In (Issued (SetArchive (id (base a)) a) (syncInProgress (app w)) (clock w))
      (calls (world o))).
Proof.
  intros Hw Hs. unfold pushToArchive.
  cbn -[settle_turn try_catch void await].
  set (w1 := with_app (set_archive (cons a)) w).
  assert (Hw1 : idle w1) by exact Hw.
  change (remote_ready (set_archive (cons a) (app w))) with (remote_ready (app w)).
  destruct (remote_ready (app w)).
  - destruct (guarded_write_outcome (SetArchive (id (base a)) a) script w1 Hw1)
      as (Ho & _ & Hr).
    rewrite Ho, Hr.
    destruct (settle_turn_idle (SetArchive (id (base a)) a) script w1 Hw1)
      as (Hi & _ & Hc).
    split; [reflexivity|]. split; [exact Hi|]. split.
    + by apply (settle_turn_archive_kept _ script w1).
    + rewrite Hc. split; [by eexists [_; _]|]. intros _. right. left. reflexivity.
  - cbn. repeat split; try apply Hw. + by exists []. + discriminate.
Qed.

Lemma confirmArchive_outcome rev w R notesInput script :
  find_by_id id (currentWineId (app w)) (wines (app w)) = Some R →
  idle w →
  archive_undisturbed script →
  let o := exec (confirmArchive rev notesInput) script w in
  let entry :=
    mkArchived R (archiveRating (app w)) (archiveRebuy (app w))
               (or_null (trim notesInput)) (clock w) in
  ¬ In (id R) (List.map id (wines (app (world o)))) ∧
  archive (app (world o)) = entry :: archive (app w) ∧
  (remote_ready (app w) = true →
   In (Issued (SetArchive (id R) entry) (syncInProgress (app w)) (clock w))
      (calls (world o))) ∧
  result o =
    match rev with
    | LoginGated => Abrupt (TypeError "this.saveToLocalStorage is not a function")
    | CloudFunctions => Normal tt
    end.
Proof.
  intros Hf Hw Hs. unfold confirmArchive.
  cbn -[pushToArchive deleteCurrentWine trim]. rewrite Hf.
  cbn -[pushToArchive deleteCurrentWine trim].
  unfold mbind, task_bind. rewrite exec_bind.
  set (entry := mkArchived R _ _ _ _).
  destruct (pushToArchive_outcome entry script w Hw Hs) as (Hr & Hi & Ha & _ & Hc).
  rewrite Hr.
  destruct (deleteCurrentWine_outcome rev (unread (exec (pushToArchive entry) script w))
              (world (exec (pushToArchive entry) script w)) Hi)
    as (Hd & _ & _ & Hres & _ & l & Hl).
  cbn zeta in Hd, Hl, Hres |- *. rewrite Hd.
  destruct (find_by_id_some _ _ _ _ Hf) as [Hk _].
  assert (Hcur : currentWineId (app (world (exec (pushToArchive entry) script w)))
                 = Some (id R)).
  { rewrite <- Hk. exact (f_equal currentWineId Ha). }
  split; [|split; [|split]].
  - unfold deleted_page.
    cbn [set_wines set_syncInProgress wines currentWineId].
    rewrite Hcur. apply remove_by_id_absent.
  - exact (f_equal archive Ha).
  - intros Hready. rewrite Hl. apply in_or_app. right. by apply Hc.
  - exact Hres.
Qed.

(** C7: archiving the selected record R, with no other call in flight and
    no archive snapshot arriving meanwhile, leaves no record with R's id
    in the active collection and puts exactly one new entry in front of
    the archive: R itself, field for field, with the rating and the rebuy
    choice of the dialog, its trimmed notes (or null) and the time of the
    call as [archivedAt].  (In the revision of [src/app.js] the call then
    ends at the [saveToLocalStorage] statement of [deleteCurrentWine].) *)
Theorem archiving_moves_record (rev : Revision) (w : World) (R : Wine)
    (notesInput : string) (script : list Turn) :
  find_by_id id (currentWineId (app w)) (wines (app w)) = Some R →
  idle w →
  archive_undisturbed script →
  let o := exec (confirmArchive rev notesInput) script w in
  ¬ In (id R) (List.map id (wines (app (world o)))) ∧
  archive (app (world o))
  = mkArchived R (archiveRating (app w)) (archiveRebuy (app w))
               (or_null (trim notesInput)) (clock w)
    :: archive (app w) ∧
  result o =
    match rev with
    | LoginGated => Abrupt (TypeError "this.saveToLocalStorage is not a function")
    | CloudFunctions => Normal tt
    end.
Proof.
  intros Hf Hw Hs.
  destruct (confirmArchive_outcome rev w R notesInput script Hf Hw Hs)
    as (H1 & H2 & _ & H4).
  repeat split; assumption.
Qed.

Lemma archiving_moves_record_witness :
  archive (app (world (exec (confirmArchive CloudFunctions "  nice ")
                            [mkTurn [WinesValue (Some [blanc; reserva])] None;
                             mkTurn [Elapse 10] (Some (RemoteError "offline"))]
                            online)))
  = [reserva_archived].
Proof.
  apply (archiving_moves_record CloudFunctions online reserva "  nice ").
  - reflexivity.
  - split; reflexivity.
  - repeat constructor.
Defined.

(** C9: the entry that archiving creates holds the catalog record
    unchanged, so it carries the same id; and when the store is reachable
    the write of the entry goes to the archive path of that id. *)
Theorem archive_entry_keeps_id (rev : Revision) (w : World) (R : Wine)
    (notesInput : string) (script : list Turn) :
  find_by_id id (currentWineId (app w)) (wines (app w)) = Some R →
  idle w →
  archive_undisturbed script →
  let o := exec (confirmArchive rev notesInput) script w in
  ∃ entry,
    hd_error (archive (app (world o))) = Some entry ∧
    base entry = R ∧
    id (base entry) = id R ∧
    (remote_ready (app w) = true →
     In (Issued (SetArchive (id R) entry) (syncInProgress (app w)) (clock w))
        (calls (world o))).
Proof.
  intros Hf Hw Hs.
  destruct (confirmArchive_outcome rev w R notesInput script Hf Hw Hs)
    as (_ & H2 & H3 & _).
  eexists. cbn zeta. rewrite H2. cbn [hd_error].
  split; [reflexivity|]. split; [reflexivity|]. split; [reflexivity|exact H3].
Qed.

Lemma archive_entry_keeps_id_witness :
  ∃ entry,
    hd_error (archive (app (world (exec (confirmArchive LoginGated "nice") [] online))))
    = Some entry ∧
    base entry = reserva ∧
    id (base entry) = "100" ∧
    (remote_ready (app online) = true →
     In (Issued (SetArchive "100" entry) false 1000)
        (calls (world (exec (confirmArchive LoginGated "nice") [] online)))).
Proof.
  apply (archive_entry_keeps_id LoginGated online reserva "nice" []).
  - reflexivity.
  - split; reflexivity.
  - constructor.
Defined.

Lemma pushWineToFirebase_undisturbed x script w :
  idle w → undisturbed script →
  let o := exec (pushWineToFirebase x) script w in
  result o = Normal tt ∧ app (world o) = app w ∧ idle (world o) ∧
  undisturbed (unread o) ∧
  (remote_ready (app w) = true →
   In (Issued (SetWine (id x) x) (syncInProgress (app w)) (clock w))
      (calls (world o))).
Proof.
  intros Hw Hs. unfold pushWineToFirebase.
  cbn -[settle_turn try_catch void await].
  destruct (remote_ready (app w)); cbn -[settle_turn try_catch void await].
  - destruct (guarded_write_outcome (SetWine (id x) x) script w Hw) as (Ho & Hu & Hr).
    rewrite Ho, Hu, Hr.
    destruct (settle_turn_idle (SetWine (id x) x) script w Hw) as (Hi & _ & Hc).
    split; [reflexivity|]. split; [by apply settle_turn_undisturbed|].
    split; [exact Hi|]. split.
    + by destruct Hs; cbn; [constructor|].
    + intros _. rewrite Hc. right. left. reflexivity.
  - repeat split; try apply Hw; [exact Hs|discriminate].
Qed.

Lemma deleteFromArchive_undisturbed i script w :
  idle w → undisturbed script →
  let o := exec (deleteFromArchive i) script w in
  result o = Normal tt ∧
  app (world o) = set_archive (remove_by_id (λ a, id (base a)) i) (app w).
Proof.
  intros Hw Hs. unfold deleteFromArchive.
  cbn -[settle_turn try_catch void await].
  set (w1 := with_app _ w).
  assert (Hw1 : idle w1) by exact Hw.
  change (remote_ready (set_archive _ (app w))) with (remote_ready (app w)).
  destruct (remote_ready (app w)); cbn -[settle_turn try_catch void await].
  - destruct (guarded_write_outcome (RemoveArchive (template i)) script w1 Hw1)
      as (Ho & Hu & Hr).
    rewrite Ho, Hr. split; [reflexivity|].
    by apply (settle_turn_undisturbed _ script w1).
  - split; reflexivity.
Qed.

(** What a restore leaves, in the two revisions. *)
Lemma restore_outcome rev w A script :
  find_by_id (λ a, id (base a)) (currentArchiveId (app w)) (archive (app w)) = Some A →
  idle w → undisturbed script →
  let o := exec (restoreWineFromArchive rev) script w in
  match rev with
  | LoginGated =>
      result o = Abrupt (TypeError "this.saveToLocalStorage is not a function") ∧
      world o = with_app (set_wines (cons (restored_from A (clock w)))) w
  | CloudFunctions =>
      result o = Normal tt ∧
      app (world o)
      = set_archive (remove_by_id (λ a, id (base a)) (currentArchiveId (app w)))
                    (set_wines (cons (restored_from A (clock w))) (app w))
  end.
Proof.
  intros Hf Hw Hs. unfold restoreWineFromArchive.
  cbn -[pushWineToFirebase deleteFromArchive pretty]. rewrite Hf.
  cbn -[pushWineToFirebase deleteFromArchive pretty].
  fold (restored_from A (clock w)).
  destruct rev; cbn -[pushWineToFirebase deleteFromArchive restored_from]; [auto|].
  set (w1 := with_app _ w).
  assert (Hw1 : idle w1) by exact Hw.
  destruct (firebaseEnabled (app w)).
  - unfold mbind, task_bind. rewrite exec_bind.
    destruct (pushWineToFirebase_undisturbed (restored_from A (clock w)) script w1 Hw1 Hs)
      as (Hr & Ha & Hi & Hu & _).
    rewrite Hr. cbn -[pushWineToFirebase deleteFromArchive restored_from]. rewrite Ha.
    destruct (deleteFromArchive_undisturbed (currentArchiveId (app w1)) _ _ Hi Hu)
      as (Hr' & Ha').
    rewrite Hr', Ha', Ha. auto.
  - cbn -[deleteFromArchive restored_from].
    match goal with |- context [exec (deleteFromArchive ?i) script ?ww] =>
      destruct (deleteFromArchive_undisturbed i script ww Hw1 Hs) as (Hr' & Ha') end.
    rewrite Hr', Ha'. auto.
Qed.



(** C8, on the failing input, in the revision of [src/app.js] 1236-2971:
    the restore builds the new record and puts it in front of the
    collection, then calls [saveToLocalStorage], which that class does not
    have.  The call ends there with a [TypeError]: the new record is not
    written to the store, and the archive entry stays where it was, on the
    page and in the store. *)
Theorem restore_stops_at_stale_call :
  let o := exec (restoreWineFromArchive LoginGated) [] after_archive in
  result o = Abrupt (TypeError "this.saveToLocalStorage is not a function") ∧
  List.map id (wines (app (world o))) = ["5000"; "200"] ∧
  archive (app (world o)) = [reserva_archived] ∧
  remote_archive (world o) !! "100" = Some reserva_archived ∧
  remote_wines (world o) !! "5000" = None.
Proof. vm_compute. auto. Qed.

(** The revision of [src/unnamed/part_000] has no such call, and there a
    restore does what it is meant to: a new record in front of the
    collection, with the clock as id and as [addedAt], an id other than
    the archived one (which was taken from an earlier reading of the
    clock), and no entry with the archived id left in the archive. *)
Theorem restore_replaces_entry (w : World) (A : ArchivedWine)
    (script : list Turn) :
  find_by_id (λ a, id (base a)) (currentArchiveId (app w)) (archive (app w)) = Some A →
  idle w →
  undisturbed script →
  (∃ minted, id (base A) = pretty minted ∧ minted < clock w) →
  let o := exec (restoreWineFromArchive CloudFunctions) script w in
  result o = Normal tt ∧
  ∃ restored,
    wines (app (world o)) = restored :: wines (app w) ∧
    id restored = pretty (clock w) ∧
    id restored ≠ id (base A) ∧
    addedAt restored = clock w ∧
    ¬ In (id (base A)) (List.map (λ a, id (base a)) (archive (app (world o)))).
Proof.
  intros Hf Hw Hs (minted & Hm & Hlt).
  destruct (restore_outcome CloudFunctions w A script Hf Hw Hs) as [Hr Ha].
  cbn zeta. split; [exact Hr|]. rewrite Ha.
  exists (restored_from A (clock w)).
  split; [reflexivity|]. split; [reflexivity|]. split; [|split; [reflexivity|]].
  - cbn [restored_from id]. rewrite Hm. intros E.
    apply (inj pretty) in E. lia.
  - cbn [set_archive archive]. destruct (find_by_id_some _ _ _ _ Hf) as [Hk _].
    cbn [set_wines currentArchiveId]. rewrite Hk.
    apply (remove_by_id_absent (λ a, id (base a))).
Qed.

(** C10: the record a restore puts in front of the collection has
    quantity 1, whatever quantity the archived entry holds. *)
Theorem restored_quantity_is_one (rev : Revision) (w : World)
    (A : ArchivedWine) (script : list Turn) :
  find_by_id (λ a, id (base a)) (currentArchiveId (app w)) (archive (app w)) = Some A →
  idle w →
  undisturbed script →
  let o := exec (restoreWineFromArchive rev) script w in
  ∃ restored,
    wines (app (world o)) = restored :: wines (app w) ∧
    name restored = name (base A) ∧
    quantity restored = 1.
Proof.
  intros Hf Hw Hs.
  pose proof (restore_outcome rev w A script Hf Hw Hs) as H.
  cbn zeta in H |- *. exists (restored_from A (clock w)).
  destruct rev; destruct H as [_ Ha]; rewrite Ha; auto.
Qed.

Lemma restored_quantity_is_one_witness :
  quantity (base six_pack) = 6 ∧
  ∃ restored,
    wines (app (world (exec (restoreWineFromArchive CloudFunctions)
                            [mkTurn [Elapse 40] None] after_six_pack)))
    = restored :: [reserva] ∧
    name restored = "Blanc" ∧
    quantity restored = 1.
Proof.
  split; [reflexivity|].
  apply (restored_quantity_is_one CloudFunctions after_six_pack six_pack).
  - reflexivity.
  - split; reflexivity.
  - repeat constructor.
Defined.

(** ** Sorting *)

Lemma insert_sorted_perm {A} (cmp : A → A → Z) x l :
  Permutation (insert_sorted cmp x l) (x :: l).
Proof.
  induction l as [|y l IH]; cbn; [reflexivity|].
  destruct (cmp x y <=? 0); [reflexivity|].
  rewrite IH. apply perm_swap.
Qed.

Lemma array_sort_perm {A} (cmp : A → A → Z) l :
  Permutation (array_sort cmp l) l.
Proof.
  induction l as [|x l IH]; cbn; [reflexivity|].
  rewrite insert_sorted_perm. by constructor.
Qed.

Lemma insert_newest_first x l :
  newest_first l → newest_first (insert_sorted by_addedAt x l).
Proof.
  unfold newest_first. induction 1 as [|y l Hl IH Hy]; cbn.
  - repeat constructor.
  - unfold by_addedAt at 1. destruct (addedAt y - addedAt x <=? 0) eqn:E.
    + apply Z.leb_le in E. constructor; [by constructor|]. constructor. lia.
    + apply Z.leb_gt in E. constructor; [exact IH|].
      destruct l as [|z l]; cbn.
      * constructor. lia.
      * inversion Hy; subst. unfold by_addedAt at 1.
        destruct (addedAt z - addedAt x <=? 0); constructor; [lia|assumption].
Qed.

Lemma array_sort_newest_first l : newest_first (array_sort by_addedAt l).
Proof.
  induction l as [|x l IH]; cbn; [constructor|]. by apply insert_newest_first.
Qed.

(** ** Union merge *)

Section UnionMergeProperties.

Variable JSON_stringify : list Wine → string.

Lemma merge_scenario_run (w : World) (A B B' C : Wine) (local remote : list Wine) :
  wines (app w) = local →
  (local = [A; B] ∨ local = [B; A]) →
  (remote = [B'; C] ∨ remote = [C; B']) →
  id B' = id B → id A ≠ id B → id C ≠ id A → id C ≠ id B →
  remote_ready (app w) = true →
  (String.length (JSON_stringify (array_sort by_addedAt (remote ++ [A])))
   ≤ room (app w))%nat →
  let w' := (run_sync (mergeWines JSON_stringify remote) w).2 in
  wines (app w') = array_sort by_addedAt (remote ++ [A]) ∧
  calls w' = Issued (SetWine (id A) A) (syncInProgress (app w)) (clock w) :: calls w ∧
  stored (app w') = Some (JSON_stringify (wines (app w'))) ∧
  remote_wines (dispatch w' (Settle (length (pending w)) None)) !! id A = Some A.
Proof.
  intros Hl Hlocal Hremote HB' HAB HCA HCB Hr Hfit.
  assert (E1 : String.eqb (id B) (id C) = false) by (apply String.eqb_neq; congruence).
  assert (E2 : String.eqb (id C) (id B) = false) by (by apply String.eqb_neq).
  assert (E3 : String.eqb (id B) (id A) = false) by (apply String.eqb_neq; congruence).
  assert (E4 : String.eqb (id A) (id B) = false) by (by apply String.eqb_neq).
  assert (E5 : String.eqb (id C) (id A) = false) by (by apply String.eqb_neq).
  assert (E6 : String.eqb (id A) (id C) = false) by (apply String.eqb_neq; congruence).
  apply Nat.leb_le in Hfit.
  unfold mergeWines.
  destruct Hlocal as [-> | ->], Hremote as [-> | ->];
    cbn -[array_sort String.length]; rewrite Hl;
    cbn -[array_sort String.length];
    rewrite ?HB', ?String.eqb_refl, ?E1, ?E2, ?E3, ?E4, ?E5, ?E6;
    cbn -[array_sort String.length];
    rewrite ?HB', ?String.eqb_refl, ?E1, ?E2, ?E3, ?E4, ?E5, ?E6;
    cbn -[array_sort String.length];
    rewrite ?Hr; cbn -[array_sort String.length];
    cbn -[array_sort String.length] in Hfit; rewrite Hfit;
    cbn -[array_sort String.length];
    (split; [reflexivity|]); (split; [reflexivity|]); (split; [reflexivity|]);
    rewrite list_lookup_middle by reflexivity;
    cbn; apply lookup_insert_eq.
Qed.

(** C4: with local collection {A, B} and remote snapshot {B', C}, where
    B' has B's id, the merge leaves exactly B', C and A, newest first;
    it issues the write of A to the store, which holds A under A's id
    once that request is served; and it caches the merged collection.
    (The store is reachable and the cache has room for the text.) *)
Theorem union_merge_scenario (w : World) (A B B' C : Wine)
    (local remote : list Wine) :
  wines (app w) = local →
  Permutation [A; B] local →
  Permutation [B'; C] remote →
  id B' = id B → id A ≠ id B → id C ≠ id A → id C ≠ id B →
  remote_ready (app w) = true →
  (String.length (JSON_stringify (array_sort by_addedAt (remote ++ [A])))
   ≤ room (app w))%nat →
  let w' := (run_sync (mergeWines JSON_stringify remote) w).2 in
  Permutation (wines (app w')) [B'; C; A] ∧
  newest_first (wines (app w')) ∧
  calls w' = Issued (SetWine (id A) A) (syncInProgress (app w)) (clock w) :: calls w ∧
  stored (app w') = Some (JSON_stringify (wines (app w'))) ∧
  remote_wines (dispatch w' (Settle (length (pending w)) None)) !! id A = Some A.
Proof.
  intros Hl Hlocal Hremote HB' HAB HCA HCB Hr Hfit.
  assert (Hlocal' : local = [A; B] ∨ local = [B; A]).
  { apply Permutation_length_2_inv in Hlocal. tauto. }
  assert (Hremote' : remote = [B'; C] ∨ remote = [C; B']).
  { apply Permutation_length_2_inv in Hremote. tauto. }
  destruct (merge_scenario_run w A B B' C local remote
              Hl Hlocal' Hremote' HB' HAB HCA HCB Hr Hfit) as (Hw & Hc & Hs & Hp).
  cbn zeta. split; [|split; [|split; [|split]]]; try assumption.
  - rewrite Hw, array_sort_perm, <- Hremote. reflexivity.
  - rewrite Hw. apply array_sort_newest_first.
Qed.

End UnionMergeProperties.

Lemma union_merge_scenario_witness :
  List.map name
    (wines (app (run_sync (mergeWines sample_stringify [merge_b'; merge_c])
                          merge_local).2))
  = ["C"; "A"; "B"] ∧
  Permutation
    (wines (app (run_sync (mergeWines sample_stringify [merge_b'; merge_c])
                          merge_local).2))
    [merge_b'; merge_c; merge_a].
Proof.
  split; [reflexivity|].
  apply (union_merge_scenario sample_stringify merge_local
           merge_a merge_b merge_b' merge_c [merge_a; merge_b] [merge_b'; merge_c]).
  - reflexivity.
  - reflexivity.
  - reflexivity.
  - reflexivity.
  - discriminate.
  - discriminate.
  - discriminate.
  - reflexivity.
  - vm_compute. lia.
Defined.

(** * Further properties *)

(** ** The listeners with the gate open *)

Lemma insert_sorted_by_key {A} (key : A → Z) x l :
  Sorted (λ a b, key b ≤ key a) l →
  Sorted (λ a b, key b ≤ key a) (insert_sorted (λ a b, key b - key a) x l).
Proof.
  induction 1 as [|y l Hl IH Hhd]; cbn.
  - repeat constructor.
  - destruct (Z.leb_spec (key y - key x) 0).
    + constructor; [constructor; assumption|]. constructor. lia.
    + constructor; [assumption|].
      destruct Hhd as [|z l Hz]; cbn.
      * constructor. lia.
      * destruct (key z - key x <=? 0); constructor; lia.
Qed.

Lemma array_sort_by_key {A} (key : A → Z) l :
  Sorted (λ a b, key b ≤ key a) (array_sort (λ a b, key b - key a) l).
Proof.
  induction l as [|x l IH]; cbn.
  - constructor.
  - apply insert_sorted_by_key, IH.
Qed.

(** With the gate open, a snapshot replaces the collection it is about:
    the page then holds exactly the snapshot's records (none for a [null]
    snapshot), newest first, whatever it held before; the other
    collection, the rest of the page, the store and the log are left
    alone. *)
Theorem snapshot_replaces_collections (w : World) :
  syncInProgress (app w) = false →
  (∀ data,
     let w' := dispatch w (WinesValue data) in
     wines (app w') ≡ₚ default [] data ∧
     newest_first (wines (app w')) ∧
     forget_wines (app w') = forget_wines (app w) ∧
     remote_wines w' = remote_wines w ∧
     calls w' = calls w) ∧
  (∀ data,
     let w' := dispatch w (ArchiveValue data) in
     archive (app w') ≡ₚ default [] data ∧
     Sorted (λ a b, archivedAt b ≤ archivedAt a) (archive (app w')) ∧
     wines (app w') = wines (app w) ∧
     remote_archive w' = remote_archive w ∧
     calls w' = calls w).
Proof.
  intros Hgate. split; intros data w'; subst w'; cbn; rewrite Hgate; cbn.
  - split; [apply array_sort_perm|].
    split; [apply (array_sort_by_key addedAt)|]. auto.
  - split; [apply array_sort_perm|].
    split; [apply (array_sort_by_key archivedAt)|]. auto.
Qed.

Lemma snapshot_replaces_collections_witness :
  wines (app (dispatch online (WinesValue (Some [reserva])))) ≡ₚ [reserva] ∧
  archive (app (dispatch online (ArchiveValue None))) ≡ₚ [].
Proof.
  destruct (snapshot_replaces_collections online eq_refl) as [Hw Ha].
  split; [apply (Hw (Some [reserva]))|apply (Ha None)].
Defined.

#[local] Instance newer_trans : Transitive (λ a b : Wine, addedAt b ≤ addedAt a).
Proof. intros x y z; lia. Qed.

#[local] Instance strictly_newer_trans :
  Transitive (λ a b : Wine, addedAt b < addedAt a).
Proof. intros x y z; lia. Qed.

Lemma strictly_newest_first_keys l x y :
  strictly_newest_first l → x ∈ l → y ∈ l → addedAt x = addedAt y → x = y.
Proof.
  intros Hs. apply Sorted_StronglySorted in Hs; [|apply _].
  induction Hs as [|a l Hl IH Hall]; intros Hx Hy Heq.
  - inversion Hx.
  - rewrite Forall_forall in Hall.
    apply elem_of_cons in Hx as [->|Hx]; apply elem_of_cons in Hy as [->|Hy].
    + reflexivity.
    + specialize (Hall _ Hy). cbn in Hall. lia.
    + specialize (Hall _ Hx). cbn in Hall. lia.
    + auto.
Qed.

Lemma strictly_newest_first_weaken l :
  strictly_newest_first l → newest_first l.
Proof.
  induction 1 as [|a l Hl IH Hhd]; constructor; [assumption|].
  destruct Hhd; constructor. lia.
Qed.

Lemma array_sort_of_permutation data l :
  strictly_newest_first l → data ≡ₚ l → array_sort by_addedAt data = l.
Proof.
  intros Hs Hp.
  apply (Sorted_unique_strong (λ a b : Wine, addedAt b ≤ addedAt a)).
  - intros x1 x2 H1 H2 Hle Hge.
    apply (strictly_newest_first_keys l); [assumption| |assumption|lia].
    rewrite <- Hp, <- (array_sort_perm by_addedAt data). assumption.
  - apply array_sort_newest_first.
  - apply strictly_newest_first_weaken, Hs.
  - rewrite array_sort_perm. assumption.
Qed.

(** The echo of the page's own state is harmless: when the collection
    is newest first with no two records of the same instant, a snapshot
    that holds the same records, in whatever order the store lists them,
    leaves the whole world as it is. *)
Theorem echo_of_own_collection (w : World) (data : list Wine) :
  syncInProgress (app w) = false →
  strictly_newest_first (wines (app w)) →
  data ≡ₚ wines (app w) →
  dispatch w (WinesValue (Some data)) = w.
Proof.
  intros Hgate Hs Hp. cbn -[array_sort]. rewrite Hgate. cbn -[array_sort].
  unfold with_app, set_wines; cbn -[array_sort].
  rewrite (array_sort_of_permutation data _ Hs Hp).
  destruct w as [[]]; reflexivity.
Qed.

Lemma echo_of_own_collection_witness :
  dispatch online (WinesValue (Some [reserva; blanc])) = online.
Proof.
  apply echo_of_own_collection.
  - reflexivity.
  - repeat constructor.
  - apply Permutation_swap.
Defined.

(** ** The bulk save *)

Lemma winesObject_snoc l x :
  winesObject (l ++ [x]) = <[id x := x]> (winesObject l).
Proof. unfold winesObject. rewrite foldl_app. reflexivity. Qed.

Lemma winesObject_find (l : list Wine) (k : string) :
  winesObject l !! k = find_by_id id (Some k) (rev l).
Proof.
  induction l as [|x l IH] using rev_ind.
  - reflexivity.
  - rewrite winesObject_snoc, rev_unit. cbn.
    destruct (String.eqb (id x) k) eqn:E.
    + apply String.eqb_eq in E. subst k. apply lookup_insert_eq.
    + apply String.eqb_neq in E. rewrite lookup_insert_ne by assumption.
      exact IH.
Qed.

Lemma find_by_id_unique (l : list Wine) (x : Wine) :
  NoDup (List.map id l) → x ∈ l → find_by_id id (Some (id x)) l = Some x.
Proof.
  induction l as [|y l IH]; intros Hnd Hx; [inversion Hx|].
  cbn in *. apply NoDup_cons in Hnd as [Hy Hnd].
  apply elem_of_cons in Hx as [->|Hx].
  - rewrite String.eqb_refl. reflexivity.
  - destruct (String.eqb (id y) (id x)) eqn:E.
    + apply String.eqb_eq in E. exfalso. apply Hy. rewrite E.
      apply list_elem_of_In, in_map, list_elem_of_In, Hx.
    + apply IH; assumption.
Qed.

(** The object that a bulk save writes holds, under each id, the last
    record of the collection with that id: an earlier record with the
    same id is dropped.  When the ids are distinct it holds every record
    under its id, and as many entries as the collection has records. *)
Theorem winesObject_last_wins (l : list Wine) :
  (∀ k, winesObject l !! k = find_by_id id (Some k) (rev l)) ∧
  (NoDup (List.map id l) →
   (∀ x, In x l → winesObject l !! id x = Some x) ∧
   size (winesObject l) = length l).
Proof.
  split; [apply winesObject_find|]. intros Hnd. split.
  - intros x Hx. rewrite winesObject_find.
    apply find_by_id_unique.
    + rewrite map_rev, <- Permutation_rev. exact Hnd.
    + apply list_elem_of_In, in_rev. rewrite rev_involutive. exact Hx.
  - revert Hnd. induction l as [|x l IH] using rev_ind; intros Hnd.
    + reflexivity.
    + rewrite winesObject_snoc, length_app. cbn.
      rewrite map_app in Hnd. apply NoDup_app in Hnd as (Hl & Hx & _).
      rewrite map_size_insert_None.
      * rewrite IH by assumption. lia.
      * rewrite winesObject_find.
        destruct (find_by_id id (Some (id x)) (rev l)) eqn:E; [|reflexivity].
        apply find_by_id_some in E as [Hk Hin]. exfalso.
        apply (Hx (id x)); [|cbn; left].
        assert (id x = id w) as -> by congruence.
        apply list_elem_of_In, in_map, in_rev, Hin.
Qed.

Lemma winesObject_last_wins_witness :
  winesObject [merge_b; merge_a; merge_b'] !! "2" = Some merge_b' ∧
  size (winesObject [blanc; reserva]) = 2%nat.
Proof.
  split.
  - rewrite (proj1 (winesObject_last_wins [merge_b; merge_a; merge_b'])).
    reflexivity.
  - apply (proj2 (winesObject_last_wins [blanc; reserva])).
    apply NoDup_cons. split; [|apply NoDup_singleton].
    intros H. apply list_elem_of_singleton in H. discriminate H.
Defined.



(** ** A page that cannot reach the store *)

(** Follow a body whose guards all fail: split on every lookup and every
    test until the body has returned. *)
Ltac follow_guards :=
  repeat first
    [ progress cbn
    | match goal with
      | |- context [find_by_id ?k ?i ?l] => destruct (find_by_id k i l) eqn:?
      | |- context [if ?b then _ else _] => destruct b eqn:?
      end ].

(** While sync is disabled, the database handle is missing or nobody is
    signed in, no button of the page issues a request: the log, the
    requests in flight and both parts of the store stay as they are, in
    either login-gated revision. *)
Theorem local_page_is_silent (rev : Revision) (a : PageAction)
    (script : list Turn) (w : World) :
  remote_ready (app w) = false →
  let o := exec (on_action rev a) script w in
  calls (world o) = calls w ∧
  pending (world o) = pending w ∧
  remote_wines (world o) = remote_wines w ∧
  remote_archive (world o) = remote_archive w ∧
  unread o = script.
Proof.
  intros Hr.
  destruct w as [s rw ra c ts p cs]. destruct s as [ws ar cw ca r1 r2 d u fe g st rm].
  unfold remote_ready in Hr. cbn in Hr.
  destruct rev, a as [[| |i]|em img form| |notes| |[|]]; cbn.
  all: follow_guards; auto;
    unfold remote_ready in *; cbn in *;
    destruct d, (truthy u); cbn in *; congruence.
Qed.

Lemma local_page_is_silent_witness :
  let o := exec (on_action CloudFunctions SkipArchive) [quiet] offline in
  calls (world o) = [] ∧
  pending (world o) = [] ∧
  remote_wines (world o) = winesObject [blanc; reserva] ∧
  remote_archive (world o) = ∅ ∧
  unread o = [quiet].
Proof.
  apply (local_page_is_silent CloudFunctions SkipArchive [quiet] offline).
  reflexivity.
Defined.

(** When the session ends, the callback of the auth state empties both
    collections and disables sync; from then on no button of the page
    issues a request, so nothing is written under the identity that
    signed out. *)
Theorem sign_out_clears_page (rev : Revision) (a : PageAction)
    (script : list Turn) (w : World) :
  let signed_out := (run_sync (onAuthStateChanged None) w).2 in
  let o := exec (on_action rev a) script signed_out in
  wines (app signed_out) = [] ∧
  archive (app signed_out) = [] ∧
  remote_ready (app signed_out) = false ∧
  calls (world o) = calls w ∧
  pending (world o) = pending w ∧
  remote_wines (world o) = remote_wines w ∧
  remote_archive (world o) = remote_archive w.
Proof.
  destruct w as [s rw ra c ts p cs]. destruct s as [ws ar cw ca r1 r2 d u fe g st rm].
  destruct rev, a as [[| |i]|em img form| |notes| |[|]]; cbn.
  all: follow_guards; auto 10.
Qed.

(** ** The remote delete *)

Lemma dispatch_store_kept w e :
  idle w → is_foreign e = false →
  remote_wines (dispatch w e) = remote_wines w ∧
  remote_archive (dispatch w e) = remote_archive w.
Proof.
  intros [Hp Ht] He. destruct e as [data|data|ms|i fail|r]; cbn in *.
  - destruct (syncInProgress (app w)); auto.
  - destruct (syncInProgress (app w)); auto.
  - auto.
  - rewrite Hp. auto.
  - discriminate.
Qed.

Lemma run_events_store_kept es w :
  idle w → Forall (λ e, is_foreign e = false) es →
  remote_wines (run_events es w) = remote_wines w ∧
  remote_archive (run_events es w) = remote_archive w.
Proof.
  revert w. induction es as [|e es IH]; intros w Hw Hes; [auto|].
  apply Forall_cons in Hes as [He Hes]. rewrite run_events_cons.
  destruct (dispatch_idle w e Hw) as (Hw' & _ & _).
  destruct (dispatch_store_kept w e Hw He) as [<- <-].
  apply IH; assumption.
Qed.

(** One [await] with no rival and no rejection: the store is the one the
    call found, with the request applied. *)
Lemma settle_turn_unrivalled r script w :
  idle w → unrivalled script → unfailing script →
  (settle_turn r script w).1 = Fulfilled (apply_request r w).1 ∧
  remote_wines (settle_turn r script w).2 = remote_wines (apply_request r w).2 ∧
  remote_archive (settle_turn r script w).2 = remote_archive (apply_request r w).2 ∧
  idle (settle_turn r script w).2 ∧
  unrivalled (tl script) ∧ unfailing (tl script).
Proof.
  intros Hw Hu Hf.
  destruct (script_head _ script (List.Forall_nil _) Hu) as [Hu0 Hu'].
  destruct (script_head (λ t, failure t = None) script eq_refl Hf) as [Hf0 Hf'].
  destruct (settle_turn_idle r script w Hw) as (Hi & _ & _).
  unfold settle_turn in *. rewrite Hf0 in *.
  assert (Hw0 : idle (log_issue r w)) by exact Hw.
  destruct (run_events_store_kept _ _ Hw0 Hu0) as [Hrw Hra].
  cbn in Hrw, Hra.
  set (w1 := run_events (happenings (hd quiet script)) (log_issue r w)) in *.
  destruct r; cbn; rewrite ?Hrw, ?Hra; auto 10.
Qed.

(** With the store reachable, no request rejected and no other client
    writing meanwhile, the remote delete returns [true] and leaves the
    store without the record and otherwise as it was; when the store did
    not hold the record, the one read is all it issues (no remove, no
    second read). *)
Theorem remote_delete_removes (i : option string) (script : list Turn) (w : World) :
  idle w →
  remote_ready (app w) = true →
  unrivalled script →
  unfailing script →
  let o := exec (deleteWineFromFirebase i) script w in
  result o = Normal true ∧
  remote_wines (world o) = delete (template i) (remote_wines w) ∧
  remote_archive (world o) = remote_archive w ∧
  (remote_wines w !! template i = None →
   calls (world o)
   = [Served (OnceWine (template i)) (Fulfilled (Snapshot None)) (clock (world o));
      Issued (OnceWine (template i)) (syncInProgress (app w)) (clock w)]
     ++ calls w).
Proof.
  intros Hw Hr Hu Hf. unfold deleteWineFromFirebase.
  cbn -[settle_turn template]. rewrite Hr. cbn -[settle_turn template].
  destruct (settle_turn_unrivalled (OnceWine (template i)) script w Hw Hu Hf)
    as (Hv & Hrw & Hra & Hw1 & Hu1 & Hf1).
  destruct (settle_turn_idle (OnceWine (template i)) script w Hw) as (_ & _ & Hc).
  rewrite Hv in *. cbn -[settle_turn template] in *.
  set (w1 := (settle_turn (OnceWine (template i)) script w).2) in *.
  destruct (remote_wines w !! template i) as [x|] eqn:Hx; cbn -[settle_turn template].
  - destruct (settle_turn_unrivalled (RemoveWine (template i)) (tl script) w1 Hw1 Hu1 Hf1)
      as (Hv2 & Hrw2 & Hra2 & Hw2 & Hu2 & Hf2).
    rewrite Hv2. cbn -[settle_turn template] in *.
    set (w2 := (settle_turn (RemoveWine (template i)) (tl script) w1).2) in *.
    destruct (settle_turn_unrivalled (OnceWine (template i)) (tl (tl script)) w2 Hw2 Hu2 Hf2)
      as (Hv3 & Hrw3 & Hra3 & _).
    rewrite Hv3. cbn -[settle_turn template] in *.
    repeat split; [congruence|congruence|discriminate].
  - repeat split; [|assumption|intros _; exact Hc].
    rewrite Hrw. symmetry. apply delete_id. exact Hx.
Qed.

Lemma remote_delete_removes_witness :
  remote_wines
    (world (exec (deleteWineFromFirebase (Some "100"))
              [mkTurn [WinesValue (Some [blanc])] None; mkTurn [Elapse 5] None]
              online))
  = delete "100" (winesObject [blanc; reserva]).
Proof.
  apply (remote_delete_removes (Some "100") _ online).
  - split; reflexivity.
  - reflexivity.
  - repeat constructor.
  - repeat constructor.
Defined.

(** When the first read is rejected, the remote delete returns [false]
    and has issued nothing but that read: no remove reaches the store. *)
Theorem remote_delete_rejected (i : option string) (script : list Turn)
    (w : World) (e : Error) :
  idle w →
  remote_ready (app w) = true →
  failure (hd quiet script) = Some e →
  let o := exec (deleteWineFromFirebase i) script w in
  result o = Normal false ∧
  calls (world o)
  = [Served (OnceWine (template i)) (Rejected e) (clock (world o));
     Issued (OnceWine (template i)) (syncInProgress (app w)) (clock w)]
    ++ calls w.
Proof.
  intros Hw Hr Hf. unfold deleteWineFromFirebase.
  cbn -[settle_turn template]. rewrite Hr. cbn -[settle_turn template].
  destruct (settle_turn_idle (OnceWine (template i)) script w Hw) as (_ & _ & Hc).
  assert (Hv : (settle_turn (OnceWine (template i)) script w).1 = Rejected e).
  { unfold settle_turn. rewrite Hf. reflexivity. }
  rewrite Hv in *. cbn -[settle_turn template]. auto.
Qed.

Lemma remote_delete_rejected_witness :
  result (exec (deleteWineFromFirebase (Some "100"))
            [mkTurn [] (Some (RemoteError "denied"))] online)
  = Normal false.
Proof.
  apply (remote_delete_rejected (Some "100") _ online (RemoteError "denied"));
    [split; reflexivity|reflexivity..].
Defined.

(** ** The archive dialogs *)

(** Deleting an archive entry asks first.  Declined, nothing changes.
    Confirmed, every entry with the selected id leaves the in-memory
    archive, the catalog is untouched and the call never throws, even
    when the remote removal is rejected; when the store is reachable,
    the removal is not rejected and no other client writes meanwhile,
    the store loses the entry as well. *)
Theorem archive_delete_is_permanent (confirmed : bool) (A : string)
    (script : list Turn) (w : World) :
  currentArchiveId (app w) = Some A →
  idle w →
  undisturbed script →
  let o := exec (deleteFromArchiveConfirm confirmed) script w in
  result o = Normal tt ∧
  wines (app (world o)) = wines (app w) ∧
  (confirmed = false → world o = w) ∧
  (confirmed = true →
   archive (app (world o)) = remove_by_id (λ a, id (base a)) (Some A) (archive (app w)) ∧
   ¬ In A (List.map (λ a, id (base a)) (archive (app (world o)))) ∧
   (remote_ready (app w) = true → unrivalled script → unfailing script →
    remote_archive (world o) = delete A (remote_archive w))).
Proof.
  intros Hcur Hw Hu. destruct confirmed; cbn -[deleteFromArchive].
  - destruct (deleteFromArchive_undisturbed (currentArchiveId (app w)) script w Hw Hu)
      as [Hres Happ].
    cbn -[deleteFromArchive] in Hres, Happ. rewrite Hres, Happ, Hcur.
    repeat split; [discriminate|apply remove_by_id_absent|].
    intros Hr Hriv Hfail. unfold deleteFromArchive.
    cbn -[settle_turn]. unfold remote_ready in *. cbn -[settle_turn].
    rewrite Hr. cbn -[settle_turn].
    set (w1 := with_app _ w).
    assert (Hw1 : idle w1) by exact Hw.
    destruct (settle_turn_unrivalled (RemoveArchive A) script w1 Hw1 Hriv Hfail)
      as (Hv & _ & Hra & _).
    rewrite Hv. cbn -[settle_turn]. rewrite Hra. reflexivity.
  - repeat split; discriminate.
Qed.

Lemma archive_delete_is_permanent_witness :
  archive (app (world (exec (deleteFromArchiveConfirm true)
                         [mkTurn [Elapse 3] (Some (RemoteError "offline"))]
                         after_archive)))
  = [].
Proof.
  apply (archive_delete_is_permanent true "100" _ after_archive);
    [reflexivity|split; reflexivity|repeat constructor|reflexivity].
Defined.



Lemma confirmArchive_dialog rev w R notesInput script :
  find_by_id id (currentWineId (app w)) (wines (app w)) = Some R →
  idle w →
  archive_undisturbed script →
  archive (app (world (exec (confirmArchive rev notesInput) script w)))
  = mkArchived R (archiveRating (app w)) (archiveRebuy (app w))
               (or_null (trim notesInput)) (clock w)
    :: archive (app w).
Proof.
  intros Hf Hw Hu.
  destruct (confirmArchive_outcome rev w R notesInput script Hf Hw Hu) as (_ & H & _).
  exact H.
Qed.

(** Opening the archive dialog discards the choices of the previous
    use: archiving right away records rating 0 and no rebuy choice;
    archiving after choosing a rating and a rebuy option records
    those. *)
Theorem dialog_choices_are_fresh (rev : Revision) (w : World) (R : Wine)
    (rating : Z) (option notesInput : string) (script : list Turn) :
  find_by_id id (currentWineId (app w)) (wines (app w)) = Some R →
  idle w →
  archive_undisturbed script →
  let opened := (run_sync openDeleteModal w).2 in
  let chosen := (run_sync (setArchiveRating rating;; setRebuyOption option) opened).2 in
  archive (app (world (exec (confirmArchive rev notesInput) script opened)))
  = mkArchived R 0 None (or_null (trim notesInput)) (clock w) :: archive (app w) ∧
  archive (app (world (exec (confirmArchive rev notesInput) script chosen)))
  = mkArchived R rating (Some option) (or_null (trim notesInput)) (clock w)
    :: archive (app w).
Proof.
  intros Hf Hw Hu. cbn zeta.
  assert (Ho : (run_sync openDeleteModal w).2
               = with_app (λ s, set_archiveRebuy None (set_archiveRating 0 s)) w).
  { unfold openDeleteModal. cbn. rewrite Hf. reflexivity. }
  rewrite Ho.
  split; rewrite (confirmArchive_dialog rev _ R notesInput script); auto.
Qed.

Lemma dialog_choices_are_fresh_witness :
  List.map rating
    (archive (app (world (exec (confirmArchive CloudFunctions "ok") []
                            (run_sync openDeleteModal online).2))))
  = [0].
Proof.
  destruct (dialog_choices_are_fresh CloudFunctions online reserva 5 "yes" "ok" [])
    as [H _]; [reflexivity|split; reflexivity|constructor|].
  rewrite H. reflexivity.
Defined.

(** ** Archive and restore, end to end *)

Lemma elapse_collections ms w :
  wines (app (elapse ms w)) = wines (app w) ∧
  archive (app (elapse ms w)) = archive (app w) ∧
  currentArchiveId (app (elapse ms w)) = currentArchiveId (app w) ∧
  clock (elapse ms w) = clock w + Z.of_N ms.
Proof.
  unfold elapse. cbn.
  generalize (List.filter (λ t : Z * TimerAction, t.1 <=? clock w + Z.of_N ms) (timers w)).
  intros due. generalize (app w). induction due as [|[d []] due IH]; intros s; [auto|].
  cbn. destruct (IH (set_syncInProgress false s)) as (-> & -> & -> & _). auto.
Qed.

Lemma confirmArchive_quiet w R notesInput :
  find_by_id id (currentWineId (app w)) (wines (app w)) = Some R →
  let o := exec (confirmArchive CloudFunctions notesInput) [] w in
  wines (app (world o)) = remove_by_id id (Some (id R)) (wines (app w)) ∧
  archive (app (world o))
  = mkArchived R (archiveRating (app w)) (archiveRebuy (app w))
               (or_null (trim notesInput)) (clock w) :: archive (app w) ∧
  clock (world o) = clock w.
Proof.
  intros Hf. destruct (find_by_id_some _ _ _ _ Hf) as [Hcur _].
  destruct w as [s rw ra c ts p cs]. destruct s as [ws ar cw ca r1 r2 d u fe g st rm].
  cbn in Hf, Hcur. subst cw.
  unfold confirmArchive, pushToArchive, deleteCurrentWine, deleteWineFromFirebase.
  cbn -[trim remove_by_id find_by_id]. rewrite Hf.
  repeat first
    [ progress cbn -[trim remove_by_id find_by_id]
    | match goal with
      | |- context [if ?b then _ else _] => destruct b eqn:?
      | |- context [snapshot_exists ?b] => destruct (snapshot_exists b) eqn:?
      end ]; auto.
Qed.

Lemma restore_quiet w A :
  find_by_id (λ a, id (base a)) (currentArchiveId (app w)) (archive (app w)) = Some A →
  let o := exec (restoreWineFromArchive CloudFunctions) [] w in
  wines (app (world o)) = restored_from A (clock w) :: wines (app w) ∧
  archive (app (world o))
  = remove_by_id (λ a, id (base a)) (currentArchiveId (app w)) (archive (app w)).
Proof.
  intros Hf.
  destruct w as [s rw ra c ts p cs]. destruct s as [ws ar cw ca r1 r2 d u fe g st rm].
  cbn in Hf.
  unfold restoreWineFromArchive, pushWineToFirebase, deleteFromArchive.
  cbn -[remove_by_id find_by_id pretty]. rewrite Hf.
  repeat first
    [ progress cbn -[remove_by_id find_by_id pretty]
    | match goal with
      | |- context [if ?b then _ else _] => destruct b eqn:?
      end ]; auto.
Qed.

Lemma openArchiveDetail_selects w A :
  find_by_id (λ a, id (base a)) (Some A) (archive (app w)) ≠ None →
  (run_sync (openArchiveDetail A) w).2 = with_app (set_currentArchiveId (Some A)) w.
Proof.
  intros Hf. unfold openArchiveDetail. cbn -[find_by_id].
  destruct (find_by_id _ _ _); [reflexivity|congruence].
Qed.

(** Archiving a record and restoring its entry later, with nothing
    arriving meanwhile, brings the record back with every descriptive
    field as it was, one bottle, a fresh id and a fresh date, in front of
    the other records; the archive is then the one from before, less any
    older entry that had the same id. *)
Theorem archive_then_restore (w : World) (R : Wine) (notesInput : string) (ms : N) :
  find_by_id id (currentWineId (app w)) (wines (app w)) = Some R →
  let archived := world (exec (confirmArchive CloudFunctions notesInput) [] w) in
  let selected := (run_sync (openArchiveDetail (id R)) archived).2 in
  let later := dispatch selected (Elapse ms) in
  let restored := world (exec (restoreWineFromArchive CloudFunctions) [] later) in
  wines (app restored)
  = mkWine (pretty (clock w + Z.of_N ms)) (name R) (producer R) (type R) (year R)
           (region R) (grape R) (boldness R) (tannins R) (acidity R) (price R)
           1 (store R) (notes R) (image R) (clock w + Z.of_N ms)
    :: remove_by_id id (Some (id R)) (wines (app w)) ∧
  archive (app restored)
  = remove_by_id (λ a, id (base a)) (Some (id R)) (archive (app w)).
Proof.
  intros Hf. cbn zeta.
  destruct (confirmArchive_quiet w R notesInput Hf) as (Hw1 & Ha1 & Hc1).
  cbn zeta in *.
  set (w1 := world (exec (confirmArchive CloudFunctions notesInput) [] w)) in *.
  set (entry := mkArchived R (archiveRating (app w)) (archiveRebuy (app w))
                           (or_null (trim notesInput)) (clock w)) in *.
  assert (Hfind : find_by_id (λ a, id (base a)) (Some (id R)) (archive (app w1))
                  = Some entry).
  { rewrite Ha1. cbn. rewrite String.eqb_refl. reflexivity. }
  rewrite openArchiveDetail_selects by (rewrite Hfind; discriminate).
  set (w2 := with_app (set_currentArchiveId (Some (id R))) w1).
  change (dispatch w2 (Elapse ms)) with (elapse ms w2).
  destruct (elapse_collections ms w2) as (Hw3 & Ha3 & Hcur3 & Hc3).
  destruct (restore_quiet (elapse ms w2) entry) as [Hw4 Ha4].
  { rewrite Hcur3, Ha3. exact Hfind. }
  cbn zeta in *. rewrite Hw4, Ha4, Hw3, Ha3, Hcur3, Hc3.
  change (clock w2) with (clock w1). change (wines (app w2)) with (wines (app w1)).
  change (archive (app w2)) with (archive (app w1)).
  change (currentArchiveId (app w2)) with (Some (id R)).
  rewrite Hc1, Hw1, Ha1. split; [reflexivity|].
  cbn. rewrite String.eqb_refl. reflexivity.
Qed.

Lemma archive_then_restore_witness :
  List.map (λ x, (id x, name x, quantity x))
    (wines (app (world (exec (restoreWineFromArchive CloudFunctions) []
       (dispatch (run_sync (openArchiveDetail "100")
                    (world (exec (confirmArchive CloudFunctions "fine") [] online))).2
                 (Elapse 500))))))
  = [("1500", "Reserva", 1); ("200", "Blanc", 2)].
Proof.
  destruct (archive_then_restore online reserva "fine" 500 eq_refl) as [H _].
  cbn zeta in H. change (id reserva) with "100" in H. rewrite H. reflexivity.
Defined.

(** ** The form *)

Lemma append_cons c s t : String c s +:+ t = String c (s +:+ t).
Proof. reflexivity. Qed.

Lemma append_nil_r s : s +:+ EmptyString = s.
Proof. induction s as [|c s IH]; [reflexivity|]. rewrite append_cons, IH. reflexivity. Qed.

Lemma append_snoc ds c s : ds +:+ String c s = (ds +:+ String c EmptyString) +:+ s.
Proof.
  induction ds as [|d ds IH]; [reflexivity|]. rewrite !append_cons, IH. reflexivity.
Qed.

Lemma all_decimal_snoc ds c :
  all_decimal ds = true → is_decimal c = true →
  all_decimal (ds +:+ String c EmptyString) = true.
Proof.
  intros Hds Hc. induction ds as [|d ds IH].
  - change (is_decimal c && true = true). rewrite Hc. reflexivity.
  - rewrite append_cons. cbn [all_decimal] in *.
    apply andb_prop in Hds as [-> Hds]. cbn [andb]. auto.
Qed.

Lemma digit_value_char d :
  (d < 10)%N →
  digit_value 10 (pretty_N_char d) = Some (Z.of_N d) ∧
  is_decimal (pretty_N_char d) = true.
Proof.
  intros Hd.
  assert (d = 0 ∨ d = 1 ∨ d = 2 ∨ d = 3 ∨ d = 4 ∨ d = 5 ∨ d = 6 ∨ d = 7
          ∨ d = 8 ∨ d = 9)%N as H by lia.
  repeat destruct H as [->|H]; try subst d; split; reflexivity.
Qed.

Lemma pretty_N_go_decimal x s :
  ∃ ds, pretty_N_go x s = ds +:+ s ∧ all_decimal ds = true ∧
        ((0 < x)%N → ds ≠ EmptyString).
Proof.
  revert s. induction (N.lt_wf_0 x) as [x _ IH]; intros s.
  assert (x = 0 ∨ 0 < x)%N as [->|Hx] by lia.
  - exists EmptyString. rewrite pretty_N_go_0. repeat split; lia.
  - rewrite pretty_N_go_step by assumption.
    destruct (IH (x `div` 10)%N (N.div_lt x 10 Hx eq_refl)
                 (String (pretty_N_char (x `mod` 10)) s)) as (ds & -> & Hds & _).
    exists (ds +:+ String (pretty_N_char (x `mod` 10)) EmptyString).
    split; [|split].
    + apply append_snoc.
    + apply all_decimal_snoc; [assumption|].
      apply digit_value_char, N.mod_lt. lia.
    + intros _. destruct ds; discriminate.
Qed.

Lemma digits_value_pretty_go x s :
  (0 < x)%N →
  digits_value 10 None (pretty_N_go x s) = digits_value 10 (Some (Z.of_N x)) s.
Proof.
  revert s. induction (N.lt_wf_0 x) as [x _ IH]; intros s Hx.
  rewrite pretty_N_go_step by assumption.
  pose proof (N.mod_lt x 10 ltac:(lia)) as Hm.
  destruct (digit_value_char _ Hm) as [Hd _].
  assert (Hdm : Z.of_N x = Z.of_N (x `div` 10) * 10 + Z.of_N (x `mod` 10)).
  { rewrite (N.div_mod x 10) at 1 by lia.
    rewrite N2Z.inj_add, N2Z.inj_mul. apply Z.add_cancel_r, Z.mul_comm. }
  assert (x `div` 10 = 0 ∨ 0 < x `div` 10)%N as [H0|Hpos] by lia.
  - rewrite H0 in *. rewrite pretty_N_go_0. cbn [digits_value]. rewrite Hd.
    cbn [default]. rewrite Hdm. reflexivity.
  - rewrite (IH _ (N.div_lt x 10 Hx eq_refl) _ Hpos). cbn [digits_value].
    rewrite Hd. cbn [default]. rewrite Hdm. reflexivity.
Qed.

Lemma parseInt_decimal c t :
  is_decimal c = true → all_decimal t = true →
  parseInt (String c t) = (λ n, 1 * n) <$> digits_value 10 None (String c t) ∧
  parseInt (String "-" (String c t))
  = (λ n, -1 * n) <$> digits_value 10 None (String c t).
Proof.
  intros Hc Ht.
  destruct c as [[] [] [] [] [] [] [] []]; try discriminate Hc;
    try (split; reflexivity).
  destruct t as [|d t]; [split; reflexivity|].
  cbn in Ht. apply andb_prop in Ht as [Hd _].
  destruct d as [[] [] [] [] [] [] [] []]; try discriminate Hd; split; reflexivity.
Qed.

Lemma parseInt_pretty (z : Z) : parseInt (pretty z) = Some z.
Proof.
  destruct z as [|p|p]; [reflexivity| |].
  - change (pretty (Z.pos p)) with (pretty_N_go (N.pos p) EmptyString).
    destruct (pretty_N_go_decimal (N.pos p) EmptyString) as (ds & Hds & Hall & Hne).
    pose proof (digits_value_pretty_go (N.pos p) EmptyString ltac:(lia)) as Hv.
    rewrite Hds, append_nil_r in *.
    destruct ds as [|c t]; [exfalso; apply Hne; [lia|reflexivity]|].
    cbn in Hall. apply andb_prop in Hall as [Hc Ht].
    destruct (parseInt_decimal c t Hc Ht) as [H _].
    rewrite H, Hv. reflexivity.
  - change (pretty (Z.neg p)) with (String "-" (pretty_N_go (N.pos p) EmptyString)).
    destruct (pretty_N_go_decimal (N.pos p) EmptyString) as (ds & Hds & Hall & Hne).
    pose proof (digits_value_pretty_go (N.pos p) EmptyString ltac:(lia)) as Hv.
    rewrite Hds, append_nil_r in *.
    destruct ds as [|c t]; [exfalso; apply Hne; [lia|reflexivity]|].
    cbn in Hall. apply andb_prop in Hall as [Hc Ht].
    destruct (parseInt_decimal c t Hc Ht) as [_ H].
    rewrite H, Hv. reflexivity.
Qed.

Lemma or_one_nonzero n : or_one n ≠ 0.
Proof.
  destruct n as [q|]; cbn; [|lia].
  destruct (Z.eqb_spec q 0); lia.
Qed.

Lemma saveWines_issue w :
  remote_ready (app w) = true →
  calls (run_sync saveWines w).2
  = Issued (SetWines (winesObject (wines (app w)))) true (clock w) :: calls w.
Proof.
  intros Hr. unfold saveWines, saveWinesToFirebase. cbn -[winesObject].
  assert (firebaseEnabled (app w) = true) as ->.
  { unfold remote_ready in Hr. destruct (firebaseEnabled (app w)); [reflexivity|discriminate]. }
  cbn -[winesObject]. rewrite Hr. reflexivity.
Qed.

(** Submitting the form in add mode puts the new record in front of
    the collection, with the clock reading as id and date, and leaves the
    records that were there as they are; its quantity is never 0; when
    the store is reachable the bulk save is started with the gate set, on
    the object of the collection that now holds the new record. *)
Theorem form_add_prepends (currentImage : option string) (form : WineForm)
    (w : World) :
  let w' := (run_sync (handleFormSubmit false currentImage form) w).2 in
  let new := wineData form currentImage (pretty (clock w)) (clock w) in
  wines (app w') = new :: wines (app w) ∧
  quantity new ≠ 0 ∧
  (remote_ready (app w) = true →
   calls w'
   = Issued (SetWines (winesObject (new :: wines (app w)))) true (clock w)
     :: calls w).
Proof.
  cbn zeta. unfold handleFormSubmit. cbn -[saveWines wineData pretty winesObject].
  split; [apply saveWines_wines|]. split; [apply or_one_nonzero|].
  intros Hr. rewrite saveWines_issue by exact Hr. reflexivity.
Qed.

Lemma form_add_prepends_witness :
  List.map id (wines (app (run_sync (handleFormSubmit false None sample_form) online).2))
  = ["1000"; "200"; "100"] ∧
  hd_error (calls (run_sync (handleFormSubmit false None sample_form) online).2)
  = Some (Issued (SetWines (winesObject
                   (wineData sample_form None "1000" 1000 :: [blanc; reserva])))
                 true 1000).
Proof.
  destruct (form_add_prepends None sample_form online) as (Hw & _ & Hc).
  rewrite Hw, (Hc eq_refl). split; reflexivity.
Defined.

Lemma replace_by_id_keys k x l :
  id x = k →
  List.map id (replace_by_id k x l) = List.map id l.
Proof.
  intros Hk. induction l as [|y l IH]; [reflexivity|]. cbn.
  destruct (String.eqb (id y) k) eqn:E; cbn.
  - apply String.eqb_eq in E. congruence.
  - rewrite IH. reflexivity.
Qed.

Lemma replace_by_id_dates old x l :
  List.find (λ y, String.eqb (id y) (id old)) l = Some old →
  addedAt x = addedAt old →
  List.map addedAt (replace_by_id (id old) x l) = List.map addedAt l.
Proof.
  intros Hf Hx. induction l as [|y l IH]; [reflexivity|]. cbn in *.
  destruct (String.eqb (id y) (id old)) eqn:E; cbn.
  - injection Hf as ->. rewrite Hx. reflexivity.
  - rewrite IH by assumption. reflexivity.
Qed.

Lemma replace_by_id_find old x l :
  List.find (λ y, String.eqb (id y) (id old)) l = Some old →
  id x = id old →
  List.find (λ y, String.eqb (id y) (id old)) (replace_by_id (id old) x l) = Some x.
Proof.
  intros Hf Hx. induction l as [|y l IH]; [discriminate|]. cbn in *.
  destruct (String.eqb (id y) (id old)) eqn:E; cbn.
  - rewrite Hx, String.eqb_refl. reflexivity.
  - rewrite E. apply IH. assumption.
Qed.

(** Submitting the form in edit mode keeps the ids and the dates of all
    records, in their order: the selected record is replaced where it
    stands by the form's values under its own id and date; when the edit
    form still holds the quantity it was opened with (not 0), the
    quantity is kept too.  When no record has the selected id the
    collection is left as it is. *)
Theorem form_edit_keeps_identity (currentImage : option string)
    (form : WineForm) (w : World) :
  let w' := (run_sync (handleFormSubmit true currentImage form) w).2 in
  List.map id (wines (app w')) = List.map id (wines (app w)) ∧
  List.map addedAt (wines (app w')) = List.map addedAt (wines (app w)) ∧
  match find_by_id id (currentWineId (app w)) (wines (app w)) with
  | Some old =>
      ∃ edited,
        find_by_id id (currentWineId (app w)) (wines (app w')) = Some edited ∧
        edited = wineData form currentImage (id old) (addedAt old) ∧
        (quantity old ≠ 0 → wineQuantity form = pretty (quantity old) →
         quantity edited = quantity old)
  | None => wines (app w') = wines (app w)
  end.
Proof.
  cbn zeta. unfold handleFormSubmit. cbn -[saveWines wineData find_by_id].
  destruct (find_by_id id (currentWineId (app w)) (wines (app w))) as [old|] eqn:Hf;
    cbn -[saveWines wineData find_by_id]; rewrite saveWines_wines;
    cbn -[saveWines wineData find_by_id]; [|auto].
  destruct (find_by_id_some _ _ _ _ Hf) as [Hcur _]. rewrite Hcur in *.
  cbn [find_by_id] in *.
  split; [apply replace_by_id_keys; reflexivity|].
  split; [apply replace_by_id_dates; [assumption|reflexivity]|].
  eexists. split; [apply replace_by_id_find; [assumption|reflexivity]|].
  split; [reflexivity|].
  intros Hq Hform. cbn. rewrite Hform, parseInt_pretty. cbn.
  destruct (Z.eqb_spec (quantity old) 0); [contradiction|reflexivity].
Qed.

Lemma form_edit_keeps_identity_witness :
  ∃ edited,
    find_by_id id (Some "100")
      (wines (app (run_sync (handleFormSubmit true None
                     (mkForm "Gran Reserva" EmptyString "red" EmptyString EmptyString
                             EmptyString 3 3 3 None (pretty (quantity reserva))
                             EmptyString EmptyString))
                     online).2))
    = Some edited ∧
    name edited = "Gran Reserva" ∧
    quantity edited = 1.
Proof.
  destruct (form_edit_keeps_identity None
              (mkForm "Gran Reserva" EmptyString "red" EmptyString EmptyString
                      EmptyString 3 3 3 None (pretty (quantity reserva))
                      EmptyString EmptyString)
              online) as (_ & _ & edited & Hf & He & Hq).
  exists edited. split; [exact Hf|]. split.
  - rewrite He. reflexivity.
  - apply Hq; [discriminate|reflexivity].
Defined.

Lemma qty_btn_keeps_stock action value :
  1 ≤ or_one (parseInt value) → 1 ≤ or_one (parseInt (qty_btn action value)).
Proof.
  intros Hv. unfold qty_btn. rewrite parseInt_pretty.
  set (val := or_one (parseInt value)) in *.
  destruct (String.eqb action "increase"), (String.eqb action "decrease"); cbn [andb].
  all: repeat match goal with
       | |- context [?a <? ?b] => destruct (Z.ltb_spec a b)
       end; cbn [or_one];
       repeat match goal with
       | |- context [?a =? ?b] => destruct (Z.eqb_spec a b)
       end; lia.
Qed.

(** The quantity field of the form starts at 1 and its two buttons never
    take it below 1: whatever buttons were clicked, adding the form to a
    collection in which every record holds at least one bottle gives
    such a collection again. *)
Theorem form_stepper_keeps_stock (actions : list string)
    (currentImage : option string) (form : WineForm) (w : World) :
  stocked (wines (app w)) →
  wineQuantity form = foldl (λ value action, qty_btn action value) "1" actions →
  stocked (wines (app (run_sync (handleFormSubmit false currentImage form) w).2)).
Proof.
  intros Hs Hform. unfold handleFormSubmit. cbn -[saveWines wineData pretty].
  rewrite saveWines_wines. cbn -[wineData pretty].
  constructor; [|exact Hs]. cbn. rewrite Hform. clear.
  assert (H1 : 1 ≤ or_one (parseInt "1")) by (vm_compute; discriminate).
  revert H1. generalize "1"%string.
  induction actions as [|a actions IH]; intros v Hv; [exact Hv|].
  cbn. apply IH, qty_btn_keeps_stock, Hv.
Qed.

Lemma form_stepper_keeps_stock_witness :
  stocked (wines (app (run_sync (handleFormSubmit false None sample_form) online).2)).
Proof.
  apply (form_stepper_keeps_stock ["increase"; "decrease"; "decrease"]).
  - repeat constructor; cbn; lia.
  - reflexivity.
Defined.

(** ** The total of the page *)

Lemma reduce_from a l :
  foldl (λ sum wine, sum + quantity wine) a l = a + totalBottles l.
Proof.
  unfold totalBottles. revert a. induction l as [|y l IH]; intros a; cbn; [lia|].
  rewrite (IH (a + quantity y)), (IH (0 + quantity y)). lia.
Qed.

Lemma totalBottles_cons x l : totalBottles (x :: l) = quantity x + totalBottles l.
Proof. unfold totalBottles at 1. cbn. apply reduce_from. Qed.

Lemma totalBottles_assign wine q l :
  List.find (λ x, String.eqb (id x) (id wine)) l = Some wine →
  totalBottles (assign_quantity (id wine) q l) = totalBottles l + (q - quantity wine).
Proof.
  induction l as [|y l IH]; intros Hf; [discriminate|].
  cbn in Hf. cbn [assign_quantity].
  destruct (String.eqb (id y) (id wine)) eqn:E.
  - injection Hf as ->. rewrite !totalBottles_cons. cbn [quantity with_quantity]. lia.
  - rewrite !totalBottles_cons, IH by assumption. lia.
Qed.

(** The total that the page shows follows the quantity buttons: a click
    that is applied changes it by exactly the change of the click, a click
    that is refused (it would leave less than one bottle) or that finds
    no selected record leaves it as it is; and when every record holds at
    least one bottle the total is at least the number of records. *)
Theorem total_bottles_tracks_quantity (change : Z) (w : World) :
  let before := totalBottles (wines (app w)) in
  let after := totalBottles (wines (app (run_sync (updateDetailQuantity change) w).2)) in
  (stocked (wines (app w)) → Z.of_nat (length (wines (app w))) ≤ before) ∧
  match find_by_id id (currentWineId (app w)) (wines (app w)) with
  | Some wine =>
      after = if quantity wine + change <? 1 then before else before + change
  | None => after = before
  end.
Proof.
  cbn zeta. split.
  - induction 1 as [|x l Hx Hl IH]; [reflexivity|].
    rewrite totalBottles_cons. cbn [length]. lia.
  - rewrite updateDetailQuantity_wines.
    destruct (find_by_id id (currentWineId (app w)) (wines (app w))) as [wine|] eqn:Hf;
      [|reflexivity].
    destruct (quantity wine + change <? 1); [reflexivity|].
    destruct (find_by_id_some _ _ _ _ Hf) as [Hcur _]. rewrite Hcur in Hf.
    rewrite totalBottles_assign by exact Hf. lia.
Qed.

Lemma total_bottles_tracks_quantity_witness :
  Z.of_nat (length (wines (app online))) ≤ totalBottles (wines (app online)) ∧
  totalBottles (wines (app (run_sync (updateDetailQuantity 1) online).2)) = 4.
Proof.
  destruct (total_bottles_tracks_quantity 1 online) as [H1 H2]. split.
  - apply H1. repeat constructor; cbn; lia.
  - exact H2.
Defined.

(** ** Search *)

Lemma prefix_spec n h : String.prefix n h = true ↔ ∃ b, h = n +:+ b.
Proof.
  revert h. induction n as [|c n IH]; intros h.
  - split; [intros _; exists h; reflexivity|]. intros _. destruct h; reflexivity.
  - destruct h as [|d h]; cbn.
    + split; [discriminate|]. intros [b Hb]. discriminate Hb.
    + destruct (ascii_dec c d) as [->|Hne].
      * rewrite IH. split; intros [b Hb]; exists b.
        -- rewrite append_cons. congruence.
        -- rewrite append_cons in Hb. congruence.
      * split; [discriminate|]. intros [b Hb]. rewrite append_cons in Hb. congruence.
Qed.

Lemma append_assoc (a b c : string) : (a +:+ b) +:+ c = a +:+ (b +:+ c).
Proof.
  induction a as [|x a IH]; [reflexivity|]. rewrite !append_cons, IH. reflexivity.
Qed.

Lemma includes_spec n h : includes n h = true ↔ ∃ a b, h = a +:+ n +:+ b.
Proof.
  induction h as [|d h IH].
  - cbn [includes]. rewrite orb_false_r, prefix_spec. split.
    + intros [b Hb]. exists EmptyString, b. exact Hb.
    + intros (a & b & H). destruct a; [exists b; exact H|discriminate H].
  - cbn [includes]. rewrite orb_true_iff, prefix_spec, IH. split.
    + intros [[b Hb]|(a & b & H)].
      * exists EmptyString, b. exact Hb.
      * exists (String d a), b. rewrite append_cons, H. reflexivity.
    + intros (a & b & H). destruct a as [|x a].
      * left. exists b. exact H.
      * right. rewrite append_cons in H. injection H as -> ->. eauto.
Qed.

Lemma includes_trans q q' s :
  includes q q' = true → includes q' s = true → includes q s = true.
Proof.
  rewrite !includes_spec. intros (a & b & ->) (a' & b' & ->).
  exists (a' +:+ a), (b +:+ b'). rewrite !append_assoc. reflexivity.
Qed.

Section SearchProperties.

Variable toLowerCase : string → string.

Lemma matches_query_narrows q q' x :
  includes q q' = true →
  matches_query toLowerCase q' x = true → matches_query toLowerCase q x = true.
Proof.
  intros Hq. unfold matches_query. rewrite !orb_true_iff.
  intros [[[H|H]|H]|H]; eauto using includes_trans.
Qed.

Lemma filter_filter_implied {A} (p r : A → bool) l :
  (∀ x, r x = true → p x = true) →
  List.filter r (List.filter p l) = List.filter r l.
Proof.
  intros H. induction l as [|x l IH]; [reflexivity|]. cbn.
  destruct (p x) eqn:Hp; cbn.
  - rewrite IH. reflexivity.
  - destruct (r x) eqn:Hr; [|exact IH]. rewrite (H x Hr) in Hp. discriminate.
Qed.

(** Typing on narrows the result: when the new query contains the old
    one, its result is the old result filtered by the new query, so every
    record it lists was listed before and is in the collection. *)
Theorem search_narrows (q q' : string) (wines : list Wine) :
  truthy (Some q) = true →
  includes q q' = true →
  handleSearch toLowerCase q' wines
  = List.filter (matches_query toLowerCase q') (handleSearch toLowerCase q wines) ∧
  (∀ x, In x (handleSearch toLowerCase q' wines) →
        In x (handleSearch toLowerCase q wines) ∧ In x wines).
Proof.
  intros Hq Hinc. unfold handleSearch. rewrite Hq.
  destruct (truthy (Some q')) eqn:Hq'.
  - split.
    + symmetry. apply filter_filter_implied. intros x. apply matches_query_narrows, Hinc.
    + intros x Hx. apply filter_In in Hx as [Hin Hm].
      split; [|exact Hin]. apply filter_In. split; [exact Hin|].
      apply (matches_query_narrows q q'); assumption.
  - split; [|intros x []].
    destruct q'; [|discriminate Hq']. destruct q; [discriminate Hq|discriminate Hinc].
Qed.


End SearchProperties.

Lemma search_narrows_witness :
  List.map id (handleSearch (λ s, s) "an" [blanc; reserva]) = ["200"] ∧
  (∀ x, In x (handleSearch (λ s, s) "an" [blanc; reserva]) →
        In x (handleSearch (λ s, s) "a" [blanc; reserva]) ∧ In x [blanc; reserva]).
Proof.
  destruct (search_narrows (λ s, s) "a" "an" [blanc; reserva] eq_refl eq_refl)
    as [H1 H2].
  split; [rewrite H1; reflexivity|exact H2].
Defined.


(** ** Escaping a query *)

(** The escaped text is a pattern without a bare operator, and the text
    it matches literally is the one that was escaped; so two texts with
    the same escaped form are the same text. *)
Theorem escapeRegex_is_literal (s : string) :
  literal_text (escapeRegex s) = Some s ∧
  (∀ s', escapeRegex s = escapeRegex s' → s = s').
Proof.
  assert (H : ∀ t, literal_text (escapeRegex t) = Some t).
  { induction t as [|c t IH]; [reflexivity|].
    cbn [escapeRegex]. destruct (regex_special c) eqn:Hc.
    - cbn [literal_text]. rewrite Hc, IH. reflexivity.
    - cbn [literal_text]. rewrite Hc, IH.
      destruct (Ascii.eqb_spec c "\"); [subst c; discriminate Hc|reflexivity]. }
  split; [apply H|].
  intros s' Heq. pose proof (H s) as H1. rewrite Heq, H in H1. congruence.
Qed.

Lemma escapeRegex_is_literal_witness :
  escapeRegex "a.b" = "a\.b" ∧ literal_text "a\.b" = Some "a.b" ∧
  literal_text "a.b" = None.
Proof.
  destruct (escapeRegex_is_literal "a.b") as [H _].
  split; [reflexivity|]. split; [exact H|reflexivity].
Defined.

(** ** The local cache, written *)

Section CacheProperties.

Variable JSON_stringify : list Wine → string.

(** Writing the collection to the cache never throws and changes
    nothing but the cached text; the records in memory keep their
    images.  The cache gets the full text when it fits, else the text
    without images when that fits, else it keeps what it held.  The
    [saveWines] of the local revision behaves the same. *)
Theorem cache_write_never_throws (w : World) :
  let r := run_sync (saveToLocalStorage JSON_stringify) w in
  let full := JSON_stringify (wines (app w)) in
  let bare := JSON_stringify (List.map without_image (wines (app w))) in
  r.1 = Some (Normal tt) ∧
  r.2 = with_app (set_stored (stored (app r.2))) w ∧
  ((String.length full ≤ room (app w))%nat → stored (app r.2) = Some full) ∧
  ((room (app w) < String.length full)%nat →
   (String.length bare ≤ room (app w))%nat → stored (app r.2) = Some bare) ∧
  ((room (app w) < String.length full)%nat →
   (room (app w) < String.length bare)%nat → stored (app r.2) = stored (app w)) ∧
  run_sync (LocalOnly.saveWines JSON_stringify) w = r.
Proof.
  cbn zeta. unfold LocalOnly.saveWines, saveToLocalStorage, setItem. cbn.
  destruct (Nat.leb_spec (String.length (JSON_stringify (wines (app w)))) (room (app w)));
    cbn.
  - repeat split; auto; lia.
  - destruct (Nat.leb_spec
                (String.length (JSON_stringify (List.map without_image (wines (app w)))))
                (room (app w))); cbn.
    + repeat split; auto; lia.
    + repeat split; auto; try lia. destruct w as [[]]; reflexivity.
Qed.

Lemma saveToLocalStorage_wines w :
  (run_sync (saveToLocalStorage JSON_stringify) w).1 = Some (Normal tt) ∧
  wines (app (run_sync (saveToLocalStorage JSON_stringify) w).2) = wines (app w) ∧
  syncInProgress (app (run_sync (saveToLocalStorage JSON_stringify) w).2)
  = syncInProgress (app w) ∧
  firebaseEnabled (app (run_sync (saveToLocalStorage JSON_stringify) w).2)
  = firebaseEnabled (app w) ∧
  calls (run_sync (saveToLocalStorage JSON_stringify) w).2 = calls w.
Proof.
  unfold saveToLocalStorage, setItem. cbn.
  destruct (String.length (JSON_stringify (wines (app w))) <=? room (app w))%nat; cbn;
    [auto|].
  destruct (String.length (JSON_stringify (List.map without_image (wines (app w))))
            <=? room (app w))%nat; cbn; auto.
Qed.

End CacheProperties.

Lemma cache_write_never_throws_witness :
  stored (app (run_sync (saveToLocalStorage image_stringify) cramped).2)
  = Some "200100" ∧
  wines (app (run_sync (saveToLocalStorage image_stringify) cramped).2)
  = [blanc; reserva].
Proof.
  destruct (cache_write_never_throws image_stringify cramped)
    as (_ & Hw & _ & Hbare & _).
  split.
  - apply Hbare; vm_compute; lia.
  - rewrite Hw. reflexivity.
Defined.

(** ** The union merge in general *)

Lemma map_get_set k k' v m :
  map_get k (map_set k' v m) = if String.eqb k' k then Some v else map_get k m.
Proof.
  unfold map_get. induction m as [|[k0 v0] m IH]; cbn.
  - destruct (String.eqb k' k); reflexivity.
  - destruct (String.eqb k0 k') eqn:E0; cbn.
    + apply String.eqb_eq in E0. subst k0.
      destruct (String.eqb k' k); reflexivity.
    + destruct (String.eqb k0 k) eqn:E1; cbn.
      * apply String.eqb_eq in E1. subst k0. rewrite String.eqb_sym, E0. reflexivity.
      * exact IH.
Qed.

Lemma map_has_get k m :
  map_has k m = match map_get k m with Some _ => true | None => false end.
Proof.
  unfold map_has, map_get. induction m as [|[k0 v0] m IH]; cbn; [reflexivity|].
  destruct (String.eqb k0 k); cbn; [reflexivity|exact IH].
Qed.

Lemma map_set_keys k v m :
  (map_set k v m).*1 = if map_has k m then m.*1 else m.*1 ++ [k].
Proof.
  unfold map_has. induction m as [|[k0 v0] m IH]; cbn; [reflexivity|].
  destruct (String.eqb k0 k) eqn:E; cbn.
  - apply String.eqb_eq in E. subst k0. reflexivity.
  - rewrite IH. destruct (existsb _ m); reflexivity.
Qed.

Lemma map_has_key k m : map_has k m = true ↔ In k (m.*1).
Proof.
  unfold map_has. rewrite existsb_exists. split.
  - intros ([k0 v0] & Hin & E). apply String.eqb_eq in E. cbn in E. subst k0.
    apply (in_map fst) in Hin. exact Hin.
  - intros Hin. apply in_map_iff in Hin as ([k0 v0] & <- & Hin).
    exists (k0, v0). split; [exact Hin|apply String.eqb_refl].
Qed.

Lemma keyed_set v m : keyed m → keyed (map_set (id v) v m).
Proof.
  intros [Hk Hnd]. split.
  - clear Hnd. induction m as [|[k0 v0] m IH]; cbn.
    + repeat constructor.
    + apply Forall_cons in Hk as [H0 Hk].
      destruct (String.eqb k0 (id v)); constructor; auto.
  - rewrite map_set_keys. destruct (map_has (id v) m) eqn:E; [exact Hnd|].
    apply NoDup_app. split; [exact Hnd|]. split; [|apply NoDup_singleton].
    intros x Hx Hx'. apply list_elem_of_In in Hx. apply list_elem_of_singleton in Hx'.
    subst x. apply map_has_key in Hx. congruence.
Qed.

Lemma keyed_fold l m :
  keyed m → keyed (foldl (λ m w, map_set (id w) w m) m l).
Proof.
  revert m. induction l as [|x l IH]; intros m Hm; [exact Hm|].
  cbn. apply IH, keyed_set, Hm.
Qed.

Lemma fold_get k l m :
  map_get k (foldl (λ m w, map_set (id w) w m) m l)
  = match find_by_id id (Some k) (rev l) with
    | Some x => Some x
    | None => map_get k m
    end.
Proof.
  revert m. induction l as [|x l IH] using rev_ind; intros m; [reflexivity|].
  rewrite foldl_app, rev_unit. cbn -[map_get map_set]. rewrite map_get_set.
  destruct (String.eqb (id x) k); [reflexivity|]. apply IH.
Qed.

Lemma new_Map_fold l :
  new_Map (List.map (λ w, (id w, w)) l) = foldl (λ m w, map_set (id w) w m) [] l.
Proof.
  unfold new_Map. generalize (@nil (string * Wine)).
  induction l as [|x l IH]; intros m; [reflexivity|]. cbn. apply IH.
Qed.

Lemma find_rev_none k (l : list Wine) :
  find_by_id id (Some k) (rev l) = None ↔ ¬ In k (List.map id l).
Proof.
  cbn. split.
  - intros Hf Hin. apply in_map_iff in Hin as (x & Hx & Hin).
    apply in_rev in Hin. pose proof (find_none _ _ Hf x Hin) as H. cbn in H.
    rewrite Hx, String.eqb_refl in H. discriminate.
  - intros Hn. destruct (List.find _ (rev l)) as [x|] eqn:E; [|reflexivity].
    apply find_some in E as [Hin E]. apply String.eqb_eq in E. exfalso. apply Hn.
    rewrite <- E. apply in_map, in_rev, Hin.
Qed.

Lemma existsb_id remote x :
  existsb (λ y, String.eqb (id y) (id x)) remote
  = map_has (id x) (foldl (λ m w, map_set (id w) w m) [] remote).
Proof.
  rewrite map_has_get, fold_get. cbn [map_get find fmap option_map].
  destruct (find_by_id id (Some (id x)) (rev remote)) as [y|] eqn:E.
  - apply find_by_id_some in E as [E Hin]. apply existsb_exists.
    exists y. split; [apply in_rev, Hin|]. apply String.eqb_eq. congruence.
  - apply find_rev_none in E. destruct (existsb _ remote) eqn:Ex; [|reflexivity].
    apply existsb_exists in Ex as (y & Hin & Hy). apply String.eqb_eq in Hy.
    exfalso. apply E. rewrite <- Hy. apply in_map, Hin.
Qed.

Lemma run_add_local_only {A} fm local m (k : list (string * Wine) → Task A) w :
  run_sync (bind (add_local_only fm local m) k) w
  = run_sync
      (k (foldl (λ m x, map_set (id x) x m) m
            (List.filter (λ x, negb (map_has (id x) fm)) local)))
      (push_all (List.filter (λ x, negb (map_has (id x) fm)) local) w).
Proof.
  revert m w. induction local as [|x local IH]; intros m w; [reflexivity|].
  cbn [add_local_only List.filter].
  destruct (negb (map_has (id x) fm)); [|apply IH].
  cbn -[pushWineToFirebase add_local_only]. apply IH.
Qed.

Lemma push_all_frame xs w :
  app (push_all xs w) = app w ∧
  clock (push_all xs w) = clock w ∧
  calls (push_all xs w)
  = (if remote_ready (app w)
     then rev (List.map (λ x, Issued (SetWine (id x) x) (syncInProgress (app w))
                                     (clock w)) xs)
     else []) ++ calls w.
Proof.
  revert w. induction xs as [|x xs IH]; intros w.
  - cbn. destruct (remote_ready (app w)); auto.
  - unfold push_all. cbn [foldl]. fold (push_all xs (run_sync (pushWineToFirebase x) w).2).
    destruct (IH (run_sync (pushWineToFirebase x) w).2) as (Ha & Hc & Hl).
    rewrite Ha, Hc, Hl. clear.
    unfold pushWineToFirebase. cbn.
    destruct (remote_ready (app w)) eqn:Hr; cbn; rewrite ?Hr; auto.
    repeat split. rewrite <- app_assoc. reflexivity.
Qed.

Lemma option_ext {A} (a b : option A) :
  (∀ x, a = Some x ↔ b = Some x) → a = b.
Proof.
  intros H. destruct a as [x|].
  - symmetry. apply H. reflexivity.
  - destruct b as [y|]; [|reflexivity]. apply H. reflexivity.
Qed.

Lemma find_by_id_NoDup (l : list Wine) k x :
  NoDup (List.map id l) →
  find_by_id id (Some k) l = Some x ↔ In x l ∧ id x = k.
Proof.
  intros Hnd. split.
  - intros H. apply find_by_id_some in H as [E Hin]. split; [exact Hin|congruence].
  - intros [Hin <-]. apply find_by_id_unique; [exact Hnd|apply list_elem_of_In, Hin].
Qed.

Lemma map_get_keyed m k x :
  keyed m → map_get k m = Some x ↔ In x (m.*2) ∧ id x = k.
Proof.
  intros [Hk Hnd]. unfold map_get. induction m as [|[k0 v0] m IH]; cbn.
  - split; [discriminate|intros [[] _]].
  - apply Forall_cons in Hk as [H0 Hk]. cbn in H0, Hnd.
    apply NoDup_cons in Hnd as [Hn0 Hnd]. subst k0.
    destruct (String.eqb (id v0) k) eqn:E; cbn.
    + apply String.eqb_eq in E. split.
      * intros [= <-]. auto.
      * intros [[->|Hin] Hx]; [reflexivity|]. exfalso. apply Hn0.
        apply in_map_iff in Hin as ([k1 v1] & Hv & Hin). cbn in Hv. subst v1.
        rewrite List.Forall_forall in Hk. pose proof (Hk _ Hin) as Hk1. cbn in Hk1.
        apply list_elem_of_In, in_map_iff. exists (k1, x). split; [cbn; congruence|exact Hin].
    + apply String.eqb_neq in E. rewrite (IH Hk Hnd). split.
      * intros [Hin Hx]. auto.
      * intros [[->|Hin] Hx]; [contradiction|auto].
Qed.

Lemma keyed_ids m : keyed m → List.map id (m.*2) = m.*1.
Proof.
  intros [Hk _]. induction Hk as [|[k v] m H0 Hk IH]; [reflexivity|].
  cbn in *. rewrite IH. congruence.
Qed.

Lemma keyed_find m l k :
  keyed m → l ≡ₚ m.*2 → find_by_id id (Some k) l = map_get k m.
Proof.
  intros Hm Hp. apply option_ext. intros x.
  assert (Hnd : NoDup (List.map id l)).
  { assert (List.map id l ≡ₚ m.*1) as ->; [|apply Hm].
    rewrite <- (keyed_ids m Hm). apply Permutation_map, Hp. }
  rewrite (find_by_id_NoDup l k x Hnd), (map_get_keyed m k x Hm).
  split; intros [Hin Hx]; (split; [|exact Hx]).
  - apply (Permutation_in _ Hp), Hin.
  - apply (Permutation_in _ (Permutation_sym Hp)), Hin.
Qed.

Section MergeProperties.

Variable JSON_stringify : list Wine → string.

Lemma mergeWines_run remote w :
  let w' := (run_sync (mergeWines JSON_stringify remote) w).2 in
  let merged :=
    foldl (λ m x, map_set (id x) x m)
          (foldl (λ m x, map_set (id x) x m) [] remote)
          (local_only remote (wines (app w))) in
  wines (app w') = array_sort by_addedAt (merged.*2) ∧
  calls w' = calls (push_all (local_only remote (wines (app w))) w) ∧
  syncInProgress (app w') = syncInProgress (app w).
Proof.
  cbn zeta. unfold mergeWines.
  unfold mbind, task_bind, get. cbn [bind run_sync]. cbv zeta.
  rewrite (run_add_local_only
             (new_Map (List.map (λ w0, (id w0, w0)) remote)) (wines (app w))).
  assert (Hf : List.filter
                 (λ x, negb (map_has (id x) (new_Map (List.map (λ w0, (id w0, w0)) remote))))
                 (wines (app w))
               = local_only remote (wines (app w))).
  { unfold local_only. apply filter_ext. intros x.
    rewrite new_Map_fold, existsb_id. reflexivity. }
  rewrite Hf.
  destruct (push_all_frame (local_only remote (wines (app w))) w) as (Ha & _ & _).
  set (w1 := push_all (local_only remote (wines (app w))) w) in *.
  cbn -[saveToLocalStorage array_sort local_only].
  destruct (saveToLocalStorage_wines JSON_stringify
              (with_app (set_wines (array_sort by_addedAt))
                 (with_app (set_wines (λ _, (foldl (λ m x, map_set (id x) x m)
                    (foldl (λ m x, map_set (id x) x m) [] remote)
                    (local_only remote (wines (app w)))).*2)) w1)))
    as (_ & Hw & Hs & _ & Hc).
  rewrite Hw, Hc, Hs. cbn -[array_sort local_only]. rewrite Ha. auto.
Qed.

Lemma find_filtered (p : Wine → bool) k l :
  (∀ x, id x = k → p x = true) →
  find_by_id id (Some k) (List.filter p l) = find_by_id id (Some k) l.
Proof.
  intros Hp. cbn. induction l as [|x l IH]; [reflexivity|]. cbn.
  destruct (String.eqb (id x) k) eqn:E.
  - apply String.eqb_eq in E. rewrite (Hp x E). cbn.
    rewrite <- E, String.eqb_refl. reflexivity.
  - destruct (p x); cbn; rewrite ?E; exact IH.
Qed.

Lemma find_none_iff k (l : list Wine) :
  find_by_id id (Some k) l = None ↔ ¬ In k (List.map id l).
Proof.
  rewrite <- (rev_involutive l) at 1. rewrite find_rev_none, map_rev, <- in_rev.
  reflexivity.
Qed.

Lemma merged_get remote local k :
  map_get k (foldl (λ m x, map_set (id x) x m)
               (foldl (λ m x, map_set (id x) x m) [] remote)
               (local_only remote local))
  = match find_by_id id (Some k) (rev remote) with
    | Some x => Some x
    | None => find_by_id id (Some k) (rev local)
    end.
Proof.
  rewrite !fold_get. unfold local_only. rewrite <- filter_rev.
  destruct (find_by_id id (Some k) (rev remote)) as [r|] eqn:Hr.
  - destruct (find_by_id id (Some k) (List.filter _ (rev local))) as [x|] eqn:Hx;
      [|reflexivity].
    exfalso. apply find_by_id_some in Hx as [Hk Hin].
    apply filter_In in Hin as [_ Hin]. apply negb_true_iff in Hin.
    apply find_by_id_some in Hr as [Hkr Hinr].
    assert (existsb (λ y, String.eqb (id y) (id x)) remote = true); [|congruence].
    apply existsb_exists. exists r. split; [apply in_rev, Hinr|].
    apply String.eqb_eq. congruence.
  - rewrite find_filtered.
    + destruct (find_by_id id (Some k) (rev local)); reflexivity.
    + intros x <-. apply negb_true_iff.
      destruct (existsb _ remote) eqn:E; [|reflexivity].
      apply existsb_exists in E as (y & Hin & Hy). apply String.eqb_eq in Hy.
      apply find_rev_none in Hr. exfalso. apply Hr. rewrite <- Hy. apply in_map, Hin.
Qed.

Lemma merge_keyed remote w :
  let merged :=
    foldl (λ m x, map_set (id x) x m)
          (foldl (λ m x, map_set (id x) x m) [] remote)
          (local_only remote (wines (app w))) in
  keyed merged ∧
  wines (app (run_sync (mergeWines JSON_stringify remote) w).2)
  = array_sort by_addedAt (merged.*2).
Proof.
  cbn zeta. split.
  - apply keyed_fold, keyed_fold. split; constructor.
  - apply (mergeWines_run remote w).
Qed.

Lemma merge_find remote w k :
  find_by_id id (Some k) (wines (app (run_sync (mergeWines JSON_stringify remote) w).2))
  = match find_by_id id (Some k) (rev remote) with
    | Some x => Some x
    | None => find_by_id id (Some k) (rev (wines (app w)))
    end.
Proof.
  destruct (merge_keyed remote w) as [Hk Hw]. cbn zeta in Hk, Hw.
  rewrite Hw, (keyed_find _ _ k Hk (array_sort_perm _ _)).
  apply merged_get.
Qed.

Lemma merge_ids remote w k :
  In k (List.map id (wines (app (run_sync (mergeWines JSON_stringify remote) w).2)))
  ↔ In k (List.map id remote) ∨ In k (List.map id (wines (app w))).
Proof.
  pose proof (find_none_iff k (wines (app (run_sync (mergeWines JSON_stringify remote) w).2))) as H1.
  pose proof (find_rev_none k remote) as H2.
  pose proof (find_rev_none k (wines (app w))) as H3.
  rewrite merge_find in H1.
  destruct (find_by_id id (Some k) (rev remote)),
           (find_by_id id (Some k) (rev (wines (app w))));
    destruct (in_dec String.eq_dec k (List.map id (wines (app (run_sync (mergeWines JSON_stringify remote) w).2))));
    destruct (in_dec String.eq_dec k (List.map id remote));
    destruct (in_dec String.eq_dec k (List.map id (wines (app w))));
    intuition congruence.
Qed.

(** The merge is a union keyed by id, for any snapshot and any local
    collection: under each id the result holds the snapshot's record when
    the snapshot has one (the last, if several), else the local record
    (the last, if several); an id is in the result exactly when it is in
    the snapshot or in the local collection, so the merge never drops a
    record; no id occurs twice; and the result is newest first. *)
Theorem merge_is_union (remote : list Wine) (w : World) :
  let w' := (run_sync (mergeWines JSON_stringify remote) w).2 in
  (∀ k, find_by_id id (Some k) (wines (app w'))
        = match find_by_id id (Some k) (rev remote) with
          | Some x => Some x
          | None => find_by_id id (Some k) (rev (wines (app w)))
          end) ∧
  (∀ k, In k (List.map id (wines (app w')))
        ↔ In k (List.map id remote) ∨ In k (List.map id (wines (app w)))) ∧
  NoDup (List.map id (wines (app w'))) ∧
  newest_first (wines (app w')).
Proof.
  cbn zeta.
  split; [intros k; apply merge_find|].
  split; [intros k; apply merge_ids|].
  destruct (merge_keyed remote w) as [Hk Hw]. cbn zeta in Hk, Hw.
  rewrite Hw. split.
  - assert (List.map id (array_sort by_addedAt
              (foldl (λ m x, map_set (id x) x m)
                     (foldl (λ m x, map_set (id x) x m) [] remote)
                     (local_only remote (wines (app w)))).*2)
            ≡ₚ (foldl (λ m x, map_set (id x) x m)
                      (foldl (λ m x, map_set (id x) x m) [] remote)
                      (local_only remote (wines (app w)))).*1) as ->;
      [|apply Hk].
    rewrite <- (keyed_ids _ Hk). apply Permutation_map, array_sort_perm.
  - apply array_sort_newest_first.
Qed.

Lemma local_only_nil remote l :
  (∀ x, In x l → In (id x) (List.map id remote)) → local_only remote l = [].
Proof.
  unfold local_only. induction l as [|x l IH]; intros Hall; [reflexivity|]. cbn.
  assert (existsb (λ y, String.eqb (id y) (id x)) remote = true) as ->.
  { destruct (proj1 (in_map_iff _ _ _) (Hall x (or_introl eq_refl))) as (y & Hy & Hin).
    apply existsb_exists. exists y. split; [exact Hin|]. apply String.eqb_eq, Hy. }
  cbn. apply IH. intros y Hy. apply Hall. right. exact Hy.
Qed.

(** The merge starts one write per record that only the local collection
    has, in the order of the collection, and no other request; with the
    store out of reach, or when every local id is in the snapshot, it
    issues none. *)
Theorem merge_pushes_local_only (remote : list Wine) (w : World) :
  let w' := (run_sync (mergeWines JSON_stringify remote) w).2 in
  calls w'
  = (if remote_ready (app w)
     then rev (List.map (λ x, Issued (SetWine (id x) x) (syncInProgress (app w))
                                     (clock w))
                        (local_only remote (wines (app w))))
     else []) ++ calls w ∧
  ((∀ x, In x (wines (app w)) → In (id x) (List.map id remote)) → calls w' = calls w).
Proof.
  cbn zeta. destruct (mergeWines_run remote w) as (_ & Hc & _). cbn zeta in Hc.
  destruct (push_all_frame (local_only remote (wines (app w))) w) as (_ & _ & Hp).
  rewrite Hc, Hp. split; [reflexivity|].
  intros Hall.
  rewrite local_only_nil by exact Hall.
  destruct (remote_ready (app w)); reflexivity.
Qed.

(** In the union-merge revision a delete does not set the gate: a
    snapshot that still holds the deleted record, delivered after the
    delete, brings the record back into the collection. *)
Theorem stale_snapshot_resurrects (X : string) (data : list Wine) (w : World) :
  syncInProgress (app w) = false →
  currentWineId (app w) = Some X →
  In X (List.map id data) →
  let deleted := (run_sync (Merge.deleteCurrentWine JSON_stringify) w).2 in
  let merged := (run_sync (winesValue_merge JSON_stringify (Some data)) deleted).2 in
  ¬ In X (List.map id (wines (app deleted))) ∧
  In X (List.map id (wines (app merged))).
Proof.
  intros Hg Hcur HX. cbn zeta.
  assert (Hd : wines (app (run_sync (Merge.deleteCurrentWine JSON_stringify) w).2)
               = remove_by_id id (Some X) (wines (app w)) ∧
               syncInProgress (app (run_sync (Merge.deleteCurrentWine JSON_stringify) w).2)
               = false).
  { unfold Merge.deleteCurrentWine, Merge.deleteWineFromFirebase, saveToLocalStorage, setItem.
    cbn -[remove_by_id]. rewrite Hcur.
    repeat first
      [ progress cbn -[remove_by_id]
      | match goal with
        | |- context [if ?b then _ else _] => destruct b eqn:?
        end ]; auto. }
  destruct Hd as [Hd1 Hd2]. split.
  - rewrite Hd1. apply remove_by_id_absent.
  - unfold winesValue_merge. unfold mbind, task_bind, get. cbn [bind run_sync].
    rewrite Hd2.
    apply merge_ids. left. exact HX.
Qed.

End MergeProperties.

Lemma merge_pushes_local_only_witness :
  calls (run_sync (mergeWines sample_stringify [merge_b'; merge_a; merge_c]) merge_local).2
  = [].
Proof.
  destruct (merge_pushes_local_only sample_stringify [merge_b'; merge_a; merge_c]
              merge_local) as [_ H].
  apply H. intros x [<-|[<-|[]]]; cbn; auto.
Defined.

Lemma stale_snapshot_resurrects_witness :
  In "100"
    (List.map id
       (wines (app (run_sync (winesValue_merge sample_stringify (Some [blanc; reserva]))
                      (run_sync (Merge.deleteCurrentWine sample_stringify) online).2).2))).
Proof.
  apply (stale_snapshot_resurrects sample_stringify "100" [blanc; reserva] online);
    [reflexivity|reflexivity|cbn; auto].
Defined.

(** ** The keys of the recognition services *)

Lemma prefix_sk_not_masked k : String.prefix "sk-" k = true → masked k = false.
Proof.
  destruct k as [|c k]; [discriminate|]. unfold masked.
  destruct c as [[] [] [] [] [] [] [] []]; try discriminate. reflexivity.
Qed.

(** A key that was saved is the key after a reload, whatever
    [config.js] holds.  A key that was cleared comes back on reload when
    [config.js] provides one.  A key of [config.js] that contains the
    placeholder word is never adopted. *)
Theorem api_key_reload (CONFIG : option Config) (key : string) (s : Settings) :
  truthy (Some key) = true →
  loadApiKey CONFIG (saveApiKey (Some key) s) = saveApiKey (Some key) s ∧
  (∀ k, configured CONFIG OPENAI_API_KEY = Some k →
        apiKey (loadApiKey CONFIG (saveApiKey None s)) = Some k ∧
        localStorage (loadApiKey CONFIG (saveApiKey None s)) !! "openaiApiKey" = Some k) ∧
  (∀ c k, OPENAI_API_KEY c = Some k → includes "YOUR" k = true →
          loadApiKey (Some c) s = loadApiKey None s).
Proof.
  intros Hk. split; [|split].
  - unfold loadApiKey, saveApiKey. cbn -[truthy]. rewrite Hk. cbn -[truthy].
    rewrite lookup_insert_eq, Hk. reflexivity.
  - intros k Hc. unfold loadApiKey, saveApiKey. cbn -[truthy configured].
    rewrite lookup_delete_eq. cbn -[configured]. rewrite Hc. cbn.
    rewrite lookup_insert_eq. auto.
  - intros c k Hc Hy. unfold loadApiKey, configured. rewrite Hc, Hy.
    rewrite andb_false_r. reflexivity.
Qed.

Lemma api_key_reload_witness :
  apiKey (loadApiKey (Some (mkConfig (Some "YOUR-OPENAI-KEY-HERE") None None))
            (saveApiKey (Some "sk-abc") (mkSettings None None None ∅)))
  = Some "sk-abc".
Proof.
  destruct (api_key_reload (Some (mkConfig (Some "YOUR-OPENAI-KEY-HERE") None None))
              "sk-abc" (mkSettings None None None ∅) eq_refl) as [H _].
  rewrite H. reflexivity.
Defined.

(** Whatever is typed into the key field and whichever of its two
    buttons is clicked, the key in memory stays the stored one, and a
    stored key starts with [sk-]; the mask that the field shows for a
    stored key is never saved as a key. *)
Theorem api_key_keeps_format (actions : list KeyAction) (s : Settings) :
  well_formed_key s →
  well_formed_key (foldl on_key_action s actions).
Proof.
  revert s. induction actions as [|a actions IH]; intros s Hs; [exact Hs|].
  cbn [foldl]. apply IH. clear IH. destruct Hs as [Hs1 Hs2].
  destruct a as [input|]; cbn.
  - unfold handleSaveApiKey.
    destruct (truthy (Some (trim input)) && negb (masked (trim input))) eqn:E;
      [|split; assumption].
    destruct (String.prefix "sk-" (trim input)) eqn:P; [|split; assumption].
    apply andb_prop in E as [E _]. unfold saveApiKey. rewrite E. split; cbn -[trim].
    + rewrite lookup_insert_eq. reflexivity.
    + intros k. rewrite lookup_insert_eq. intros [= <-].
      split; [exact P|apply prefix_sk_not_masked, P].
  - split; cbn.
    + rewrite lookup_delete_eq. reflexivity.
    + intros k. rewrite lookup_delete_eq. discriminate.
Qed.

Lemma api_key_keeps_format_witness :
  well_formed_key
    (foldl on_key_action (mkSettings None None None ∅)
       [SaveKey "  sk-live "; SaveKey "secret"; SaveKey "••••••••••••live"]).
Proof.
  apply api_key_keeps_format. split; [reflexivity|].
  intros k H. discriminate H.
Defined.

(** ** The reply of the recognition service *)

Lemma after_prefix_app p s : after_prefix p (p +:+ s) = Some s.
Proof.
  induction p as [|a p IH]; [reflexivity|].
  rewrite append_cons. cbn [after_prefix]. rewrite Ascii.eqb_refl. exact IH.
Qed.

Lemma split_fence_plain s : no_backtick s = true → split_fence s = None.
Proof.
  induction s as [|c s IH]; intros H; [reflexivity|].
  cbn [no_backtick] in H. apply andb_prop in H as [Hc Hs]. apply negb_true_iff in Hc.
  cbn [split_fence after_prefix]. rewrite Ascii.eqb_sym, Hc, (IH Hs). reflexivity.
Qed.

Lemma split_fence_first pre rest :
  no_backtick pre = true → split_fence (pre +:+ "```" +:+ rest) = Some (pre, rest).
Proof.
  induction pre as [|c pre IH]; intros H.
  - change (EmptyString +:+ "```" +:+ rest) with ("```" +:+ rest).
    destruct rest; reflexivity.
  - cbn [no_backtick] in H. apply andb_prop in H as [Hc Hs]. apply negb_true_iff in Hc.
    rewrite append_cons. cbn [split_fence after_prefix].
    rewrite Ascii.eqb_sym, Hc, (IH Hs). reflexivity.
Qed.

Lemma trim_start_space ws s : all_space ws = true → trim_start (ws +:+ s) = trim_start s.
Proof.
  induction ws as [|c ws IH]; intros H; [reflexivity|].
  cbn [all_space] in H. apply andb_prop in H as [Hc Hs].
  rewrite append_cons. cbn [trim_start]. rewrite Hc. apply IH, Hs.
Qed.

Lemma trim_start_fence s rest :
  trim_start (s +:+ "```" +:+ rest) = trim_start s +:+ "```" +:+ rest.
Proof.
  induction s as [|c s IH]; [reflexivity|].
  rewrite append_cons. cbn [trim_start].
  destruct (Ascii.is_space c); [exact IH|]. rewrite append_cons. reflexivity.
Qed.

Lemma trim_start_idem s : trim_start (trim_start s) = trim_start s.
Proof.
  induction s as [|c s IH]; [reflexivity|]. cbn [trim_start].
  destruct (Ascii.is_space c) eqn:E; [exact IH|]. cbn [trim_start]. rewrite E.
  reflexivity.
Qed.

Lemma no_backtick_trim_start s : no_backtick s = true → no_backtick (trim_start s) = true.
Proof.
  induction s as [|c s IH]; intros H; [reflexivity|]. cbn [trim_start].
  destruct (Ascii.is_space c); [|exact H].
  cbn [no_backtick] in H. apply andb_prop in H as [_ H]. apply IH, H.
Qed.

Lemma after_prefix_fence x post :
  after_prefix "json" x = None → no_backtick x = true →
  after_prefix "json" (x +:+ "```" +:+ post) = None.
Proof.
  intros Hx Hb.
  destruct x as [|c1 x]; [reflexivity|]. rewrite append_cons.
  cbn [after_prefix] in Hx |- *. destruct (Ascii.eqb "j" c1); [|reflexivity].
  destruct x as [|c2 x]; [reflexivity|]. rewrite append_cons.
  cbn [after_prefix] in Hx |- *. destruct (Ascii.eqb "s" c2); [|reflexivity].
  destruct x as [|c3 x]; [reflexivity|]. rewrite append_cons.
  cbn [after_prefix] in Hx |- *. destruct (Ascii.eqb "o" c3); [|reflexivity].
  destruct x as [|c4 x]; [reflexivity|]. rewrite append_cons.
  cbn [after_prefix] in Hx |- *. destruct (Ascii.eqb "n" c4); [discriminate|reflexivity].
Qed.

(** A reply that wraps its JSON in a code fence, with or without the
    [json] tag, with any text around the fence, is read as the bare JSON
    would be: the parser sees the text inside the fence, trimmed.  (An
    untagged fence must not itself start with the word json.)  A reply
    without backticks is parsed as it is. *)
Theorem fenced_reply_is_unwrapped (tagged : bool) (pre ws body post : string) :
  no_backtick pre = true →
  all_space ws = true →
  no_backtick body = true →
  (tagged = false → after_prefix "json" (ws +:+ body) = None) →
  parse_reply (pre +:+ "```" +:+ (if tagged then "json" else EmptyString)
                   +:+ ws +:+ body +:+ "```" +:+ post)
  = parse_reply body ∧
  jsonMatch body = None.
Proof.
  intros Hpre Hws Hbody Htag.
  assert (Hplain : jsonMatch body = None).
  { unfold jsonMatch. rewrite (split_fence_plain body Hbody). reflexivity. }
  split; [|exact Hplain].
  unfold parse_reply. rewrite Hplain. cbn -[JSON.parse trim trim_start jsonMatch].
  assert (Hm : jsonMatch (pre +:+ "```" +:+ (if tagged then "json" else EmptyString)
                          +:+ ws +:+ body +:+ "```" +:+ post)
               = Some (trim_start body)).
  { unfold jsonMatch. rewrite (split_fence_first pre _ Hpre).
    assert (Hun : default ((if tagged then "json" else EmptyString)
                           +:+ ws +:+ body +:+ "```" +:+ post)
                    (after_prefix "json"
                       ((if tagged then "json" else EmptyString)
                        +:+ ws +:+ body +:+ "```" +:+ post))
                  = ws +:+ body +:+ "```" +:+ post).
    { destruct tagged.
      - rewrite after_prefix_app. reflexivity.
      - change (EmptyString +:+ ?x) with x.
        rewrite <- (append_assoc ws body), after_prefix_fence.
        + rewrite append_assoc. reflexivity.
        + apply Htag. reflexivity.
        + clear -Hws Hbody. induction ws as [|c ws IH]; [exact Hbody|].
          rewrite append_cons. cbn [all_space no_backtick] in Hws |- *.
          apply andb_prop in Hws as [Hc Hws]. rewrite (IH Hws), andb_true_r.
          destruct c as [[] [] [] [] [] [] [] []]; try discriminate Hc; reflexivity. }
    rewrite Hun, (trim_start_space ws _ Hws), trim_start_fence.
    rewrite (split_fence_first _ _ (no_backtick_trim_start body Hbody)). reflexivity. }
  rewrite Hm. cbn -[JSON.parse trim trim_start jsonMatch].
  assert (trim (trim_start body) = trim body) as ->; [|reflexivity].
  unfold trim. rewrite trim_start_idem. reflexivity.
Qed.

Lemma fenced_reply_is_unwrapped_witness :
  parse_reply "Here it is: ```json [1, 2] ``` Enjoy!"
  = Normal (JSON.Array [JSON.Number "1"; JSON.Number "2"]).
Proof.
  destruct (fenced_reply_is_unwrapped true "Here it is: " " " "[1, 2] " " Enjoy!")
    as [H _]; [reflexivity..|discriminate|].
  transitivity (parse_reply "[1, 2] "); [exact H|reflexivity].
Defined.

(** ** Calls that overlap *)

Lemma assign_quantity_find k q l x :
  List.find (λ y, String.eqb (id y) k) l = Some x →
  List.find (λ y, String.eqb (id y) k) (assign_quantity k q l) = Some (with_quantity q x).
Proof.
  induction l as [|y l IH]; intros Hf; [discriminate|]. cbn in *.
  destruct (String.eqb (id y) k) eqn:E; cbn.
  - injection Hf as ->. rewrite E. reflexivity.
  - rewrite E. apply IH, Hf.
Qed.

Lemma winesObject_has l k :
  In k (List.map id l) → ∃ x, winesObject l !! k = Some x.
Proof.
  intros Hin. rewrite winesObject_find.
  destruct (find_by_id id (Some k) (rev l)) as [x|] eqn:E; [eauto|].
  apply find_rev_none in E. contradiction.
Qed.

(** The gate is one flag for all calls: when the bulk save that a
    quantity click started settles while a delete of the same record is
    suspended, the save's [finally] opens the gate, and a snapshot that
    still holds the record, delivered right after, puts it back into the
    collection; the delete goes on to remove the record from the store,
    so at its end the page shows a record that the store no longer
    has. *)
Theorem save_in_flight_reopens_gate (w : World) (R : Wine) (data : list Wine) :
  idle w →
  remote_ready (app w) = true →
  syncInProgress (app w) = false →
  find_by_id id (currentWineId (app w)) (wines (app w)) = Some R →
  0 ≤ quantity R →
  In (id R) (List.map id data) →
  let clicked := click w Increase in
  let o := exec (deleteCurrentWine CloudFunctions)
                [mkTurn [Settle 0 None; WinesValue (Some data)] None] clicked in
  result o = Normal tt ∧
  In (id R) (List.map id (wines (app (world o)))) ∧
  remote_wines (world o) !! id R = None.
Proof.
  intros [Hp Ht] Hr Hg Hf Hq Hin.
  destruct (find_by_id_some _ _ _ _ Hf) as [Hcur HinR].
  destruct w as [s rw ra c ts p cs]. destruct s as [ws ar cw ca r1 r2 d u fe g st rm].
  cbn in Hp, Ht, Hr, Hg, Hf, Hcur. subst p ts g cw.
  unfold remote_ready in Hr. cbn in Hr.
  destruct fe; [|discriminate]. destruct d; [|discriminate]. cbn in Hr.
  assert (Hlt : (quantity R + 1 <? 1) = false) by (apply Z.ltb_ge; lia).
  destruct (winesObject_has (assign_quantity (id R) (quantity R + 1) ws) (id R)) as [x Hx].
  { rewrite assign_quantity_ids. apply in_map, HinR. }
  cbn zeta. unfold click, on_click, updateDetailQuantity, saveWines, saveWinesToFirebase.
  cbn -[find_by_id winesObject assign_quantity remove_by_id array_sort].
  rewrite Hf.
  cbn -[find_by_id winesObject assign_quantity remove_by_id array_sort].
  rewrite Hlt.
  cbn -[find_by_id winesObject assign_quantity remove_by_id array_sort].
  unfold remote_ready.
  cbn -[find_by_id winesObject assign_quantity remove_by_id array_sort].
  rewrite Hr.
  cbn -[find_by_id winesObject assign_quantity remove_by_id array_sort].
  unfold deleteCurrentWine, deleteWineFromFirebase, remote_ready.
  cbn -[find_by_id winesObject assign_quantity remove_by_id array_sort].
  rewrite Hr.
  cbn -[find_by_id winesObject assign_quantity remove_by_id array_sort].
  rewrite Hx.
  cbn -[find_by_id winesObject assign_quantity remove_by_id array_sort].
  split; [reflexivity|]. split.
  - apply in_map_iff in Hin as (y & Hy & Hin). apply in_map_iff.
    exists y. split; [exact Hy|].
    apply (Permutation_in _ (Permutation_sym (array_sort_perm by_addedAt data))), Hin.
  - apply lookup_delete_eq.
Qed.

Lemma save_in_flight_reopens_gate_witness :
  let o := exec (deleteCurrentWine CloudFunctions)
                [mkTurn [Settle 0 None; WinesValue (Some [blanc; reserva])] None]
                (click online Increase) in
  result o = Normal tt ∧
  In "100" (List.map id (wines (app (world o)))) ∧
  remote_wines (world o) !! "100" = None.
Proof.
  apply (save_in_flight_reopens_gate online reserva [blanc; reserva]);
    [split; reflexivity|reflexivity|reflexivity|reflexivity|cbn; lia|cbn; auto].
Defined.

Lemma deleteCurrentWine_quiet w :
  pending w = [] →
  let o := exec (deleteCurrentWine CloudFunctions) [] w in
  syncInProgress (app (world o)) = true ∧
  timers (world o) = timers w ++ [(clock w + 2000, ResetSyncFlag)] ∧
  clock (world o) = clock w ∧
  pending (world o) = [].
Proof.
  intros Hp.
  destruct w as [s rw ra c ts p cs]. destruct s as [ws ar cw ca r1 r2 d u fe g st rm].
  cbn in Hp. subst p.
  unfold deleteCurrentWine, deleteWineFromFirebase.
  cbn -[remove_by_id].
  repeat first
    [ progress cbn -[remove_by_id]
    | match goal with
      | |- context [if ?b then _ else _] => destruct b eqn:?
      | |- context [snapshot_exists ?b] => destruct (snapshot_exists b) eqn:?
      end ]; auto.
Qed.

(** Each delete arms its own timer and any timer opens the gate: when a
    second delete follows the first by less than 2000 ms, the gate opens
    2000 ms after the first delete returned, which is less than 2000 ms
    after the second did. *)
Theorem overlapping_deletes_share_timer (w : World) (Y : string) (gap : N) :
  idle w →
  (gap < 2000)%N →
  let first := world (exec (deleteCurrentWine CloudFunctions) [] w) in
  let selected := click (dispatch first (Elapse gap)) (OpenCard Y) in
  let second := world (exec (deleteCurrentWine CloudFunctions) [] selected) in
  syncInProgress (app second) = true ∧
  clock second = clock w + Z.of_N gap ∧
  syncInProgress (app (dispatch second (Elapse (2000 - gap)))) = false.
Proof.
  intros [Hp Ht] Hgap. cbn zeta.
  destruct (deleteCurrentWine_quiet w Hp) as (Hg1 & Ht1 & Hc1 & Hp1). cbn zeta in *.
  set (w1 := world (exec (deleteCurrentWine CloudFunctions) [] w)) in *.
  rewrite Ht in Ht1. cbn in Ht1.
  assert (H2 : timers (click (dispatch w1 (Elapse gap)) (OpenCard Y))
               = [(clock w + 2000, ResetSyncFlag)] ∧
               clock (click (dispatch w1 (Elapse gap)) (OpenCard Y)) = clock w + Z.of_N gap ∧
               pending (click (dispatch w1 (Elapse gap)) (OpenCard Y)) = []).
  { unfold click, on_click, openDetailModal. cbn -[find_by_id elapse].
    assert (He : timers (elapse gap w1) = [(clock w + 2000, ResetSyncFlag)] ∧
                 clock (elapse gap w1) = clock w + Z.of_N gap ∧
                 pending (elapse gap w1) = []).
    { unfold elapse. cbn. rewrite Ht1, Hc1, Hp1. cbn.
      destruct (Z.leb_spec (clock w + 2000) (clock w + Z.of_N gap)); [lia|]. cbn. auto. }
    destruct (find_by_id id (Some Y) _); cbn -[elapse]; exact He. }
  destruct H2 as (Ht2 & Hc2 & Hp2).
  set (w2 := click (dispatch w1 (Elapse gap)) (OpenCard Y)) in *.
  destruct (deleteCurrentWine_quiet w2 Hp2) as (Hg3 & Ht3 & Hc3 & Hp3). cbn zeta in *.
  set (w3 := world (exec (deleteCurrentWine CloudFunctions) [] w2)) in *.
  split; [exact Hg3|]. split; [congruence|].
  cbn [dispatch]. unfold elapse. cbn. rewrite Ht3, Ht2, Hc3, Hc2. cbn.
  destruct (Z.leb_spec (clock w + 2000) (clock w + Z.of_N gap + Z.of_N (2000 - gap)));
    [|lia].
  cbn. destruct (_ <=? _); reflexivity.
Qed.

Lemma overlapping_deletes_share_timer_witness :
  syncInProgress
    (app (dispatch
            (world (exec (deleteCurrentWine CloudFunctions) []
                      (click (dispatch (world (exec (deleteCurrentWine CloudFunctions) [] online))
                                       (Elapse 1500))
                             (OpenCard "200"))))
            (Elapse 500)))
  = false.
Proof.
  apply (overlapping_deletes_share_timer online "200" 1500); [split; reflexivity|reflexivity].
Defined.
